(** * advanced-kanban: the markdown <-> board transform

    A shallow embedding of the list-item decomposer, the board assembler, the
    board serializer and the bulk reparse of [src/parsers/formats/list.ts]
    (together with the lane's [addItems] callback of
    [src/components/Lane/Lane.tsx] and the data model of
    [src/components/types.ts]), and the properties of that code.

    Conventions of the embedding.
    - JavaScript numbers that hold offsets, depths and levels are [Z].
    - [undefined]/[null] are [None]; a thrown exception is [Throw].
    - Collaborators that live outside the three embedded files (settings
      lookup, boundary and text helpers, the markdown parser, the id
      generator, localisation) are the fields of one record, [Env]; every
      definition takes it as an argument, the way the source threads
      [stateManager]. Collaborators are taken to return normally.
    - Objects that the source mutates after sharing them (the lanes under
      construction in [astToUnhydratedBoard]) live in an explicit heap,
      addressed by allocation order. *)

From Stdlib Require Import String Ascii List ZArith Bool Lia Sorted Permutation.
Import ListNotations.

Local Open Scope Z_scope.
Set Warnings "-register-all".

(* ------------------------------------------------------------------ *)
(** ** JavaScript strings and values *)

Module Js.

Notation "a +:+ b" := (String.append a b) (at level 60, right associativity).

(** The one-character string holding a line feed. *)
Definition nl : string := String (ascii_of_nat 10) EmptyString.

Definition strlen (s : string) : Z := Z.of_nat (String.length s).

(** [s.indexOf(needle)], [-1] when absent. *)
Definition indexOf (s needle : string) : Z :=
match String.index 0 needle s with
| Some i => Z.of_nat i
| None => -1
end.

(** The clamping of one bound of [String.prototype.slice]. *)
Definition clampIndex (len i : Z) : Z :=
if i <? 0 then Z.max (len + i) 0 else Z.min i len.

(** [s.slice(from, to)]. *)
Definition slice (s : string) (from to : Z) : string :=
let len := strlen s in
let f := clampIndex len from in
let t := clampIndex len to in
String.substring (Z.to_nat f) (Z.to_nat (Z.max (t - f) 0)) s.

(** [s.slice(from)]. *)
Definition sliceFrom (s : string) (from : Z) : string :=
slice s from (strlen s).

(** [s.startsWith(p)]. *)
Definition startsWith (s p : string) : bool := String.prefix p s.

(** [c.repeat(n)] for an integral [n >= 0]. *)
Fixpoint repeatNat (c : string) (n : nat) : string :=
match n with
| O => EmptyString
| S k => c +:+ repeatNat c k
end.

Definition repeat (c : string) (n : Z) : string := repeatNat c (Z.to_nat n).

(** [lines.join(sep)]. *)
Fixpoint join (sep : string) (lines : list string) : string :=
match lines with
| [] => EmptyString
| [l] => l
| l :: rest => l +:+ sep +:+ join sep rest
end.

(** String conversion of a possibly-undefined string, as [+] and template
  literals perform it. *)
Definition toStr (v : option string) : string :=
match v with
| Some s => s
| None => "undefined"%string
end.

(** Truthiness of an optional string: [undefined] and [''] are falsy. *)
Definition truthyStr (v : option string) : bool :=
match v with
| Some s => negb (String.eqb s EmptyString)
| None => false
end.

(** Truthiness of an optional boolean. *)
Definition truthy (v : option bool) : bool :=
match v with
| Some b => b
| None => false
end.

(** Truthiness of an optional object: only [undefined] is falsy. *)
Definition isSome {A : Type} (v : option A) : bool :=
match v with
| Some _ => true
| None => false
end.

(** [n || 1] on an optional number. *)
Definition orOne (n : option Z) : Z :=
match n with
| Some v => if v =? 0 then 1 else v
| None => 1
end.

(** What a throwing call leaves behind. *)
Inductive Error : Type :=
| TypeError (what : string)
| DanglingReference.

Inductive result (A : Type) : Type :=
| Ok (a : A)
| Throw (e : Error).
Arguments Ok {A} a.
Arguments Throw {A} e.

Definition bind {A B : Type} (r : result A) (k : A -> result B) : result B :=
match r with
| Ok a => k a
| Throw e => Throw e
end.

(** [xs.map(f)] where [f] may throw: the first exception ends the map. *)
Fixpoint mapM {A B : Type} (f : A -> result B) (xs : list A) : result (list B) :=
match xs with
| [] => Ok []
| x :: rest =>
    bind (f x) (fun y => bind (mapM f rest) (fun ys => Ok (y :: ys)))
end.

(** A left-to-right loop whose body may throw. *)
Fixpoint foldM {A S : Type} (f : S -> A -> result S) (xs : list A) (s : S) : result S :=
match xs with
| [] => Ok s
| x :: rest => bind (f s x) (foldM f rest)
end.

End Js.
Import Js.

Notation "x <- r ;; k" := (bind r (fun x => k))
  (at level 61, r at next level, right associativity).

(* ------------------------------------------------------------------ *)
(** ** The syntax tree (mdast, with the plugin's node kinds) *)

Record Position : Type := mkPosition {
  start_offset : Z;
  end_offset : Z
}.

Definition FileAccessor : Type := string.
Definition FileMetadata : Type := list (string * string).

(** One node. The fields beyond [type], [position] and [children] are those
    the transform reads off particular kinds: [value] and [alt] of leaves,
    [depth] of headings, [checked] and [checkChar] of task items, [date] and
    [time] of date and time nodes, the file fields of links. *)
Inductive Node : Type := mkNode {
  type : string;
  position : Position;
  children : list Node;
  value : option string;
  alt : option string;
  depth : option Z;
  checked : option bool;
  checkChar : option string;
  date : option string;
  time : option string;
  fileAccessor : option FileAccessor;
  fileMetadata : option FileMetadata;
  fileMetadataOrder : option (list string)
}.

Definition isType (n : Node) (t : string) : bool := String.eqb (type n) t.

(** [toString(node, {includeImageAlt})] of mdast-util-to-string: a node with a
    value yields it, an image its alt text when asked to, a parent the
    concatenation of its children. *)
Fixpoint toString (includeImageAlt : bool) (n : Node) : string :=
  match n with
  | mkNode _ _ ch (Some v) _ _ _ _ _ _ _ _ _ => v
  | mkNode _ _ ch None a _ _ _ _ _ _ _ _ =>
      if includeImageAlt && truthyStr a then toStr a
      else (fix all (l : list Node) : string :=
              match l with
              | [] => EmptyString
              | c :: rest => toString includeImageAlt c +:+ all rest
              end) ch
  end.

(** [visit(tree, ...)] of unist-util-visit hands the visitor every node in
    preorder together with its parent. Neither visitor of this file ever
    answers SKIP or EXIT ([true] and [undefined] both mean "continue"), so the
    traversal is the whole preorder; the test only selects which nodes the
    visitor sees. *)
Fixpoint preorder (parent : option Node) (n : Node) : list (Node * option Node) :=
  match n with
  | mkNode _ _ ch _ _ _ _ _ _ _ _ _ _ =>
      (n, parent) ::
      (fix all (l : list Node) : list (Node * option Node) :=
         match l with
         | [] => []
         | c :: rest => preorder (Some n) c ++ all rest
         end) ch
  end.

(** [parent.children.first()?.value?.startsWith('```')]; [Throw] stands for
    the TypeError of reading [children] off an absent parent. *)
Definition inFencedCode (parent : option Node) : result bool :=
  match parent with
  | None => Throw (TypeError "parent is undefined")
  | Some p =>
      match children p with
      | [] => Ok false
      | c :: _ =>
          match value c with
          | Some v => Ok (startsWith v "```")
          | None => Ok false
          end
      end
  end.

(* ------------------------------------------------------------------ *)
(** ** The board data model (components/types.ts) *)

Record ContentBoundary : Type := mkBoundary {
  cb_start : Z;
  cb_end : Z
}.

(** An inline [key:: value] field with its span in the title. *)
Record InlineField : Type := mkInlineField {
  if_key : string;
  if_value : string;
  if_start : Z;
  if_end : Z
}.

Record ItemMetadata : Type := mkItemMetadata {
  dateStr : option string;
  md_date : option string;
  timeStr : option string;
  md_time : option string;
  tags : list string;
  md_fileAccessor : option FileAccessor;
  md_file : option string;
  md_fileMetadata : option FileMetadata;
  md_fileMetadataOrder : option (list string);
  inlineMetadata : option (list InlineField)
}.

Record ItemData : Type := mkItemData {
  blockId : option string;
  d_checked : option bool;
  d_checkChar : string;
  title : string;
  titleRaw : string;
  titleSearch : string;
  titleSearchRaw : string;
  metadata : ItemMetadata;
  forceEditMode : option bool
}.

Record LaneData : Type := mkLaneData {
  shouldMarkItemsComplete : option bool;
  l_title : string;
  maxItems : option Z;
  level : option Z;
  isCollapsed : option bool;
  parentId : option string
}.

(** [Nestable<ItemData>]: [type], [accepts] and [children] are the constants of
    [ItemTemplate], so an item is its id and its data. *)
Record Item : Type := mkItem {
  item_id : string;
  item_data : ItemData
}.

(** A lane's child is a lane or an item; [isItem]/[isLane] read the [type]
    discriminant, here the constructor. *)
Inductive Child (L : Type) : Type :=
| ChildItem (i : Item)
| ChildLane (l : L).
Arguments ChildItem {L} i.
Arguments ChildLane {L} l.

Inductive Lane : Type := mkLane {
  lane_id : string;
  lane_data : LaneData;
  lane_children : list (Child Lane)
}.

Definition isItem {L : Type} (c : Child L) : bool :=
  match c with ChildItem _ => true | ChildLane _ => false end.

Definition isLane {L : Type} (c : Child L) : bool :=
  match c with ChildItem _ => false | ChildLane _ => true end.

Definition getLaneLevel (lane : Lane) : Z := orOne (level (lane_data lane)).

Definition KanbanSettings : Type := list (string * string).
Definition Frontmatter : Type := list (string * string).

Record BoardData : Type := mkBoardData {
  isSearching : bool;
  settings : KanbanSettings;
  frontmatter : Frontmatter;
  archive : list Item;
  errors : list string
}.

Record Board : Type := mkBoard {
  board_id : string;
  board_children : list Lane;
  board_data : BoardData
}.

(* ------------------------------------------------------------------ *)
(** ** Collaborators *)

(** Everything the three files call but do not define. The settings are the
    four [stateManager.getSetting] reads of the decomposer; [instanceId k] is
    the result of the [k]-th call of [generateInstanceId] during one parse;
    [hydrateItem] answers the item as it is after the call together with
    whether the call threw. *)
Record Env : Type := mkEnv {
  moveTags : bool;
  moveDates : bool;
  moveTaskData : bool;
  inlineMetadataPosition : string;
  getNodeContentBoundary : Node -> ContentBoundary;
  getStringFromBoundary : string -> ContentBoundary -> string;
  replaceBrs : string -> string;
  dedentNewLines : string -> string;
  indentNewLines : string -> string;
  replaceNewLines : string -> string;
  removeBlockId : string -> string;
  addBlockId : string -> Item -> string;
  markRangeForDeletion : string -> ContentBoundary -> string;
  executeDeletion : string -> string;
  preprocessTitle : string -> string;
  extractInlineFields : string -> bool -> list InlineField;
  taskFields : string -> bool;
  defaultSort : string -> string -> Z;
  parseLaneTitle : string -> string * option Z;
  laneTitleWithMaxItems : string -> option Z -> string;
  t_Archive : string;
  t_Complete : string;
  archiveString : string;
  completeString : string;
  settingsToCodeblock : Board -> string;
  stringifyYaml : Frontmatter -> string;
  filePath : string;
  instanceId : nat -> string;
  parseFragment : string -> Node;
  hydrateItem : Item -> Item * bool;
  getTaskStatusDone : string
}.

(* ------------------------------------------------------------------ *)
(** ** [Array.prototype.sort] with a comparator *)

(** The sort is stable; with a comparator that orders consistently its result
    is the one computed here, by insertion from the right. *)
Section Sort.
Variable cmp : string -> string -> Z.

Fixpoint insertSorted (x : string) (l : list string) : list string :=
  match l with
  | [] => [x]
  | y :: rest => if cmp x y <=? 0 then x :: y :: rest else y :: insertSorted x rest
  end.

Fixpoint sortBy (l : list string) : list string :=
  match l with
  | [] => []
  | x :: rest => insertSorted x (sortBy rest)
  end.
End Sort.

(* ------------------------------------------------------------------ *)
(** ** The item decomposer: [listItemToItemData] *)

Section Decompose.
Variable E : Env.

(** The types the first [visit] selects. *)
Definition searchTypes : list string :=
  ["text"; "wikilink"; "embedWikilink"; "image"; "inlineCode"; "code"; "hashtag"]%string.

Definition isSearchType (n : Node) : bool :=
  existsb (String.eqb (type n)) searchTypes.

(** [node.value || node.alt || ''] *)
Definition valueOrAlt (n : Node) : string :=
  if truthyStr (value n) then toStr (value n)
  else if truthyStr (alt n) then toStr (alt n)
  else EmptyString.

(** The body of the first visitor, on the nodes that pass its test. *)
Definition searchStep (titleSearch : string) (np : Node * option Node) : result string :=
  let (node, parent) := np in
  if negb (isSearchType node) then Ok titleSearch
  else if isType node "hashtag" then
    fenced <- inFencedCode parent ;;
    if negb fenced then Ok (titleSearch +:+ " #" +:+ toStr (value node))
    else Ok titleSearch
  else Ok (titleSearch +:+ valueOrAlt node).

(** The range of a node relative to the start of the item's content. *)
Definition relativeRange (itemStart : Z) (node : Node) : ContentBoundary :=
  {| cb_start := start_offset (position node) - itemStart;
     cb_end := end_offset (position node) - itemStart |}.

Definition setBlockId (d : ItemData) (v : option string) : ItemData :=
  mkItemData v (d_checked d) (d_checkChar d) (title d) (titleRaw d)
    (titleSearch d) (titleSearchRaw d) (metadata d) (forceEditMode d).

Definition setTitle (d : ItemData) (v : string) : ItemData :=
  mkItemData (blockId d) (d_checked d) (d_checkChar d) v (titleRaw d)
    (titleSearch d) (titleSearchRaw d) (metadata d) (forceEditMode d).

Definition setMetadata (d : ItemData) (m : ItemMetadata) : ItemData :=
  mkItemData (blockId d) (d_checked d) (d_checkChar d) (title d) (titleRaw d)
    (titleSearch d) (titleSearchRaw d) m (forceEditMode d).

Definition setForceEditMode (d : ItemData) (v : option bool) : ItemData :=
  mkItemData (blockId d) (d_checked d) (d_checkChar d) (title d) (titleRaw d)
    (titleSearch d) (titleSearchRaw d) (metadata d) v.

Definition pushTag (m : ItemMetadata) (tag : string) : ItemMetadata :=
  mkItemMetadata (dateStr m) (md_date m) (timeStr m) (md_time m) (tags m ++ [tag])
    (md_fileAccessor m) (md_file m) (md_fileMetadata m) (md_fileMetadataOrder m)
    (inlineMetadata m).

Definition setTags (m : ItemMetadata) (ts : list string) : ItemMetadata :=
  mkItemMetadata (dateStr m) (md_date m) (timeStr m) (md_time m) ts
    (md_fileAccessor m) (md_file m) (md_fileMetadata m) (md_fileMetadataOrder m)
    (inlineMetadata m).

Definition setDateStr (m : ItemMetadata) (v : option string) : ItemMetadata :=
  mkItemMetadata v (md_date m) (timeStr m) (md_time m) (tags m)
    (md_fileAccessor m) (md_file m) (md_fileMetadata m) (md_fileMetadataOrder m)
    (inlineMetadata m).

Definition setTimeStr (m : ItemMetadata) (v : option string) : ItemMetadata :=
  mkItemMetadata (dateStr m) (md_date m) v (md_time m) (tags m)
    (md_fileAccessor m) (md_file m) (md_fileMetadata m) (md_fileMetadataOrder m)
    (inlineMetadata m).

Definition setFileAccessor (m : ItemMetadata) (v : option FileAccessor) : ItemMetadata :=
  mkItemMetadata (dateStr m) (md_date m) (timeStr m) (md_time m) (tags m)
    v (md_file m) (md_fileMetadata m) (md_fileMetadataOrder m) (inlineMetadata m).

Definition setFileFields (m : ItemMetadata) (n : Node) : ItemMetadata :=
  mkItemMetadata (dateStr m) (md_date m) (timeStr m) (md_time m) (tags m)
    (fileAccessor n) (md_file m) (fileMetadata n) (fileMetadataOrder n)
    (inlineMetadata m).

Definition setInlineMetadata (m : ItemMetadata) (v : option (list InlineField)) : ItemMetadata :=
  mkItemMetadata (dateStr m) (md_date m) (timeStr m) (md_time m) (tags m)
    (md_fileAccessor m) (md_file m) (md_fileMetadata m) (md_fileMetadataOrder m) v.

(** The two variables the second visitor assigns: [itemData] and the local
    [title] that collects the deletion marks. *)
Definition VisitState : Type := (ItemData * string)%type.

Definition markIf (flag : bool) (itemStart : Z) (node : Node) (ttl : string) : string :=
  if flag then markRangeForDeletion E ttl (relativeRange itemStart node) else ttl.

(** The body of the second visitor; its test lets every node but paragraphs
    through. *)
Definition metadataStep (itemStart : Z) (st : VisitState) (np : Node * option Node)
  : result VisitState :=
  let (node, parent) := np in
  let (d, ttl) := st in
  if isType node "paragraph" then Ok st
  else if isType node "blockid" then Ok (setBlockId d (value node), ttl)
  else if isType node "hashtag" then
    fenced <- inFencedCode parent ;;
    if negb fenced then
      Ok (setMetadata d (pushTag (metadata d) ("#" +:+ toStr (value node))),
          markIf (moveTags E) itemStart node ttl)
    else Ok st
  else if isType node "date" || isType node "dateLink" then
    Ok (setMetadata d (setDateStr (metadata d) (date node)),
        markIf (moveDates E) itemStart node ttl)
  else if isType node "time" then
    Ok (setMetadata d (setTimeStr (metadata d) (time node)),
        markIf (moveDates E) itemStart node ttl)
  else if isType node "embedWikilink" then
    Ok (setMetadata d (setFileAccessor (metadata d) (fileAccessor node)), ttl)
  else if isType node "wikilink" then
    Ok (setMetadata d (setFileFields (metadata d) node), ttl)
  else if isType node "link" && isSome (fileAccessor node) then
    Ok (setMetadata d (setFileFields (metadata d) node), ttl)
  else if isType node "embedLink" then
    Ok (setMetadata d (setFileAccessor (metadata d) (fileAccessor node)), ttl)
  else Ok st.

(** The reducer of [inlineFields.reduce]: whether [curr] is pushed. *)
Definition keepsField (firstLineEnd : Z) (curr : InlineField) : bool :=
  if negb (taskFields E (if_key curr)) then true
  else if (firstLineEnd <=? 0) || (if_end curr <? firstLineEnd) then true
  else false.

Definition reduceFields (firstLineEnd : Z) (inlineFields : list InlineField)
  : list InlineField :=
  fold_left (fun acc curr => if keepsField firstLineEnd curr then acc ++ [curr] else acc)
    inlineFields [].

(** One turn of the loop that cuts moved fields out of the title. *)
Definition exciseStep (moveTaskData_ moveMetadata : bool) (ttl : string)
    (item : InlineField) : string :=
  let isTask := taskFields E (if_key item) in
  if isTask && negb moveTaskData_ then ttl
  else if negb isTask && negb moveMetadata then ttl
  else slice ttl 0 (if_start item) +:+ sliceFrom ttl (if_end item).

(** Lines 198-225: the inline-field pass over an item whose title is set. *)
Definition applyInlineFields (d : ItemData) : ItemData :=
  let firstLineEnd := indexOf (title d) nl in
  let inlineFields := extractInlineFields E (title d) true in
  match inlineFields with
  | [] => d
  | _ :: _ =>
      let kept := reduceFields firstLineEnd inlineFields in
      let d1 := setMetadata d (setInlineMetadata (metadata d) (Some kept)) in
      let moveMetadata := negb (String.eqb (inlineMetadataPosition E) "body") in
      if moveTaskData E || moveMetadata then
        setTitle d1 (fold_left (exciseStep (moveTaskData E) moveMetadata) (rev kept) (title d1))
      else d1
  end.

(** Line 227. *)
Definition sortTags (d : ItemData) : ItemData :=
  setMetadata d (setTags (metadata d) (sortBy (defaultSort E) (tags (metadata d)))).

Definition emptyMetadata : ItemMetadata :=
  mkItemMetadata None None None None [] None None None None None.

(** Lines 53-196: everything up to and including the assignment of
    [itemData.title]. *)
Definition decomposeTitle (md : string) (item : Node) : result ItemData :=
  match children item with
  | [] => Throw (TypeError "startNode is undefined")
  | startNode :: _ =>
      let endNode := last (children item) startNode in
      let start :=
        if isType startNode "paragraph"
        then cb_start (getNodeContentBoundary E startNode)
        else start_offset (position startNode) in
      let end_ :=
        if isType endNode "paragraph"
        then cb_end (getNodeContentBoundary E endNode)
        else end_offset (position endNode) in
      let itemBoundary := {| cb_start := start; cb_end := end_ |} in
      let itemContent0 := getStringFromBoundary E md itemBoundary in
      let marker := if truthy (checked item) then toStr (checkChar item) else " "%string in
      let itemContent :=
        if String.eqb itemContent0 ("[" +:+ marker +:+ "]")
        then EmptyString else itemContent0 in
      titleSearch_ <- foldM searchStep (preorder None item) EmptyString ;;
      let itemData :=
        {| titleRaw := removeBlockId E (dedentNewLines E (replaceBrs E itemContent));
           blockId := None;
           title := EmptyString;
           titleSearch := titleSearch_;
           titleSearchRaw := titleSearch_;
           metadata := emptyMetadata;
           d_checked := checked item;
           d_checkChar :=
             if truthy (checked item)
             then (if truthyStr (checkChar item) then toStr (checkChar item) else " "%string)
             else " "%string;
           forceEditMode := None |} in
      st <- foldM (metadataStep start) (preorder None item) (itemData, itemContent) ;;
      Ok (setTitle (fst st)
            (preprocessTitle E (dedentNewLines E (executeDeletion E (snd st)))))
  end.

Definition listItemToItemData (md : string) (item : Node) : result ItemData :=
  d <- decomposeTitle md item ;;
  Ok (sortTags (applyInlineFields d)).


End Decompose.

(* ------------------------------------------------------------------ *)
(** ** Sibling scans (parsers/helpers/ast.ts) *)

(** Modelled from the spec: [getPrevSibling] is not among the embedded files;
    the archive rule speaks of the block "directly preceding" the heading, so
    it is the sibling at [currentIndex - 1], absent for the first block. *)
Definition getPrevSibling (siblings : list Node) (currentIndex : nat) : option Node :=
  match currentIndex with
  | O => None
  | S k => nth_error siblings k
  end.

(** Modelled from the spec: [getNextOfType] is not among the embedded files
    (section 4.1, firstNextOfType): scan forward from the position after
    [currentIndex], return the first node of the wanted type, and return none
    as soon as the predicate refuses an intermediate node. The predicate of
    the one call site assigns a captured variable, so it is state-passing
    here. *)
Fixpoint scanNextOfType {S : Type} (rest : list Node) (ty : string)
    (shouldContinue : Node -> S -> bool * S) (s : S) : option Node * S :=
  match rest with
  | [] => (None, s)
  | child :: rest' =>
      if isType child ty then (Some child, s)
      else
        let (go, s') := shouldContinue child s in
        if go then scanNextOfType rest' ty shouldContinue s' else (None, s')
  end.

Definition getNextOfType {S : Type} (siblings : list Node) (currentIndex : nat)
    (ty : string) (shouldContinue : Node -> S -> bool * S) (s : S) : option Node * S :=
  scanNextOfType (skipn (Datatypes.S currentIndex) siblings) ty shouldContinue s.

(* ------------------------------------------------------------------ *)
(** ** The board assembler: [astToUnhydratedBoard] *)

(** A lane object under construction. A child lane is held by reference: the
    source pushes the very object that sits on the stack and keeps pushing
    into it afterwards. *)
Record LaneCell : Type := mkLaneCell {
  cell_id : string;
  cell_data : LaneData;
  cell_children : list (Child nat)
}.

(** The variables of one run: the lane objects allocated so far, the [lanes]
    and [archive] arrays, [laneStack] (its head is the array's last entry) and
    the number of ids drawn. *)
Record Assembly : Type := mkAssembly {
  heap : list LaneCell;
  lanes : list nat;
  archiveItems : list Item;
  laneStack : list (nat * Z);
  idsDrawn : nat
}.

Definition setParentId (d : LaneData) (p : option string) : LaneData :=
  mkLaneData (shouldMarkItemsComplete d) (l_title d) (maxItems d) (level d)
    (isCollapsed d) p.

Definition pushChild (c : LaneCell) (ch : Child nat) : LaneCell :=
  mkLaneCell (cell_id c) (cell_data c) (cell_children c ++ [ch]).

(** Replace the cell at one address. *)
Fixpoint updateCell (h : list LaneCell) (a : nat) (f : LaneCell -> LaneCell) : list LaneCell :=
  match h, a with
  | [], _ => []
  | c :: rest, O => f c :: rest
  | c :: rest, S k => c :: updateCell rest k f
  end.

(** The [while] loop over the stack. *)
Fixpoint popWhile (lvl : Z) (stack : list (nat * Z)) : list (nat * Z) :=
  match stack with
  | [] => []
  | (a, l) :: rest => if l >=? lvl then popWhile lvl rest else stack
  end.

(** Read the finished object graph back as a tree. The fuel bounds the depth
    followed; [Throw DanglingReference] marks a reference that leads nowhere
    or deeper than the fuel. *)
Fixpoint reify (fuel : nat) (h : list LaneCell) (a : nat) : result Lane :=
  match fuel with
  | O => Throw DanglingReference
  | S f =>
      match nth_error h a with
      | None => Throw DanglingReference
      | Some c =>
          ch <- mapM (fun x : Child nat =>
                        match x with
                        | ChildItem i => Ok (ChildItem i)
                        | ChildLane b => l <- reify f h b ;; Ok (ChildLane l)
                        end) (cell_children c) ;;
          Ok (mkLane (cell_id c) (cell_data c) ch)
      end
  end.

Section Assemble.
Variable E : Env.

Definition isArchiveLane (child : Node) (siblings : list Node) (currentIndex : nat) : bool :=
  if negb (isType child "heading")
     || negb (String.eqb (toString false child) (t_Archive E))
  then false
  else
    match getPrevSibling siblings currentIndex with
    | Some prev => isType prev "thematicBreak"
    | None => false
    end.

(** The predicate handed to [getNextOfType]; the state is
    [shouldMarkItemsComplete]. *)
Definition listScanContinue (child : Node) (shouldMark : bool) : bool * bool :=
  if isType child "heading" then (false, shouldMark)
  else if isType child "paragraph" then
    let childStr := toString true child in
    if startsWith childStr "%% kanban:settings" then (false, shouldMark)
    else if String.eqb childStr (t_Complete E) then (true, true)
    else (true, shouldMark)
  else (true, shouldMark).

(** [list.children.map(listItem => ({...ItemTemplate, id, data}))], drawing
    one id per item. *)
Fixpoint makeItems (md : string) (drawn : nat) (listItems : list Node)
  : result (list Item * nat) :=
  match listItems with
  | [] => Ok ([], drawn)
  | li :: rest =>
      data <- listItemToItemData E md li ;;
      r <- makeItems md (S drawn) rest ;;
      Ok (mkItem (instanceId E drawn) data :: fst r, snd r)
  end.

(** Lines 320-339: pop the lanes at the same or a deeper level, make the new
    lane a child of the lane left on top or a top-level lane, push it. [r]
    holds the lane's items and the count of ids drawn after making them. *)
Definition linkLane (st : Assembly) (laneId : string) (data : LaneData) (lvl : Z)
    (r : list Item * nat) : result Assembly :=
  let addr := length (heap st) in
  let items := map (@ChildItem nat) (fst r) in
  match popWhile lvl (laneStack st) with
  | (p, pl) :: below =>
      match nth_error (heap st) p with
      | None => Throw DanglingReference
      | Some parentCell =>
          let lane :=
            mkLaneCell laneId (setParentId data (Some (cell_id parentCell))) items in
          Ok (mkAssembly
                (updateCell (heap st ++ [lane]) p (fun c => pushChild c (ChildLane addr)))
                (lanes st) (archiveItems st)
                ((addr, lvl) :: (p, pl) :: below) (snd r))
      end
  | [] =>
      Ok (mkAssembly (heap st ++ [mkLaneCell laneId data items])
            (lanes st ++ [addr]) (archiveItems st)
            [(addr, lvl)] (snd r))
  end.

(** The data of the lane a heading opens. *)
Definition laneDataOf (md : string) (child : Node) (shouldMark : bool) : LaneData :=
  let headingBoundary := getNodeContentBoundary E child in
  let ttl := getStringFromBoundary E md headingBoundary in
  {| l_title := fst (parseLaneTitle E ttl);
     maxItems := snd (parseLaneTitle E ttl);
     shouldMarkItemsComplete := Some shouldMark;
     level := Some (orOne (depth child));
     isCollapsed := Some false;
     parentId := None |}.

(** The body of [root.children.forEach]. *)
Definition headingStep (siblings : list Node) (md : string) (st : Assembly)
    (index : nat) (child : Node) : result Assembly :=
  if negb (isType child "heading") then Ok st
  else
    let isArchive := isArchiveLane child siblings index in
    let lvl := orOne (depth child) in
    let (list_, shouldMark) :=
      getNextOfType siblings index "list" listScanContinue false in
    match isArchive, list_ with
    | true, Some l =>
        r <- makeItems md (idsDrawn st) (children l) ;;
        Ok (mkAssembly (heap st) (lanes st) (archiveItems st ++ fst r)
              (laneStack st) (snd r))
    | _, _ =>
        let laneId := instanceId E (idsDrawn st) in
        r <- match list_ with
             | Some l => makeItems md (S (idsDrawn st)) (children l)
             | None => Ok ([], S (idsDrawn st))
             end ;;
        linkLane st laneId (laneDataOf md child shouldMark) lvl r
    end.

Fixpoint forEachFrom (siblings : list Node) (md : string) (index : nat)
    (rest : list Node) (st : Assembly) : result Assembly :=
  match rest with
  | [] => Ok st
  | child :: rest' =>
      st' <- headingStep siblings md st index child ;;
      forEachFrom siblings md (S index) rest' st'
  end.

Definition emptyAssembly : Assembly := mkAssembly [] [] [] [] 0.

Definition assemble (root : Node) (md : string) : result Assembly :=
  forEachFrom (children root) md 0 (children root) emptyAssembly.

Definition astToUnhydratedBoard (settings_ : KanbanSettings) (frontmatter_ : Frontmatter)
    (root : Node) (md : string) : result Board :=
  st <- assemble root md ;;
  top <- mapM (reify (length (heap st)) (heap st)) (lanes st) ;;
  Ok {| board_id := filePath E;
        board_children := top;
        board_data :=
          {| settings := settings_;
             frontmatter := frontmatter_;
             archive := archiveItems st;
             isSearching := false;
             errors := [] |} |}.

End Assemble.

(* ------------------------------------------------------------------ *)
(** ** The board serializer: [boardToMd] *)

Section Serialize.
Variable E : Env.

Definition itemToMd (item : Item) : string :=
  "- [" +:+ d_checkChar (item_data item) +:+ "] "
    +:+ addBlockId E (indentNewLines E (titleRaw (item_data item))) item.

Definition headingPrefix (lvl : Z) : string := repeat "#" (Z.max 1 (lvl + 1)).

Definition headingLine (data : LaneData) : string :=
  headingPrefix (orOne (level data)) +:+ " "
    +:+ replaceNewLines E (laneTitleWithMaxItems E (l_title data) (maxItems data)).

(** [lines] is the array the source pushes to. *)
Fixpoint laneToMd (lane : Lane) : string :=
  match lane with
  | mkLane _ data ch =>
      let lines := [headingLine data] in
      let lines := lines ++ [EmptyString] in
      let lines :=
        if truthy (shouldMarkItemsComplete data)
        then lines ++ [completeString E] else lines in
      let lines :=
        (fix each (l : list (Child Lane)) (lines : list string) : list string :=
           match l with
           | [] => lines
           | ChildItem i :: rest => each rest (lines ++ [itemToMd i])
           | ChildLane c :: rest => each rest (lines ++ [laneToMd c])
           end) ch lines in
      join nl (lines ++ [EmptyString; EmptyString; EmptyString])
  end.

Definition archiveToMd (archive_ : list Item) : string :=
  match archive_ with
  | [] => EmptyString
  | _ :: _ =>
      let lines := [archiveString E; EmptyString; "## " +:+ t_Archive E; EmptyString] in
      join nl (fold_left (fun lines item => lines ++ [itemToMd item]) archive_ lines)
  end.

Definition frontmatterToMd (fm : Frontmatter) : string :=
  join nl ["---"%string; EmptyString; stringifyYaml E fm; "---"%string;
           EmptyString; EmptyString].

Definition lanesToMd (top : list Lane) : string :=
  fold_left (fun md lane => md +:+ laneToMd lane) top EmptyString.

Definition boardToMd (board : Board) : string :=
  frontmatterToMd (frontmatter (board_data board))
    +:+ lanesToMd (board_children board)
    +:+ archiveToMd (archive (board_data board))
    +:+ settingsToCodeblock E board.

End Serialize.

(* ------------------------------------------------------------------ *)
(** ** Recomposing items: [updateItemContent], [newItem], [reparseBoard] *)

Section Reparse.
Variable E : Env.

(** [(ast.children[0] as List).children[0]], handed to the decomposer; a
    missing list or a missing first item is the TypeError of the read that
    follows. *)
Definition firstListItem (ast : Node) : result Node :=
  match children ast with
  | [] => Throw (TypeError "ast.children[0] is undefined")
  | l :: _ =>
      match children l with
      | [] => Throw (TypeError "item is undefined")
      | li :: _ => Ok li
      end
  end.

Definition updateItemContent (oldItem : Item) (newContent : string) : result Item :=
  let md := "- [" +:+ d_checkChar (item_data oldItem) +:+ "] "
              +:+ addBlockId E (indentNewLines E newContent) oldItem in
  let ast := parseFragment E md in
  li <- firstListItem ast ;;
  itemData <- listItemToItemData E md li ;;
  let newItem := mkItem (item_id oldItem) itemData in
  (* try { hydrateItem(...) } catch (e) { console.error(e) } *)
  Ok (fst (hydrateItem E newItem)).

Definition newItem (drawn : nat) (newContent checkChar_ : string)
    (forceEdit : option bool) : result Item :=
  let md := "- [" +:+ checkChar_ +:+ "] " +:+ indentNewLines E newContent in
  let ast := parseFragment E md in
  li <- firstListItem ast ;;
  itemData <- listItemToItemData E md li ;;
  let itemData := setForceEditMode itemData (Some (truthy forceEdit)) in
  Ok (fst (hydrateItem E (mkItem (instanceId E drawn) itemData))).

(** The callback of the inner [map]. *)
Definition reparseChild (child : Child Lane) : result (Child Lane) :=
  match child with
  | ChildItem it =>
      it' <- updateItemContent it (titleRaw (item_data it)) ;;
      Ok (ChildItem it')
  | ChildLane l => Ok (ChildLane l)
  end.

(** The callback of the outer [map]. *)
Definition reparseLane (lane : Lane) : result Lane :=
  ch <- mapM reparseChild (lane_children lane) ;;
  Ok (mkLane (lane_id lane) (lane_data lane) ch).

(** What a call of [reparseBoard] does: what it returns or throws, and what
    it handed to [stateManager.setError]. *)
Record ReparseOutcome : Type := mkOutcome {
  returned : result Board;
  errorSet : option Error
}.

Definition reparseBoard (board : Board) : ReparseOutcome :=
  match mapM reparseLane (board_children board) with
  | Ok top =>
      {| returned := Ok (mkBoard (board_id board) top (board_data board));
         errorSet := None |}
  | Throw e => {| returned := Throw e; errorSet := Some e |}
  end.

End Reparse.

(* ------------------------------------------------------------------ *)
(** ** The lane component's [addItems] (components/Lane/Lane.tsx) *)

Inductive BoardModifier : Type := prependItems | appendItems.

(** The call [addItems] makes on [boardModifiers]. *)
Record ModifierCall : Type := mkCall {
  call_method : BoardModifier;
  call_path : list Z;
  call_items : list Item
}.

Section AddItems.
Variable E : Env.

Definition setChecked (d : ItemData) (c : option bool) (ch : string) : ItemData :=
  mkItemData (blockId d) c ch (title d) (titleRaw d)
    (titleSearch d) (titleSearchRaw d) (metadata d) (forceEditMode d).

(** [update(item, {data: {checked: {$set: ...}, checkChar: {$set: ...}}})] *)
Definition markForLane (shouldMark : bool) (item : Item) : Item :=
  mkItem (item_id item)
    (setChecked (item_data item) (Some shouldMark)
       (if shouldMark then getTaskStatusDone E else " "%string)).

(** [insertionMethod] is the 'new-card-insertion-method' setting and [path]
    the lane's entity path, both read by the component around the callback. *)
Definition addItems (insertionMethod : string) (path : list Z) (lane : Lane)
    (items : list Item) : ModifierCall :=
  let shouldMark := truthy (shouldMarkItemsComplete (lane_data lane)) in
  let isCompactPrepend := String.eqb insertionMethod "prepend-compact" in
  let shouldPrepend := isCompactPrepend || String.eqb insertionMethod "prepend" in
  {| call_method := if shouldPrepend then prependItems else appendItems;
     call_path := path ++ [Z.of_nat (length (lane_children lane)) - 1];
     call_items := map (markForLane shouldMark) items |}.

End AddItems.

(* ------------------------------------------------------------------ *)
(** ** Lane helpers (components/types.ts) *)

Definition isParentLane (lane : Lane) : bool := existsb isLane (lane_children lane).

(** [children.filter(isLane)], read at the narrowed type. *)
Fixpoint lanesAmong (cs : list (Child Lane)) : list Lane :=
  match cs with
  | [] => []
  | ChildLane l :: rest => l :: lanesAmong rest
  | ChildItem _ :: rest => lanesAmong rest
  end.

(** [children.filter(isItem)], read at the narrowed type. *)
Fixpoint itemsAmong (cs : list (Child Lane)) : list Item :=
  match cs with
  | [] => []
  | ChildItem i :: rest => i :: itemsAmong rest
  | ChildLane _ :: rest => itemsAmong rest
  end.

Definition getNestedLanes (lane : Lane) : list Lane := lanesAmong (lane_children lane).

Definition getNestedItems (lane : Lane) : list Item := itemsAmong (lane_children lane).

(* ------------------------------------------------------------------ *)
(** ** Collapse state of the lane component (components/Lane/Lane.tsx) *)

(** The two view-state entries the component reads and writes:
    'list-collapse', an array indexed by lane position whose holes read
    [undefined], and 'hierarchical-collapse', an object keyed by lane id.
    Either may be absent: the component reads the second, and [Lanes] the
    first, with a fallback ([|| {}], [|| []]). *)
Record ViewState : Type := mkViewState {
  listCollapse : option (list (option bool));
  hierarchicalCollapse : option (list (string * bool))
}.

(** [arr[i]]: [undefined] out of range. *)
Definition arrayGet (arr : list (option bool)) (i : nat) : option bool :=
  match nth_error arr i with
  | Some v => v
  | None => None
  end.

(** [arr[i] = v]: the array grows to hold index [i], with holes in between. *)
Fixpoint arraySet (arr : list (option bool)) (i : nat) (v : option bool)
  : list (option bool) :=
  match i, arr with
  | O, [] => [v]
  | O, _ :: rest => v :: rest
  | S k, [] => None :: arraySet [] k v
  | S k, x :: rest => x :: arraySet rest k v
  end.

(** [obj[key]] *)
Fixpoint objGet (obj : list (string * bool)) (key : string) : option bool :=
  match obj with
  | [] => None
  | (k, v) :: rest => if String.eqb k key then Some v else objGet rest key
  end.

(** [{...obj, [key]: v}]: an existing key keeps its place. *)
Fixpoint objSet (obj : list (string * bool)) (key : string) (v : bool)
  : list (string * bool) :=
  match obj with
  | [] => [(key, v)]
  | (k, v') :: rest =>
      if String.eqb k key then (key, v) :: rest else (k, v') :: objSet rest key v
  end.

(** [view.getViewState('hierarchical-collapse') || {}] *)
Definition hierarchicalState (vs : ViewState) : list (string * bool) :=
  match hierarchicalCollapse vs with
  | Some o => o
  | None => []
  end.

(** The [$set] a toggle applies to [board.data.settings]. *)
Inductive SettingsPatch : Type :=
| SetListCollapse (v : list (option bool))
| SetHierarchicalCollapse (v : list (string * bool)).

(** What a toggle leaves: the view state after [setViewState], and the patch
    of the board it returns to [setState]. *)
Record Toggled : Type := mkToggled {
  viewAfter : ViewState;
  patch : SettingsPatch
}.

(** [[...view.getViewState('list-collapse')]] throws on a value that is not
    iterable: no fallback is written here. *)
Definition toggleIsCollapsed (vs : ViewState) (laneIndex : nat) : result Toggled :=
  match listCollapse vs with
  | None => Throw (TypeError "view.getViewState(...) is not iterable")
  | Some arr =>
      let collapseState :=
        arraySet arr laneIndex (Some (negb (truthy (arrayGet arr laneIndex)))) in
      Ok {| viewAfter := mkViewState (Some collapseState) (hierarchicalCollapse vs);
            patch := SetListCollapse collapseState |}
  end.

Definition toggleHierarchicalCollapse (vs : ViewState) (lane : Lane) (laneIndex : nat)
  : result Toggled :=
  if negb (isParentLane lane) then toggleIsCollapsed vs laneIndex
  else
    let hierarchicalCollapseState := hierarchicalState vs in
    let isCurrentlyCollapsed := truthy (objGet hierarchicalCollapseState (lane_id lane)) in
    let newHierarchicalState :=
      objSet hierarchicalCollapseState (lane_id lane) (negb isCurrentlyCollapsed) in
    Ok {| viewAfter := mkViewState (listCollapse vs) (Some newHierarchicalState);
          patch := SetHierarchicalCollapse newHierarchicalState |}.

Definition isHierarchicallyCollapsed (vs : ViewState) (lane : Lane) : bool :=
  if negb (isParentLane lane) then false
  else truthy (objGet (hierarchicalState vs) (lane_id lane)).

(** [handleKeyDown]: [None] when the key is left alone, otherwise the toggle
    made (the event is then also stopped). [onElement] is
    [e.target === elementRef.current]. *)
Definition handleKeyDown (vs : ViewState) (lane : Lane) (laneIndex : nat)
    (key : string) (onElement : bool) : result (option Toggled) :=
  if negb (isParentLane lane) then Ok None
  else if String.eqb key "ArrowLeft" && negb (isHierarchicallyCollapsed vs lane) then
    t <- toggleHierarchicalCollapse vs lane laneIndex ;; Ok (Some t)
  else if String.eqb key "ArrowRight" && isHierarchicallyCollapsed vs lane then
    t <- toggleHierarchicalCollapse vs lane laneIndex ;; Ok (Some t)
  else if (String.eqb key " " || String.eqb key "Enter") && onElement then
    t <- toggleHierarchicalCollapse vs lane laneIndex ;; Ok (Some t)
  else Ok None.

(** What [NestedContent] renders: the items, and the nested lanes when there
    are some and the current lane is not collapsed. *)
Record Rendered : Type := mkRendered {
  shownItems : list Item;
  shownLanes : option (list Lane)
}.

Definition nestedContent (vs : ViewState) (content : list (Child Lane)) (currentLane : Lane)
  : Rendered :=
  let items := itemsAmong content in
  let nestedLanes := lanesAmong content in
  {| shownItems := items;
     shownLanes :=
       if negb (isHierarchicallyCollapsed vs currentLane)
          && negb (Nat.eqb (length nestedLanes) 0)
       then Some nestedLanes else None |}.

(** The search context, when there is one: the query and the lanes it
    matched. *)
Record Search : Type := mkSearch {
  query : string;
  matched : Lane -> bool
}.

(** [view.useViewState('list-collapse') || []] *)
Definition listCollapseState (vs : ViewState) : list (option bool) :=
  match listCollapse vs with
  | Some arr => arr
  | None => []
  end.

(** The [isCollapsed] prop [Lanes] hands to the lane at position [i]. *)
Definition lanesIsCollapsed (search : option Search) (vs : ViewState) (lane : Lane)
    (i : nat) : bool :=
  let collapseState := listCollapseState vs in
  match search with
  | Some s =>
      if negb (String.eqb (query s) EmptyString) then
        negb (matched s lane) || truthy (arrayGet collapseState i)
      else truthy (arrayGet collapseState i)
  | None => truthy (arrayGet collapseState i)
  end.

(** What a lane renders below its header (line 326): nothing when
    [isCollapsed], otherwise [NestedContent] on its children. *)
Definition laneBody (isCollapsed : bool) (vs : ViewState) (lane : Lane) : option Rendered :=
  if isCollapsed then None else Some (nestedContent vs (lane_children lane) lane).

(** The same for the lane [Lanes] renders at position [i]. *)
Definition renderedLane (search : option Search) (vs : ViewState) (lane : Lane) (i : nat)
  : option Rendered :=
  laneBody (lanesIsCollapsed search vs lane i) vs lane.

(* ------------------------------------------------------------------ *)
(** ** A concrete environment and concrete documents

    The general theorems below hold for every [Env]. To run the embedding on
    actual inputs this module fixes one: plain stand-ins for the helpers, exact
    on the one-line titles used here (no line breaks to indent, no [<br>], no
    block ids, no moved tags or dates), and a line-based stand-in for the
    markdown parser that knows ATX headings, one-line task items, thematic
    breaks, paragraphs and a leading front-matter block. *)

Module Demo.

Definition leaf (ty : string) (s e : Z) (v : string) : Node :=
  mkNode ty (mkPosition s e) [] (Some v) None None None None None None None None None.

Definition branch (ty : string) (s e : Z) (ch : list Node) : Node :=
  mkNode ty (mkPosition s e) ch None None None None None None None None None None.

Definition headingNode (d : Z) (s e : Z) (ch : list Node) : Node :=
  mkNode "heading" (mkPosition s e) ch None None (Some d) None None None None None None None.

Definition taskItemNode (chk : bool) (c : string) (s e : Z) (ch : list Node) : Node :=
  mkNode "listItem" (mkPosition s e) ch None None None (Some chk) (Some c)
    None None None None None.

(** Content of a node: from the start of its first child to the end of its
    last one. *)
Definition contentBoundary (n : Node) : ContentBoundary :=
  match children n with
  | [] => mkBoundary (end_offset (position n)) (end_offset (position n))
  | c :: _ =>
      mkBoundary (start_offset (position c))
        (end_offset (position (last (children n) c)))
  end.

Definition appendBlockId (s : string) (item : Item) : string :=
  match blockId (item_data item) with
  | Some b => s +:+ " ^" +:+ b
  | None => s
  end.

Definition compareStrings (a b : string) : Z :=
  match String.compare a b with
  | Lt => -1
  | Eq => 0
  | Gt => 1
  end.

Definition isTaskField (k : string) : bool :=
  existsb (String.eqb k) ["due"; "scheduled"; "start"; "priority"]%string.

(** Finds the one bracketed form [[due:: value]]. *)
Definition extractDue (ttl : string) (_ : bool) : list InlineField :=
  match String.index 0 "[due:: " ttl with
  | None => []
  | Some i =>
      match String.index i "]" ttl with
      | None => []
      | Some j =>
          [mkInlineField "due" (String.substring (i + 7) (j - (i + 7)) ttl)
             (Z.of_nat i) (Z.of_nat (S j))]
      end
  end.

(** The lines of a text with the offset at which each starts. *)
Fixpoint linesFrom (s : string) (off lineStart : Z) (cur : string) : list (Z * string) :=
  match s with
  | EmptyString => [(lineStart, cur)]
  | String c rest =>
      if Ascii.eqb c (ascii_of_nat 10)
      then (lineStart, cur) :: linesFrom rest (off + 1) (off + 1) EmptyString
      else linesFrom rest (off + 1) lineStart (cur +:+ String c EmptyString)
  end.

Fixpoint countHashes (s : string) : Z :=
  match s with
  | String "#" rest => 1 + countHashes rest
  | _ => 0
  end.

(** The block one line stands for, if any. A box with no text after it is
    no task item: the line comes back as a plain bullet whose paragraph is the
    box itself. A lone [-] is a bullet without content. *)
Definition blockOfLine (line : Z * string) : option Node :=
  let (s, txt) := line in
  let e := s + strlen txt in
  let k := countHashes txt in
  if String.eqb txt EmptyString then None
  else if (1 <=? k) && (k <=? 6) && String.eqb (slice txt k (k + 1)) " " then
    Some (headingNode k s e [leaf "text" (s + k + 1) e (sliceFrom txt (k + 1))])
  else if startsWith txt "- [" && String.eqb (slice txt 4 6) "] " then
    let c := slice txt 3 4 in
    let body := sliceFrom txt 6 in
    if String.eqb body EmptyString then
      Some (branch "listItem" s e
              [branch "paragraph" (s + 2) (s + 5)
                 [leaf "text" (s + 2) (s + 5) (slice txt 2 5)]])
    else
      Some (taskItemNode (negb (String.eqb c " ")) c s e
              [branch "paragraph" (s + 6) e [leaf "text" (s + 6) e body]])
  else if String.eqb txt "-" then Some (branch "listItem" s e [])
  else if String.eqb txt "***" || String.eqb txt "---" then
    Some (branch "thematicBreak" s e [])
  else Some (branch "paragraph" s e [leaf "text" s e txt]).

(** Consecutive task items form one list. *)
Fixpoint groupItems (blocks : list (option Node)) (open : list Node) : list Node :=
  let close := match open with
               | [] => []
               | first :: _ =>
                   [branch "list" (start_offset (position first))
                      (end_offset (position (last open first))) open]
               end in
  match blocks with
  | [] => close
  | None :: rest => close ++ groupItems rest []
  | Some b :: rest =>
      if isType b "listItem" then groupItems rest (open ++ [b])
      else close ++ b :: groupItems rest []
  end.

Fixpoint dropFrontmatter (ls : list (Z * string)) : list (Z * string) :=
  match ls with
  | [] => []
  | (_, txt) :: rest => if String.eqb txt "---" then rest else dropFrontmatter rest
  end.

Definition parseDocument (md : string) : Node :=
  let ls := linesFrom md 0 0 EmptyString in
  let body := match ls with
              | (_, txt) :: rest => if String.eqb txt "---" then dropFrontmatter rest else ls
              | [] => []
              end in
  branch "root" 0 (strlen md) (groupItems (map blockOfLine body) []).

Definition env : Env :=
  {| moveTags := false;
     moveDates := false;
     moveTaskData := false;
     inlineMetadataPosition := "body";
     getNodeContentBoundary := contentBoundary;
     getStringFromBoundary := fun md b => slice md (cb_start b) (cb_end b);
     replaceBrs := fun s => s;
     dedentNewLines := fun s => s;
     indentNewLines := fun s => s;
     replaceNewLines := fun s => s;
     removeBlockId := fun s => s;
     addBlockId := appendBlockId;
     markRangeForDeletion := fun s _ => s;
     executeDeletion := fun s => s;
     preprocessTitle := fun s => s;
     extractInlineFields := extractDue;
     taskFields := isTaskField;
     defaultSort := compareStrings;
     parseLaneTitle := fun s => (s, None);
     laneTitleWithMaxItems := fun s _ => s;
     t_Archive := "Archive";
     t_Complete := "Complete";
     archiveString := "***";
     completeString := "**Complete**";
     settingsToCodeblock := fun _ => EmptyString;
     stringifyYaml := fun _ => EmptyString;
     filePath := "board.md";
     instanceId := fun k => repeatNat "i" (S k);
     parseFragment := parseDocument;
     hydrateItem := fun i => (i, false);
     getTaskStatusDone := "x" |}.

Definition lines (ls : list string) : string := join nl ls.

(** A document with a nested lane. *)
Definition nestedDoc : string :=
  lines ["## A"; EmptyString; "- [ ] x"; EmptyString; "### B"; EmptyString; "- [ ] y";
         EmptyString; "## C"; EmptyString]%string.

(** A document with one lane. *)
Definition oneLaneDoc : string := lines ["## A"; EmptyString; "- [ ] x"; EmptyString]%string.

(** An archive heading under a rule with no list after it. *)
Definition bareArchiveDoc : string :=
  lines ["## A"; EmptyString; "***"; EmptyString; "## Archive"; EmptyString]%string.

(** An archive heading under a rule with its list. *)
Definition archiveDoc : string :=
  lines ["## A"; EmptyString; "- [ ] x"; EmptyString; "***"; EmptyString; "## Archive";
         EmptyString; "- [x] old"; EmptyString]%string.

Definition parseBoard (md : string) : result Board :=
  astToUnhydratedBoard env [] [] (parseDocument md) md.

(** Unwrap a result that is [Ok]. *)
Definition get {A : Type} (default : A) (r : result A) : A :=
  match r with
  | Ok a => a
  | Throw _ => default
  end.

Definition emptyData : ItemData :=
  mkItemData None None " " EmptyString EmptyString EmptyString EmptyString
    emptyMetadata None.

Definition firstItem (md : string) : Node :=
  get (branch "root" 0 0 []) (firstListItem (parseDocument md)).

(** The item [- [ ] #b #a]; the stand-in parser does not split tags off, so
    the tree is written out. *)
Definition taggedMd : string := "- [ ] #b #a".

Definition taggedItem : Node :=
  taskItemNode false " " 0 11
    [branch "paragraph" 6 11
       [leaf "hashtag" 6 8 "b"; leaf "text" 8 9 " "; leaf "hashtag" 9 11 "a"]].

(** An item with a task field on its only line. *)
Definition dueMd : string := "- [ ] pay [due:: 1]".

Definition dueItem : Node := firstItem dueMd.

Definition dueData : ItemData := get emptyData (decomposeTitle env dueMd dueItem).




Definition nthNode (n : nat) (root : Node) : Node := nth n (children root) root.

Definition archiveRoot : Node := parseDocument archiveDoc.

Definition bareArchiveRoot : Node := parseDocument bareArchiveDoc.

(** An item whose display title is stale. *)
Definition staleItem : Item :=
  mkItem "stale" (mkItemData None (Some false) " " EmptyString "x" EmptyString
                    EmptyString emptyMetadata None).

Definition plainLane (i ttl : string) (lvl : Z) (parent : option string)
    (ch : list (Child Lane)) : Lane :=
  mkLane i (mkLaneData (Some false) ttl None (Some lvl) (Some false) parent) ch.

Definition boardOf (top : list Lane) : Board :=
  mkBoard "board.md" top (mkBoardData false [] [] [] []).


Definition unlevelledLane : Lane :=
  mkLane "a" (mkLaneData (Some false) "A" None None (Some false) None) [].

Definition levelZeroLane : Lane := plainLane "a" "A" 0 None [].


(** A board whose only item sits in a nested lane. *)
Definition nestedBoard : Board :=
  boardOf [plainLane "a" "A" 2 None
             [ChildLane (plainLane "b" "B" 3 (Some "a"%string) [ChildItem staleItem])]].

(** A board with an item directly under a top-level lane and one nested. *)
Definition mixedBoard : Board :=
  boardOf [plainLane "a" "A" 2 None
             [ChildItem staleItem;
              ChildLane (plainLane "b" "B" 3 (Some "a"%string) [ChildItem staleItem])]].

(** A lane with an item and a nested lane, and the view state of a board on
    which nothing was ever collapsed. *)
Definition parentLane : Lane :=
  plainLane "a" "A" 2 None
    [ChildItem staleItem;
     ChildLane (plainLane "b" "B" 3 (Some "a"%string) [ChildItem staleItem])].

Definition freshView : ViewState := mkViewState (Some []) None.

(** A bullet without content, alone and under a heading. *)
Definition blankMd : string := "-".

Definition blankNode : Node := firstItem blankMd.

Definition blankItemDoc : string := lines ["## A"; EmptyString; "-"; EmptyString]%string.

(** The item [- [ ] a @{2024-01-01} b @{2024-02-02}], its two dates written
    out as the date nodes the parser extension makes of them. *)
Definition twoDatesMd : string := "- [ ] a @{2024-01-01} b @{2024-02-02}".

Definition dateNode (s e : Z) (v : string) : Node :=
  mkNode "date" (mkPosition s e) [] None None None None None (Some v) None None None None.

Definition twoDatesItem : Node :=
  taskItemNode false " " 0 37
    [branch "paragraph" 6 37
       [leaf "text" 6 8 "a "; dateNode 8 21 "2024-01-01"; leaf "text" 21 24 " b ";
        dateNode 24 37 "2024-02-02"]].

End Demo.

(* ------------------------------------------------------------------ *)
(** ** Vocabulary of the properties *)

(** The tag one visited node contributes: a hashtag outside fenced code. *)
Definition tagOf (np : Node * option Node) : list string :=
  let (node, parent) := np in
  if isType node "hashtag" then
    match inFencedCode parent with
    | Ok false => ["#" +:+ toStr (value node)]%string
    | _ => []
    end
  else [].

(** The tags of a list item in the order of the source text. *)
Definition hashtagsOf (item : Node) : list string :=
  flat_map tagOf (preorder None item).

(** "Ascending by the comparator": no element is followed by a smaller one. *)
Definition ascending (cmp : string -> string -> Z) (l : list string) : Prop :=
  Sorted (fun a b => cmp a b <= 0) l.

(** A comparator that never ranks two strings each above the other. *)
Definition consistentComparator (cmp : string -> string -> Z) : Prop :=
  forall a b, cmp a b > 0 -> cmp b a <= 0.

(** What one child contributes to the lines of its lane. *)
Definition childToMd (E : Env) (c : Child Lane) : string :=
  match c with
  | ChildItem i => itemToMd E i
  | ChildLane l => laneToMd E l
  end.


(** Concatenation of a list of texts. *)
Definition concatStrings (l : list string) : string :=
  fold_right String.append EmptyString l.

(** A lane sits properly under its owner: deeper level, and a [parentId] that
    names the owner. *)
Definition nestedUnder (P L : Lane) : Prop :=
  (exists lp ll, level (lane_data P) = Some lp /\ level (lane_data L) = Some ll /\ ll > lp)
  /\ parentId (lane_data L) = Some (lane_id P).

(** The hierarchy invariant on a whole subtree. *)
Inductive hierarchyOk : Lane -> Prop :=
| hierarchyOk_intro : forall P,
    (forall L, In (ChildLane L) (lane_children P) -> nestedUnder P L /\ hierarchyOk L) ->
    hierarchyOk P.

(** The list found after the heading at [index], if any. *)
Definition listAfter (E : Env) (siblings : list Node) (index : nat) : option Node :=
  fst (getNextOfType siblings index "list" (listScanContinue E) false).

(** The heading at [index] opens the archive section: it matches the archive
    pattern and a list follows it. *)
Definition opensArchive (E : Env) (siblings : list Node) (index : nat) (child : Node) : bool :=
  isArchiveLane E child siblings index && isSome (listAfter E siblings index).

(** The block at [index] is a heading that opens the archive section. *)
Definition archiveHeading (E : Env) (siblings : list Node) (index : nat) (child : Node)
  : Prop :=
  nth_error siblings index = Some child
  /\ isType child "heading" = true
  /\ opensArchive E siblings index child = true.

(** The block at [index] is any other heading. *)
Definition laneHeading (E : Env) (siblings : list Node) (index : nat) (child : Node)
  : Prop :=
  nth_error siblings index = Some child
  /\ isType child "heading" = true
  /\ opensArchive E siblings index child = false.

(** Lane data that carries the title and the level of a heading. *)
Definition laneOfHeading (E : Env) (md : string) (child : Node) (d : LaneData) : Prop :=
  l_title d =
    fst (parseLaneTitle E (getStringFromBoundary E md (getNodeContentBoundary E child)))
  /\ level d = Some (orOne (depth child)).

(** The invariant on the lane objects while the board is being assembled:
    a cell refers only to cells allocated after it, and each cell it refers to
    lies properly under it. *)
Definition heapOk (h : list LaneCell) : Prop :=
  forall a c b,
    nth_error h a = Some c -> In (ChildLane b) (cell_children c) ->
    (a < b)%nat
    /\ exists cb lp lb,
         nth_error h b = Some cb
         /\ level (cell_data c) = Some lp
         /\ level (cell_data cb) = Some lb
         /\ lb > lp
         /\ parentId (cell_data cb) = Some (cell_id c).

(** The invariant on the variables of [astToUnhydratedBoard]: besides
    [heapOk], the top-level lanes have no parent and every stack entry
    carries the level of the lane it holds. *)
Definition assemblyOk (st : Assembly) : Prop :=
  heapOk (heap st)
  /\ (forall a, In a (lanes st) ->
         exists c, nth_error (heap st) a = Some c /\ parentId (cell_data c) = None)
  /\ (forall a l, In (a, l) (laneStack st) ->
         exists c, nth_error (heap st) a = Some c /\ level (cell_data c) = Some l).

(** Every cell of [h] is still there in [h'], with its id and data. *)
Definition extends (h h' : list LaneCell) : Prop :=
  forall a c, nth_error h a = Some c ->
    exists c', nth_error h' a = Some c'
               /\ cell_id c' = cell_id c /\ cell_data c' = cell_data c.

(** The list items the block at [index] sends to the archive. *)
Definition archiveSourceAt (E : Env) (siblings : list Node) (index : nat) (child : Node)
  : list Node :=
  if isType child "heading" && opensArchive E siblings index child then
    match listAfter E siblings index with
    | Some l => children l
    | None => []
    end
  else [].

Fixpoint archiveSourcesFrom (E : Env) (siblings : list Node) (index : nat)
    (rest : list Node) : list Node :=
  match rest with
  | [] => []
  | child :: rest' =>
      archiveSourceAt E siblings index child
        ++ archiveSourcesFrom E siblings (S index) rest'
  end.

(** The list items of a document that belong to its archive, in document
    order. *)
Definition archiveSources (E : Env) (siblings : list Node) : list Node :=
  archiveSourcesFrom E siblings 0 siblings.

(** The items of every list among the blocks decompose. *)
Definition itemsDecompose (E : Env) (md : string) (siblings : list Node) : Prop :=
  forall l li, In l siblings -> isType l "list" = true -> In li (children l) ->
               exists d, listItemToItemData E md li = Ok d.

(** Every lane object is held by the [lanes] array or by another lane. *)
Definition linked (h : list LaneCell) (top : list nat) : Prop :=
  forall a, (a < length h)%nat ->
    In a top
    \/ exists p cp, nth_error h p = Some cp /\ In (ChildLane a) (cell_children cp).

(** What the assembler has done once the blocks before [index] are behind
    it: the lane objects are exactly the lanes of the lane headings met, and
    the archive holds exactly the items of the lists of the archive headings
    met. *)
Definition tracks (E : Env) (siblings : list Node) (md : string) (index : nat)
    (st : Assembly) : Prop :=
  linked (heap st) (lanes st)
  /\ (forall a c, nth_error (heap st) a = Some c ->
        exists i child, (i < index)%nat /\ laneHeading E siblings i child
                        /\ laneOfHeading E md child (cell_data c))
  /\ (forall i child, (i < index)%nat -> laneHeading E siblings i child ->
        exists a c, nth_error (heap st) a = Some c
                    /\ laneOfHeading E md child (cell_data c))
  /\ (forall i child, (i < index)%nat -> archiveHeading E siblings i child ->
        exists l, listAfter E siblings i = Some l
          /\ forall li, In li (children l) ->
               exists it, In it (archiveItems st)
                          /\ listItemToItemData E md li = Ok (item_data it))
  /\ (forall it, In it (archiveItems st) ->
        exists i child l li,
          (i < index)%nat /\ archiveHeading E siblings i child
          /\ listAfter E siblings i = Some l /\ In li (children l)
          /\ listItemToItemData E md li = Ok (item_data it)).

(** The lanes of a subtree, itself included. *)
Fixpoint lanesIn (l : Lane) : list Lane :=
  match l with
  | mkLane _ _ ch =>
      l :: (fix all (cs : list (Child Lane)) : list Lane :=
              match cs with
              | [] => []
              | ChildItem _ :: rest => all rest
              | ChildLane c :: rest => lanesIn c ++ all rest
              end) ch
  end.

(** The lanes below one child. *)
Definition childLanes (c : Child Lane) : list Lane :=
  match c with
  | ChildItem _ => []
  | ChildLane l => lanesIn l
  end.

(** The lanes of a board, nested ones included. *)
Definition boardLanes (b : Board) : list Lane := flat_map lanesIn (board_children b).

(** The items of a subtree. *)
Fixpoint itemsIn (l : Lane) : list Item :=
  match l with
  | mkLane _ _ ch =>
      (fix all (cs : list (Child Lane)) : list Item :=
         match cs with
         | [] => []
         | ChildItem i :: rest => i :: all rest
         | ChildLane c :: rest => itemsIn c ++ all rest
         end) ch
  end.

(** *** The item decomposer, part by part *)

(** The last element of a list, if any. *)
Fixpoint lastOpt {A : Type} (l : list A) : option A :=
  match l with
  | [] => None
  | [x] => Some x
  | _ :: rest => lastOpt rest
  end.

(** What the second visitor assigns to [itemData] at one node; it reads
    neither the settings nor the title. *)
Definition dataStep (d : ItemData) (np : Node * option Node) : result ItemData :=
  let (node, parent) := np in
  if isType node "paragraph" then Ok d
  else if isType node "blockid" then Ok (setBlockId d (value node))
  else if isType node "hashtag" then
    fenced <- inFencedCode parent ;;
    if negb fenced then
      Ok (setMetadata d (pushTag (metadata d) ("#" +:+ toStr (value node))))
    else Ok d
  else if isType node "date" || isType node "dateLink" then
    Ok (setMetadata d (setDateStr (metadata d) (date node)))
  else if isType node "time" then
    Ok (setMetadata d (setTimeStr (metadata d) (time node)))
  else if isType node "embedWikilink" then
    Ok (setMetadata d (setFileAccessor (metadata d) (fileAccessor node)))
  else if isType node "wikilink" then
    Ok (setMetadata d (setFileFields (metadata d) node))
  else if isType node "link" && isSome (fileAccessor node) then
    Ok (setMetadata d (setFileFields (metadata d) node))
  else if isType node "embedLink" then
    Ok (setMetadata d (setFileAccessor (metadata d) (fileAccessor node)))
  else Ok d.

(** Whether the second visitor marks the range of a node for deletion from
    the title: a hashtag outside fenced code when tags are moved, a date, date
    link or time when dates are moved. *)
Definition marksTitle (E : Env) (np : Node * option Node) : bool :=
  let (node, parent) := np in
  if isType node "hashtag" then
    moveTags E && match inFencedCode parent with
                  | Ok false => true
                  | _ => false
                  end
  else (isType node "date" || isType node "dateLink" || isType node "time")
       && moveDates E.

(** Where the content of a list item starts. *)
Definition itemStart (E : Env) (item : Node) : Z :=
  match children item with
  | [] => 0
  | startNode :: _ =>
      if isType startNode "paragraph"
      then cb_start (getNodeContentBoundary E startNode)
      else start_offset (position startNode)
  end.

(** Where it ends. *)
Definition itemEnd (E : Env) (item : Node) : Z :=
  match children item with
  | [] => 0
  | startNode :: _ =>
      let endNode := last (children item) startNode in
      if isType endNode "paragraph"
      then cb_end (getNodeContentBoundary E endNode)
      else end_offset (position endNode)
  end.

(** The content of a list item: the text between the two, or nothing when
    that text is just the checkbox. *)
Definition itemContent (E : Env) (md : string) (item : Node) : string :=
  let raw := getStringFromBoundary E md (mkBoundary (itemStart E item) (itemEnd E item)) in
  let marker := if truthy (checked item) then toStr (checkChar item) else " "%string in
  if String.eqb raw ("[" +:+ marker +:+ "]") then EmptyString else raw.

(** The ranges marked for deletion, in document order, relative to the start
    of the content. *)
Definition markedRanges (E : Env) (item : Node) : list ContentBoundary :=
  map (fun np => relativeRange (itemStart E item) (fst np))
    (filter (marksTitle E) (preorder None item)).

(** The last node of an item, in document order, that satisfies [p]. *)
Definition lastNode (p : Node -> bool) (item : Node) : option Node :=
  lastOpt (filter p (map fst (preorder None item))).

Definition isDateNode (n : Node) : bool := isType n "date" || isType n "dateLink".

Definition isTimeNode (n : Node) : bool := isType n "time".

Definition isBlockIdNode (n : Node) : bool := isType n "blockid".

(** The same collaborators with other values of the four settings the
    decomposer reads. *)
Definition withMoveSettings (E : Env) (tags_ dates_ taskData_ : bool) (position_ : string)
  : Env :=
  {| moveTags := tags_;
     moveDates := dates_;
     moveTaskData := taskData_;
     inlineMetadataPosition := position_;
     getNodeContentBoundary := getNodeContentBoundary E;
     getStringFromBoundary := getStringFromBoundary E;
     replaceBrs := replaceBrs E;
     dedentNewLines := dedentNewLines E;
     indentNewLines := indentNewLines E;
     replaceNewLines := replaceNewLines E;
     removeBlockId := removeBlockId E;
     addBlockId := addBlockId E;
     markRangeForDeletion := markRangeForDeletion E;
     executeDeletion := executeDeletion E;
     preprocessTitle := preprocessTitle E;
     extractInlineFields := extractInlineFields E;
     taskFields := taskFields E;
     defaultSort := defaultSort E;
     parseLaneTitle := parseLaneTitle E;
     laneTitleWithMaxItems := laneTitleWithMaxItems E;
     t_Archive := t_Archive E;
     t_Complete := t_Complete E;
     archiveString := archiveString E;
     completeString := completeString E;
     settingsToCodeblock := settingsToCodeblock E;
     stringifyYaml := stringifyYaml E;
     filePath := filePath E;
     instanceId := instanceId E;
     parseFragment := parseFragment E;
     hydrateItem := hydrateItem E;
     getTaskStatusDone := getTaskStatusDone E |}.

(** Two item data that differ at most in the display title and in the inline
    fields read from it. *)
Definition sameButTitle (d1 d2 : ItemData) : Prop :=
  blockId d1 = blockId d2
  /\ d_checked d1 = d_checked d2
  /\ d_checkChar d1 = d_checkChar d2
  /\ titleRaw d1 = titleRaw d2
  /\ titleSearch d1 = titleSearch d2
  /\ titleSearchRaw d1 = titleSearchRaw d2
  /\ forceEditMode d1 = forceEditMode d2
  /\ dateStr (metadata d1) = dateStr (metadata d2)
  /\ timeStr (metadata d1) = timeStr (metadata d2)
  /\ tags (metadata d1) = tags (metadata d2)
  /\ md_fileAccessor (metadata d1) = md_fileAccessor (metadata d2)
  /\ md_fileMetadata (metadata d1) = md_fileMetadata (metadata d2)
  /\ md_fileMetadataOrder (metadata d1) = md_fileMetadataOrder (metadata d2).

(** Everything the decomposer computes before the inline-field pass but the
    display title: the search text, then the assignments of the second
    visitor. *)
Definition coreData (E : Env) (md : string) (item : Node) : result ItemData :=
  match children item with
  | [] => Throw (TypeError "startNode is undefined")
  | _ :: _ =>
      titleSearch_ <- foldM searchStep (preorder None item) EmptyString ;;
      foldM dataStep (preorder None item)
        {| titleRaw :=
             removeBlockId E (dedentNewLines E (replaceBrs E (itemContent E md item)));
           blockId := None;
           title := EmptyString;
           titleSearch := titleSearch_;
           titleSearchRaw := titleSearch_;
           metadata := emptyMetadata;
           d_checked := checked item;
           d_checkChar :=
             if truthy (checked item)
             then (if truthyStr (checkChar item) then toStr (checkChar item)
                   else " "%string)
             else " "%string;
           forceEditMode := None |}
  end.

(** The display title as the second visitor and line 196 leave it. *)
Definition markedTitle (E : Env) (md : string) (item : Node) : string :=
  preprocessTitle E
    (dedentNewLines E
       (executeDeletion E
          (fold_left (markRangeForDeletion E) (markedRanges E item)
             (itemContent E md item)))).

(** *** The order of the children of a lane *)

(** No item comes after a lane. *)
Fixpoint itemsFirst {L : Type} (cs : list (Child L)) : bool :=
  match cs with
  | [] => true
  | ChildItem _ :: rest => itemsFirst rest
  | ChildLane _ :: rest => forallb isLane rest
  end.

(** The lanes a cell refers to, in order. *)
Fixpoint laneRefs (cs : list (Child nat)) : list nat :=
  match cs with
  | [] => []
  | ChildLane b :: rest => b :: laneRefs rest
  | ChildItem _ :: rest => laneRefs rest
  end.

(** The level of the lane object at an address. *)
Definition levelAt (h : list LaneCell) (a : nat) : option Z :=
  match nth_error h a with
  | Some c => level (cell_data c)
  | None => None
  end.

(** Both levels are set and the second is not deeper than the first. *)
Definition notDeeper (a b : option Z) : Prop :=
  exists x y, a = Some x /\ b = Some y /\ y <= x.

(** Lanes in document order whose levels never grow from one to the next. *)
Definition levelsDescend (ls : list Lane) : Prop :=
  Sorted (fun P Q => notDeeper (level (lane_data P)) (level (lane_data Q))) ls.

(** The same for lane objects. *)
Definition refsDescend (h : list LaneCell) (refs : list nat) : Prop :=
  Sorted (fun a b => notDeeper (levelAt h a) (levelAt h b)) refs.

(** The last lane a lane object refers to. *)
Definition lastLaneRef (h : list LaneCell) (a : nat) : option nat :=
  match nth_error h a with
  | Some c => lastOpt (laneRefs (cell_children c))
  | None => None
  end.

(** Each stack entry is the last lane child of the entry below it. *)
Fixpoint chainOk (h : list LaneCell) (stack : list (nat * Z)) : Prop :=
  match stack with
  | (q, _) :: (((p, _) :: _) as rest) => lastLaneRef h p = Some q /\ chainOk h rest
  | _ => True
  end.

(** The invariant behind the order of children: in every lane object items
    come first and the levels of the lanes it holds never grow; the levels of
    the top-level lanes never grow; the stack is the chain of last lane
    children that ends in the last top-level lane, and its top holds no lane
    yet. *)
Definition orderOk (st : Assembly) : Prop :=
  (forall a c, nth_error (heap st) a = Some c ->
     itemsFirst (cell_children c) = true
     /\ refsDescend (heap st) (laneRefs (cell_children c)))
  /\ refsDescend (heap st) (lanes st)
  /\ chainOk (heap st) (laneStack st)
  /\ match laneStack st with
     | (t_, _) :: _ => lastLaneRef (heap st) t_ = None
     | [] => True
     end
  /\ option_map fst (lastOpt (laneStack st)) = lastOpt (lanes st).

(** The items among the children of a lane or of a lane object. *)
Fixpoint childItems {L : Type} (cs : list (Child L)) : list Item :=
  match cs with
  | [] => []
  | ChildItem i :: rest => i :: childItems rest
  | ChildLane _ :: rest => childItems rest
  end.

(** *** Where the contents of a lane come from *)

(** The flag the scan for the list after the heading at [index] leaves in
    [shouldMarkItemsComplete]. *)
Definition completeAfter (E : Env) (siblings : list Node) (index : nat) : bool :=
  snd (getNextOfType siblings index "list" (listScanContinue E) false).

(** The list items found after the heading at [index]: none when no list is
    found. *)
Definition listItemsAfter (E : Env) (siblings : list Node) (index : nat) : list Node :=
  match listAfter E siblings index with
  | Some l => children l
  | None => []
  end.

(** The lane data and the items read from the heading at [index]: the data
    are those of the heading but for [parentId], the items those of the list
    found after it, in order. *)
Definition laneFromHeading (E : Env) (siblings : list Node) (md : string) (index : nat)
    (child : Node) (d : LaneData) (items : list Item) : Prop :=
  setParentId d None = laneDataOf E md child (completeAfter E siblings index)
  /\ Forall2 (fun li it => listItemToItemData E md li = Ok (item_data it))
       (listItemsAfter E siblings index) items.

(** A block the scan for a list steps over: no list, no heading, no paragraph
    that opens the settings block. *)
Definition steppedOver (E : Env) (n : Node) : bool :=
  negb (isType n "list") && negb (isType n "heading")
  && negb (isType n "paragraph" && startsWith (toString true n) "%% kanban:settings").

(** A paragraph that marks the lane complete. *)
Definition completeMarker (E : Env) (n : Node) : bool :=
  steppedOver E n && isType n "paragraph" && String.eqb (toString true n) (t_Complete E).

(** *** The lane component *)

(** The toggle a lane with nested lanes makes. *)
Definition hierarchicalToggled (vs : ViewState) (lane : Lane) : Toggled :=
  let newHierarchicalState :=
    objSet (hierarchicalState vs) (lane_id lane)
      (negb (truthy (objGet (hierarchicalState vs) (lane_id lane)))) in
  {| viewAfter := mkViewState (listCollapse vs) (Some newHierarchicalState);
     patch := SetHierarchicalCollapse newHierarchicalState |}.

(** The view state a key press leaves: the one the toggle wrote, or the old
    one when the key is left alone. *)
Definition afterKey (vs : ViewState) (lane : Lane) (laneIndex : nat) (key : string)
    (onElement : bool) : ViewState :=
  match handleKeyDown vs lane laneIndex key onElement with
  | Ok (Some t) => viewAfter t
  | _ => vs
  end.

(** *** The lanes in document order *)

(** The addresses of the lane objects below the one at [a], itself first, in
    the order a depth-first walk through the children meets them. The fuel
    bounds the depth followed, as in [reify]. *)
Fixpoint flatten (fuel : nat) (h : list LaneCell) (a : nat) : list nat :=
  match fuel with
  | O => []
  | S f =>
      match nth_error h a with
      | None => []
      | Some c => a :: flat_map (flatten f h) (laneRefs (cell_children c))
      end
  end.

(** The invariant behind the order of the lanes: the walk from a lane on the
    stack meets every lane object allocated after it, in the order of
    allocation, and the walk through the top-level lanes meets all lane
    objects in the order of allocation. *)
Definition spineOk (st : Assembly) : Prop :=
  (forall q ql f, In (q, ql) (laneStack st) -> (length (heap st) <= q + f)%nat ->
     flatten f (heap st) q = seq q (length (heap st) - q))
  /\ (forall f, (length (heap st) <= f)%nat ->
        flat_map (flatten f (heap st)) (lanes st) = seq 0 (length (heap st))).

(** What a lane object holds besides its nested lanes, and the same of a
    lane of the tree. *)
Definition cellView (c : LaneCell) : string * LaneData * list Item :=
  (cell_id c, cell_data c, childItems (cell_children c)).

Definition laneView (L : Lane) : string * LaneData * list Item :=
  (lane_id L, lane_data L, getNestedItems L).

Definition viewAt (h : list LaneCell) (a : nat) : option (string * LaneData * list Item) :=
  option_map cellView (nth_error h a).

(** The lane heading the block at [index] is, if it is one. *)
Definition laneHeadingAt (E : Env) (siblings : list Node) (index : nat) (child : Node)
  : list (nat * Node) :=
  if isType child "heading" && negb (opensArchive E siblings index child)
  then [(index, child)] else [].

Fixpoint laneHeadingsFrom (E : Env) (siblings : list Node) (index : nat)
    (rest : list Node) : list (nat * Node) :=
  match rest with
  | [] => []
  | child :: rest' =>
      laneHeadingAt E siblings index child ++ laneHeadingsFrom E siblings (S index) rest'
  end.

(** The lane headings of a document with their positions, in document
    order. *)
Definition laneHeadings (E : Env) (siblings : list Node) : list (nat * Node) :=
  laneHeadingsFrom E siblings 0 siblings.

(** A view holds what was read from the heading [hd]. *)
Definition viewOfHeading (E : Env) (siblings : list Node) (md : string)
    (hd : nat * Node) (v : string * LaneData * list Item) : Prop :=
  laneFromHeading E siblings md (fst hd) (snd hd) (snd (fst v)) (snd v).

(** The ids of a view, of the lanes of a board and of a whole board: each
    lane's id followed by the ids of its items, the lanes in the order of a
    depth-first walk, then the ids of the archived items. *)
Definition viewIds (v : string * LaneData * list Item) : list string :=
  fst (fst v) :: map item_id (snd v).

Definition boardIds (b : Board) : list string :=
  flat_map viewIds (map laneView (boardLanes b))
    ++ map item_id (archive (board_data b)).

(** The ids held by the lane objects and the archive while the board is
    being assembled. *)
Definition assemblyIds (st : Assembly) : list string :=
  flat_map viewIds (map cellView (heap st)) ++ map item_id (archiveItems st).

(** The heading line the serializer writes for the lane read from the
    heading [child]. *)
Definition writtenHeading (E : Env) (md : string) (child : Node) : string :=
  let parsed :=
    parseLaneTitle E (getStringFromBoundary E md (getNodeContentBoundary E child)) in
  repeatNat "#" (Z.to_nat (Z.max 1 (orOne (depth child) + 1))) +:+ " "
    +:+ replaceNewLines E (laneTitleWithMaxItems E (fst parsed) (snd parsed)).

(* ------------------------------------------------------------------ *)
(** * Properties *)

(** ** The exception monad *)

Lemma bind_Ok_inv {A B : Type} (r : result A) (k : A -> result B) (b : B) :
  bind r k = Ok b -> exists a, r = Ok a /\ k a = Ok b.
Proof.
  destruct r as [a|e]; simpl; intros H; [eauto | discriminate].
Qed.

Ltac bind_inv H :=
  let a := fresh "a" in
  let Ha := fresh "Ha" in
  apply bind_Ok_inv in H; destruct H as (a & Ha & H).

Lemma mapM_Forall2 {A B : Type} (f : A -> result B) (xs : list A) (ys : list B) :
  mapM f xs = Ok ys -> Forall2 (fun x y => f x = Ok y) xs ys.
Proof.
  revert ys; induction xs as [|x xs IH]; simpl; intros ys H.
  - injection H as <-. constructor.
  - bind_inv H. bind_inv H. injection H as <-. constructor; auto.
Qed.

Lemma mapM_total {A B : Type} (f : A -> result B) (xs : list A) :
  (forall x, In x xs -> exists y, f x = Ok y) -> exists ys, mapM f xs = Ok ys.
Proof.
  induction xs as [|x xs IH]; simpl; intros H; [eauto|].
  destruct (H x (or_introl eq_refl)) as [y ->]. simpl.
  destruct IH as [ys ->]; [intros; apply H; auto|]. simpl. eauto.
Qed.


Lemma foldM_total {A S : Type} (f : S -> A -> result S) (xs : list A) :
  (forall s x, In x xs -> exists s', f s x = Ok s') ->
  forall s, exists s', foldM f xs s = Ok s'.
Proof.
  induction xs as [|x xs IH]; simpl; intros H s; [eauto|].
  destruct (H s x (or_introl eq_refl)) as [s1 ->]. simpl.
  apply IH. intros; apply H; auto.
Qed.

(** ** Induction on syntax trees and on lanes *)

Lemma Node_induction (P : Node -> Prop) :
  (forall n, Forall P (children n) -> P n) -> forall n, P n.
Proof.
  intros step. fix IH 1. intros n. apply step.
  destruct n as [ty pos ch v a d c cc dt tm fa fm fo]. simpl.
  induction ch as [|c0 rest IHrest]; constructor; [apply IH | exact IHrest].
Qed.

Lemma Lane_induction (P : Lane -> Prop) :
  (forall l, (forall c, In (ChildLane c) (lane_children l) -> P c) -> P l) ->
  forall l, P l.
Proof.
  intros step. fix IH 1. intros l. apply step.
  destruct l as [i d ch]. simpl.
  induction ch as [|c0 rest IHrest]; intros c Hin; [contradiction|].
  destruct c0 as [it | c1].
  - destruct Hin as [Heq | Hin]; [discriminate | apply IHrest; exact Hin].
  - destruct Hin as [Heq | Hin]; [| apply IHrest; exact Hin].
    replace c with c1 by congruence. apply IH.
Qed.

Lemma preorder_unfold (parent : option Node) (n : Node) :
  preorder parent n = (n, parent) :: flat_map (preorder (Some n)) (children n).
Proof.
  destruct n as [ty pos ch v a d c cc dt tm fa fm fo].
  reflexivity.
Qed.

Lemma preorder_has_parent (n : Node) :
  forall p, Forall (fun np => snd np <> None) (preorder (Some p) n).
Proof.
  induction n as [n IH] using Node_induction. intros p.
  rewrite preorder_unfold. constructor; [simpl; discriminate|].
  induction IH as [|c rest Hc _ IHrest]; simpl; [constructor|].
  apply Forall_app. split; [apply Hc | exact IHrest].
Qed.

Lemma preorder_root (item : Node) :
  exists rest, preorder None item = (item, None) :: rest
               /\ Forall (fun np => snd np <> None) rest.
Proof.
  rewrite preorder_unfold. eexists; split; [reflexivity|].
  induction (children item) as [|c rest IH]; simpl; [constructor|].
  apply Forall_app. split; [apply preorder_has_parent | exact IH].
Qed.

(** ** The item decomposer *)

Section DecomposeFacts.
Variable E : Env.

Lemma inFencedCode_parent (p : Node) : exists b, inFencedCode (Some p) = Ok b.
Proof.
  unfold inFencedCode. destruct (children p) as [|c rest]; [eauto|].
  destruct (value c); eauto.
Qed.

Lemma searchStep_returns (s : string) (n : Node) (p : option Node) :
  p <> None \/ type n = "listItem"%string ->
  exists s', searchStep s (n, p) = Ok s'.
Proof.
  intros H. unfold searchStep.
  destruct (isSearchType n); simpl; [|eauto].
  destruct (isType n "hashtag") eqn:Hh; [|eauto].
  destruct p as [p|].
  - destruct (inFencedCode_parent p) as [b ->]. simpl. destruct b; simpl; eauto.
  - destruct H as [H|H]; [congruence|].
    unfold isType in Hh. rewrite H in Hh. discriminate.
Qed.

Lemma metadataStep_returns (start : Z) (st : VisitState) (n : Node) (p : option Node) :
  p <> None \/ type n = "listItem"%string ->
  exists st', metadataStep E start st (n, p) = Ok st'.
Proof.
  intros H. unfold metadataStep. destruct st as [d ttl].
  destruct (isType n "paragraph"); [eauto|].
  destruct (isType n "blockid"); [eauto|].
  destruct (isType n "hashtag") eqn:Hh.
  - destruct p as [p|].
    + destruct (inFencedCode_parent p) as [b ->]. simpl. destruct b; simpl; eauto.
    + destruct H as [H|H]; [congruence|].
      unfold isType in Hh. rewrite H in Hh. discriminate.
  - repeat match goal with
           | |- context [if ?c then _ else _] => destruct c
           end; eauto.
Qed.

(** What one turn of the second visitor leaves alone, and what it adds. *)
Lemma metadataStep_spec (start : Z) (d d' : ItemData) (t t' : string)
    (np : Node * option Node) :
  metadataStep E start (d, t) np = Ok (d', t') ->
  d_checked d' = d_checked d
  /\ d_checkChar d' = d_checkChar d
  /\ inlineMetadata (metadata d') = inlineMetadata (metadata d)
  /\ tags (metadata d') = tags (metadata d) ++ tagOf np.
Proof.
  unfold metadataStep, tagOf. destruct np as [n p]. unfold isType.
  destruct (String.eqb_spec (type n) "paragraph") as [e|_].
  { rewrite e. simpl. intros H. injection H as <- <-. rewrite app_nil_r. auto. }
  destruct (String.eqb_spec (type n) "blockid") as [e|_].
  { rewrite e. simpl. intros H. injection H as <- <-. simpl. rewrite app_nil_r. auto. }
  destruct (String.eqb (type n) "hashtag").
  { destruct (inFencedCode p) as [[|]|e]; simpl; intros H; try discriminate;
      injection H as <- <-; simpl; rewrite ?app_nil_r; auto. }
  repeat match goal with
         | |- context [if ?c then _ else _] => destruct c
         end; intros H; injection H as <- <-; simpl; rewrite app_nil_r; auto.
Qed.

Lemma metadataFold_spec (start : Z) (xs : list (Node * option Node)) :
  forall d t d' t',
    foldM (metadataStep E start) xs (d, t) = Ok (d', t') ->
    d_checked d' = d_checked d
    /\ d_checkChar d' = d_checkChar d
    /\ inlineMetadata (metadata d') = inlineMetadata (metadata d)
    /\ tags (metadata d') = tags (metadata d) ++ flat_map tagOf xs.
Proof.
  induction xs as [|x xs IH]; simpl; intros d t d' t' H.
  - injection H as <- <-. rewrite app_nil_r. auto.
  - bind_inv H. destruct a as [d1 t1].
    apply metadataStep_spec in Ha. apply IH in H.
    destruct Ha as (A1 & A2 & A3 & A4), H as (B1 & B2 & B3 & B4).
    rewrite B1, B2, B3, B4, A1, A2, A3, A4, app_assoc. auto.
Qed.

(** The state of the item data when its title has just been assigned. *)
Lemma decomposeTitle_spec (md : string) (item : Node) (d : ItemData) :
  decomposeTitle E md item = Ok d ->
  d_checked d = checked item
  /\ d_checkChar d =
       (if truthy (checked item)
        then (if truthyStr (checkChar item) then toStr (checkChar item) else " "%string)
        else " "%string)
  /\ inlineMetadata (metadata d) = None
  /\ tags (metadata d) = hashtagsOf item.
Proof.
  unfold decomposeTitle, hashtagsOf.
  destruct (children item) as [|startNode rest]; [discriminate|].
  intros H. bind_inv H. bind_inv H. injection H as <-.
  destruct a0 as [d1 t1]. apply metadataFold_spec in Ha0. simpl in *.
  tauto.
Qed.

Lemma visited_nodes_have_parents (item : Node) :
  type item = "listItem"%string ->
  forall x, In x (preorder None item) ->
            snd x <> None \/ type (fst x) = "listItem"%string.
Proof.
  intros Hty x Hin.
  destruct (preorder_root item) as (rest & Hpre & Hrest).
  rewrite Hpre in Hin. destruct Hin as [<- | Hin]; [right; exact Hty|].
  left. rewrite Forall_forall in Hrest. apply Hrest, Hin.
Qed.

(** A list item with content decomposes: neither visitor throws. *)
Lemma decomposeTitle_returns (md : string) (item : Node) :
  type item = "listItem"%string -> children item <> [] ->
  exists d, decomposeTitle E md item = Ok d.
Proof.
  intros Hty Hch. pose proof (visited_nodes_have_parents item Hty) as Hvis.
  unfold decomposeTitle.
  destruct (children item) as [|startNode rest]; [congruence|].
  destruct (foldM_total searchStep (preorder None item)) with (s := EmptyString)
    as [s' ->].
  { intros s [n p] Hin. apply searchStep_returns. apply (Hvis _ Hin). }
  simpl.
  match goal with
  | |- context [foldM ?f ?xs ?s0] =>
      destruct (foldM_total f xs) with (s := s0) as [st' ->]
  end.
  { intros s [n p] Hin. apply metadataStep_returns. apply (Hvis _ Hin). }
  simpl. eauto.
Qed.

Lemma applyInlineFields_frame (d : ItemData) :
  d_checked (applyInlineFields E d) = d_checked d
  /\ d_checkChar (applyInlineFields E d) = d_checkChar d
  /\ tags (metadata (applyInlineFields E d)) = tags (metadata d).
Proof.
  unfold applyInlineFields.
  destruct (extractInlineFields E (title d) true); [auto|].
  destruct (moveTaskData E || _); simpl; auto.
Qed.





End DecomposeFacts.

(** ** Sorting *)

Section SortFacts.
Variable cmp : string -> string -> Z.

Lemma insertSorted_Permutation (x : string) (l : list string) :
  Permutation (x :: l) (insertSorted cmp x l).
Proof.
  induction l as [|y l IH]; simpl; [reflexivity|].
  destruct (cmp x y <=? 0); [reflexivity|].
  rewrite perm_swap. now apply perm_skip.
Qed.

Lemma sortBy_Permutation (l : list string) : Permutation l (sortBy cmp l).
Proof.
  induction l as [|x l IH]; simpl; [constructor|].
  rewrite <- insertSorted_Permutation. now apply perm_skip.
Qed.

Hypothesis consistent : consistentComparator cmp.

Lemma insertSorted_HdRel (a x : string) (l : list string) :
  cmp a x <= 0 -> HdRel (fun p q => cmp p q <= 0) a l ->
  HdRel (fun p q => cmp p q <= 0) a (insertSorted cmp x l).
Proof.
  intros Hax Hal. destruct l as [|y l]; simpl; [constructor; exact Hax|].
  destruct (cmp x y <=? 0); constructor; [exact Hax|].
  inversion Hal; assumption.
Qed.

Lemma insertSorted_ascending (x : string) (l : list string) :
  ascending cmp l -> ascending cmp (insertSorted cmp x l).
Proof.
  unfold ascending. induction l as [|y l IH]; simpl; intros Hs.
  - repeat constructor.
  - destruct (Z.leb_spec (cmp x y) 0) as [Hle | Hgt].
    + constructor; [exact Hs | constructor; exact Hle].
    + inversion Hs as [|? ? Hsl Hhd]; subst.
      constructor; [apply IH; exact Hsl|].
      apply insertSorted_HdRel; [apply consistent; lia | exact Hhd].
Qed.

Lemma sortBy_ascending (l : list string) : ascending cmp (sortBy cmp l).
Proof.
  induction l as [|x l IH]; simpl; [constructor|].
  apply insertSorted_ascending, IH.
Qed.

End SortFacts.

(** ** The claims about the item decomposer *)

Lemma listItemToItemData_via (E : Env) (md : string) (item : Node) (d : ItemData) :
  listItemToItemData E md item = Ok d ->
  exists d0, decomposeTitle E md item = Ok d0 /\ d = sortTags E (applyInlineFields E d0).
Proof.
  unfold listItemToItemData. intros H. bind_inv H. injection H as <-. eauto.
Qed.




(** C8: the tags of the item data a list item decomposes to are in ascending
    order of [defaultSort], and they are the hashtags of the item, whatever
    their order in the text. *)
Theorem tags_sorted_ascending (E : Env) (md : string) (item : Node) (d : ItemData) :
  consistentComparator (defaultSort E) ->
  listItemToItemData E md item = Ok d ->
  ascending (defaultSort E) (tags (metadata d))
  /\ Permutation (hashtagsOf item) (tags (metadata d)).
Proof.
  intros Hcmp H. apply listItemToItemData_via in H. destruct H as (d0 & Hd0 & ->).
  destruct (decomposeTitle_spec E md item d0 Hd0) as (_ & _ & _ & Htags).
  destruct (applyInlineFields_frame E d0) as (_ & _ & Hframe).
  unfold sortTags. simpl. rewrite Hframe, Htags. split.
  - apply sortBy_ascending, Hcmp.
  - apply sortBy_Permutation.
Qed.

Lemma compareStrings_consistent : consistentComparator Demo.compareStrings.
Proof.
  intros a b. unfold Demo.compareStrings. rewrite (String.compare_antisym a b).
  destruct (String.compare b a); simpl; lia.
Qed.

Lemma tags_sorted_ascending_witness :
  ascending Demo.compareStrings ["#a"; "#b"]%string
  /\ Permutation (hashtagsOf Demo.taggedItem) ["#a"; "#b"]%string.
Proof.
  apply (tags_sorted_ascending Demo.env Demo.taggedMd Demo.taggedItem
           (Demo.get Demo.emptyData
              (listItemToItemData Demo.env Demo.taggedMd Demo.taggedItem))).
  - exact compareStrings_consistent.
  - vm_compute. reflexivity.
Defined.

(** C10: a list item that is not checked, or that is checked but carries no
    [checkChar], decomposes, and the [checkChar] of its item data is a single
    space: the marker written in the source is not kept. *)
Theorem unchecked_item_checkChar_space (E : Env) (md : string) (item : Node) :
  type item = "listItem"%string ->
  children item <> [] ->
  checked item <> Some true \/ checkChar item = None ->
  exists d, listItemToItemData E md item = Ok d /\ d_checkChar d = " "%string.
Proof.
  intros Hty Hch Hflag.
  destruct (decomposeTitle_returns E md item Hty Hch) as [d0 Hd0].
  unfold listItemToItemData. rewrite Hd0. simpl. eexists; split; [reflexivity|].
  destruct (decomposeTitle_spec E md item d0 Hd0) as (_ & Hcc & _).
  destruct (applyInlineFields_frame E d0) as (_ & Hframe & _).
  change (d_checkChar (sortTags E (applyInlineFields E d0)))
    with (d_checkChar (applyInlineFields E d0)).
  rewrite Hframe, Hcc.
  destruct Hflag as [Hunchecked | Hnone].
  - destruct (checked item) as [[|]|]; simpl; congruence.
  - rewrite Hnone. simpl. destruct (truthy (checked item)); reflexivity.
Qed.

Lemma unchecked_item_checkChar_space_witness :
  exists d,
    listItemToItemData Demo.env Demo.dueMd Demo.dueItem = Ok d
    /\ d_checkChar d = " "%string.
Proof.
  apply (unchecked_item_checkChar_space Demo.env Demo.dueMd Demo.dueItem).
  - reflexivity.
  - vm_compute. discriminate.
  - left. vm_compute. discriminate.
Defined.

(** ** The serializer *)

Lemma append_assoc (a b c : string) : (a +:+ b) +:+ c = a +:+ b +:+ c.
Proof.
  induction a as [|ch a IH]; simpl; [reflexivity | now rewrite IH].
Qed.

Lemma append_empty_r (a : string) : a +:+ EmptyString = a.
Proof.
  induction a as [|ch a IH]; simpl; [reflexivity | now rewrite IH].
Qed.

Lemma lanesToMd_from (E : Env) (top : list Lane) (acc : string) :
  fold_left (fun md lane => md +:+ laneToMd E lane) top acc
  = acc +:+ concatStrings (map (laneToMd E) top).
Proof.
  revert acc. induction top as [|l top IH]; simpl; intros acc.
  - now rewrite append_empty_r.
  - now rewrite IH, append_assoc.
Qed.

Lemma laneToMd_lines (E : Env) (lane : Lane) :
  laneToMd E lane =
  join nl ([headingLine E (lane_data lane); EmptyString]
           ++ (if truthy (shouldMarkItemsComplete (lane_data lane))
               then [completeString E] else [])
           ++ map (childToMd E) (lane_children lane)
           ++ [EmptyString; EmptyString; EmptyString]).
Proof.
  destruct lane as [i d ch]. cbn [laneToMd lane_data lane_children].
  match goal with
  | |- join nl (?each ch ?start ++ _) = _ =>
      assert (Heach : forall l acc, each l acc = acc ++ map (childToMd E) l)
  end.
  { induction l as [|c l IH]; intros acc; [now rewrite app_nil_r|].
    destruct c as [it | sub]; rewrite IH, <- app_assoc; reflexivity. }
  rewrite Heach. destruct (truthy (shouldMarkItemsComplete d));
    cbn [app]; rewrite <- ?app_assoc; reflexivity.
Qed.

(** The text of a list of lines that is not empty: the first line, then
    each further line after a line break. *)
Lemma join_head (x : string) (l : list string) :
  join nl (x :: l) = x +:+ concatStrings (map (fun s => nl +:+ s) l).
Proof.
  revert x. induction l as [|y l IH]; intros x.
  - cbn. now rewrite append_empty_r.
  - change (join nl (x :: y :: l)) with (x +:+ nl +:+ join nl (y :: l)).
    rewrite IH. cbn [map concatStrings fold_right]. now rewrite append_assoc.
Qed.

(** The text of some lines and a last one: each line with its line break,
    then the last line. *)
Lemma join_last (l : list string) (last_ : string) :
  join nl (l ++ [last_]) = concatStrings (map (fun s => s +:+ nl) l) +:+ last_.
Proof.
  induction l as [|x l IH]; [reflexivity|].
  assert (Hj : join nl ((x :: l) ++ [last_]) = x +:+ nl +:+ join nl (l ++ [last_]))
    by (destruct l; reflexivity).
  rewrite Hj, IH. cbn [map concatStrings fold_right]. now rewrite !append_assoc.
Qed.

Lemma concatStrings_app (l1 l2 : list string) :
  concatStrings (l1 ++ l2) = concatStrings l1 +:+ concatStrings l2.
Proof.
  induction l1 as [|x l1 IH]; [reflexivity|].
  change (concatStrings ((x :: l1) ++ l2)) with (x +:+ concatStrings (l1 ++ l2)).
  change (concatStrings (x :: l1)) with (x +:+ concatStrings l1).
  now rewrite IH, append_assoc.
Qed.

Lemma archive_lines (E : Env) (archive_ : list Item) (lines : list string) :
  fold_left (fun lines item => lines ++ [itemToMd E item]) archive_ lines
  = lines ++ map (itemToMd E) archive_.
Proof.
  revert lines. induction archive_ as [|i archive_ IH]; intros lines; cbn.
  - now rewrite app_nil_r.
  - now rewrite IH, <- app_assoc.
Qed.

(** The front-matter block, written out. *)
Lemma frontmatterToMd_text (E : Env) (fm : Frontmatter) :
  frontmatterToMd E fm =
  "---" +:+ nl +:+ nl +:+ stringifyYaml E fm +:+ nl +:+ "---" +:+ nl +:+ nl.
Proof.
  reflexivity.
Qed.

(** The archive block, written out. *)
Lemma archiveToMd_text (E : Env) (archive_ : list Item) :
  archiveToMd E archive_ =
  match archive_ with
  | [] => EmptyString
  | _ :: _ =>
      archiveString E +:+ nl +:+ nl +:+ "## " +:+ t_Archive E +:+ nl
        +:+ concatStrings (map (fun item => nl +:+ itemToMd E item) archive_)
  end.
Proof.
  destruct archive_ as [|i rest]; [reflexivity|].
  cbv beta iota zeta delta [archiveToMd]. rewrite archive_lines.
  generalize (i :: rest). intros l.
  change ([archiveString E; EmptyString; "## " +:+ t_Archive E; EmptyString]
            ++ map (itemToMd E) l)
    with (archiveString E :: EmptyString :: ("## " +:+ t_Archive E) :: EmptyString
            :: map (itemToMd E) l).
  rewrite join_head.
  change (map (fun s => nl +:+ s)
            (EmptyString :: ("## " +:+ t_Archive E) :: EmptyString :: map (itemToMd E) l))
    with ((nl +:+ EmptyString) :: (nl +:+ "## " +:+ t_Archive E) :: (nl +:+ EmptyString)
            :: map (fun s => nl +:+ s) (map (itemToMd E) l)).
  rewrite map_map.
  change (concatStrings
            ((nl +:+ EmptyString) :: (nl +:+ "## " +:+ t_Archive E) :: (nl +:+ EmptyString)
               :: map (fun x => nl +:+ itemToMd E x) l))
    with ((nl +:+ EmptyString) +:+ (nl +:+ "## " +:+ t_Archive E) +:+ (nl +:+ EmptyString)
            +:+ concatStrings (map (fun x => nl +:+ itemToMd E x) l)).
  rewrite !append_assoc. reflexivity.
Qed.

(** The text of a lane, written out. *)
Lemma laneToMd_text (E : Env) (lane : Lane) :
  laneToMd E lane =
  headingLine E (lane_data lane) +:+ nl +:+ nl
    +:+ (if truthy (shouldMarkItemsComplete (lane_data lane))
         then completeString E +:+ nl else EmptyString)
    +:+ concatStrings (map (fun c => childToMd E c +:+ nl) (lane_children lane))
    +:+ nl +:+ nl.
Proof.
  rewrite laneToMd_lines.
  change [EmptyString; EmptyString; EmptyString]
    with ([EmptyString; EmptyString] ++ [EmptyString]).
  rewrite !app_assoc, join_last, append_empty_r, <- !app_assoc.
  rewrite !map_app, !concatStrings_app, map_map.
  destruct (truthy (shouldMarkItemsComplete (lane_data lane)));
    cbn [map concatStrings fold_right app String.append];
    rewrite ?append_empty_r, ?append_assoc; reflexivity.
Qed.

(** The number of heading markers of a lane. *)
Lemma headingLine_markers (E : Env) (data : LaneData) :
  exists n,
    headingLine E data =
      repeatNat "#" n +:+ " "
        +:+ replaceNewLines E (laneTitleWithMaxItems E (l_title data) (maxItems data))
    /\ (forall l, level data = Some l -> l <> 0 -> Z.of_nat n = Z.max 1 (l + 1))
    /\ (level data = None \/ level data = Some 0 -> n = 2%nat).
Proof.
  exists (Z.to_nat (Z.max 1 (orOne (level data) + 1))).
  split; [reflexivity|]. unfold orOne. split.
  - intros l -> Hl. destruct (Z.eqb_spec l 0); [contradiction|]. rewrite Z2Nat.id; lia.
  - intros [-> | ->]; reflexivity.
Qed.

(** C7, as amended: a lane is emitted as its heading line, a blank line, the
    complete-marker line when the flag is set, one line per child in order
    (an item through [itemToMd], a nested lane through [laneToMd]) and three
    empty lines. The heading line has as many [#] as the level plus one, at
    least one, when the level is 1 or more or negative; a lane with level 0
    or with no level is written as a lane of level 1, with two. A board is
    emitted as the front-matter block (the YAML between two [---] lines, a
    blank line before the YAML and after the block), its top-level lanes in
    order, the archive block (nothing for an empty archive; otherwise the
    archive rule, a blank line, the archive heading, a blank line and one line
    per archived item) and the settings code block. *)
Theorem serializer_layout (E : Env) :
  (forall lane, exists n,
     laneToMd E lane =
       repeatNat "#" n +:+ " "
         +:+ replaceNewLines E
               (laneTitleWithMaxItems E (l_title (lane_data lane))
                  (maxItems (lane_data lane)))
         +:+ nl +:+ nl
         +:+ (if truthy (shouldMarkItemsComplete (lane_data lane))
              then completeString E +:+ nl else EmptyString)
         +:+ concatStrings (map (fun c => childToMd E c +:+ nl) (lane_children lane))
         +:+ nl +:+ nl
     /\ (forall l, level (lane_data lane) = Some l -> l <> 0 ->
           Z.of_nat n = Z.max 1 (l + 1))
     /\ (level (lane_data lane) = None \/ level (lane_data lane) = Some 0 ->
         n = 2%nat))
  /\ (forall board,
        boardToMd E board =
        "---" +:+ nl +:+ nl +:+ stringifyYaml E (frontmatter (board_data board))
          +:+ nl +:+ "---" +:+ nl +:+ nl
          +:+ concatStrings (map (laneToMd E) (board_children board))
          +:+ match archive (board_data board) with
              | [] => EmptyString
              | _ :: _ =>
                  archiveString E +:+ nl +:+ nl +:+ "## " +:+ t_Archive E +:+ nl
                    +:+ concatStrings
                          (map (fun item => nl +:+ itemToMd E item)
                             (archive (board_data board)))
              end
          +:+ settingsToCodeblock E board).
Proof.
  split.
  - intros lane. destruct (headingLine_markers E (lane_data lane)) as (n & Hn & H1 & H2).
    exists n. split; [|split; assumption].
    rewrite laneToMd_text, Hn, !append_assoc. reflexivity.
  - intros board. unfold boardToMd, lanesToMd.
    rewrite lanesToMd_from, frontmatterToMd_text, archiveToMd_text, !append_assoc.
    reflexivity.
Qed.

(** C7, as stated, fails: a lane with level 0 is written with two heading
    markers, not with the one that the level plus one (and the minimum of
    one) gives; and a lane with no level, which has no level to add one to,
    is written with two markers as well, not with the minimum of one. *)
Lemma level_zero_lane_two_markers :
  level (lane_data Demo.levelZeroLane) = Some 0
  /\ laneToMd Demo.env Demo.levelZeroLane
     = Demo.lines ["## A"; EmptyString; EmptyString; EmptyString; EmptyString]%string
  /\ ~ (exists rest,
          laneToMd Demo.env Demo.levelZeroLane
          = repeatNat "#" (Z.to_nat (Z.max 1 (0 + 1))) +:+ " " +:+ rest)
  /\ level (lane_data Demo.unlevelledLane) = None
  /\ laneToMd Demo.env Demo.unlevelledLane
     = Demo.lines ["## A"; EmptyString; EmptyString; EmptyString; EmptyString]%string
  /\ ~ (exists rest,
          laneToMd Demo.env Demo.unlevelledLane = repeatNat "#" 1 +:+ " " +:+ rest).
Proof.
  split; [reflexivity|]. split; [vm_compute; reflexivity|].
  split; [intros [rest H]; vm_compute in H; discriminate|].
  split; [reflexivity|]. split; [vm_compute; reflexivity|].
  intros [rest H]. vm_compute in H. discriminate.
Qed.

(** ** Adding items to a lane *)

(** C9: every item handed on by [addItems] has [checked] set to the lane's
    [shouldMarkItemsComplete] and [checkChar] set to the configured done
    character when that flag is set and to a single space otherwise, whatever
    the item held before; the rest of the item is as it was. *)
Theorem addItems_marks_every_item (E : Env) (insertionMethod : string) (path : list Z)
    (lane : Lane) (items : list Item) :
  let shouldMark := truthy (shouldMarkItemsComplete (lane_data lane)) in
  Forall2
    (fun it it' =>
       d_checked (item_data it') = Some shouldMark
       /\ d_checkChar (item_data it') =
            (if shouldMark then getTaskStatusDone E else " "%string)
       /\ item_id it' = item_id it
       /\ titleRaw (item_data it') = titleRaw (item_data it)
       /\ title (item_data it') = title (item_data it)
       /\ blockId (item_data it') = blockId (item_data it)
       /\ metadata (item_data it') = metadata (item_data it))
    items (call_items (addItems E insertionMethod path lane items)).
Proof.
  intros shouldMark. unfold addItems. cbn [call_items].
  induction items as [|it items IH]; cbn [map]; constructor; [|exact IH].
  cbn. repeat split.
Qed.

(** ** The assembler: the hierarchy invariant *)

Lemma popWhile_incl (lvl : Z) (stack : list (nat * Z)) (x : nat * Z) :
  In x (popWhile lvl stack) -> In x stack.
Proof.
  induction stack as [|[a l] stack IH]; simpl; [auto|].
  destruct (l >=? lvl); simpl; auto.
Qed.

Lemma popWhile_top (lvl : Z) (stack below : list (nat * Z)) (p : nat) (pl : Z) :
  popWhile lvl stack = (p, pl) :: below -> pl < lvl.
Proof.
  induction stack as [|[a l] stack IH]; simpl; [discriminate|].
  destruct (Z.geb_spec l lvl) as [Hge | Hlt]; [exact IH|].
  intros H. injection H as <- <- _. exact Hlt.
Qed.

Lemma nth_error_updateCell (h : list LaneCell) (a b : nat) (f : LaneCell -> LaneCell) :
  nth_error (updateCell h a f) b =
  if Nat.eqb b a then option_map f (nth_error h b) else nth_error h b.
Proof.
  revert a b. induction h as [|c h IH]; intros [|a] [|b]; simpl;
    try reflexivity; try (destruct (Nat.eqb _ _); reflexivity).
  apply IH.
Qed.

Lemma nth_error_snoc (h : list LaneCell) (c x : LaneCell) (a : nat) :
  nth_error (h ++ [x]) a = Some c ->
  (a < length h)%nat /\ nth_error h a = Some c \/ a = length h /\ c = x.
Proof.
  intros H. destruct (Nat.lt_ge_cases a (length h)) as [Hlt | Hge].
  - left. rewrite nth_error_app1 in H by exact Hlt. auto.
  - right. rewrite nth_error_app2 in H by exact Hge.
    destruct (a - length h)%nat as [|k] eqn:Hk; simpl in H.
    + injection H as <-. split; [lia | reflexivity].
    + destruct k; discriminate.
Qed.

Lemma nth_error_bound (h : list LaneCell) (a : nat) (c : LaneCell) :
  nth_error h a = Some c -> (a < length h)%nat.
Proof.
  intros H. apply nth_error_Some. congruence.
Qed.

Lemma extends_snoc (h : list LaneCell) (x : LaneCell) : extends h (h ++ [x]).
Proof.
  intros a c Hc. exists c. rewrite nth_error_app1 by (eapply nth_error_bound; eauto).
  auto.
Qed.

Lemma extends_pushChild (h : list LaneCell) (p : nat) (ch : Child nat) :
  extends h (updateCell h p (fun c => pushChild c ch)).
Proof.
  intros a c Hc. rewrite nth_error_updateCell, Hc.
  destruct (Nat.eqb a p); simpl; eauto.
Qed.

Lemma extends_trans (h1 h2 h3 : list LaneCell) :
  extends h1 h2 -> extends h2 h3 -> extends h1 h3.
Proof.
  intros H12 H23 a c Hc.
  destruct (H12 a c Hc) as (c2 & Hc2 & Hid2 & Hd2).
  destruct (H23 a c2 Hc2) as (c3 & Hc3 & Hid3 & Hd3).
  exists c3. repeat split; congruence.
Qed.

Lemma no_lane_among_items (items : list Item) (b : nat) :
  ~ In (ChildLane b) (map (@ChildItem nat) items).
Proof.
  induction items as [|i items IH]; simpl; [auto|].
  intros [H | H]; [discriminate | auto].
Qed.

(** Allocating a top-level lane keeps the heap invariant. *)
Lemma heapOk_snoc (h : list LaneCell) (i : string) (d : LaneData) (items : list Item) :
  heapOk h -> heapOk (h ++ [mkLaneCell i d (map (@ChildItem nat) items)]).
Proof.
  intros Hh a c b Hc Hb.
  apply nth_error_snoc in Hc. destruct Hc as [[Hlt Hc] | [_ ->]].
  - destruct (Hh a c b Hc Hb) as (Hab & cb & lp & lb & Hcb & R).
    split; [exact Hab|]. exists cb, lp, lb. split; [|exact R].
    rewrite nth_error_app1 by (eapply nth_error_bound; eauto). exact Hcb.
  - exfalso. exact (no_lane_among_items items b Hb).
Qed.

(** Allocating a lane and pushing it into its parent keeps the invariant. *)
Lemma heapOk_attach (h : list LaneCell) (p : nat) (cp : LaneCell) (pl lvl : Z)
    (i : string) (d : LaneData) (items : list Item) :
  heapOk h ->
  nth_error h p = Some cp ->
  level (cell_data cp) = Some pl ->
  level d = Some lvl ->
  pl < lvl ->
  parentId d = Some (cell_id cp) ->
  heapOk (updateCell (h ++ [mkLaneCell i d (map (@ChildItem nat) items)]) p
            (fun c => pushChild c (ChildLane (length h)))).
Proof.
  intros Hh Hp Hpl Hlvl Hlt Hpar.
  set (lane := mkLaneCell i d (map (@ChildItem nat) items)).
  set (h' := updateCell (h ++ [lane]) p (fun c => pushChild c (ChildLane (length h)))).
  assert (Hext : extends h h').
  { eapply extends_trans; [apply extends_snoc | apply extends_pushChild]. }
  assert (Hpn : (p < length h)%nat) by (eapply nth_error_bound; eauto).
  assert (Hnew : nth_error h' (length h) = Some lane).
  { unfold h'. rewrite nth_error_updateCell.
    destruct (Nat.eqb_spec (length h) p); [lia|].
    rewrite nth_error_app2 by lia. now rewrite Nat.sub_diag. }
  assert (Hold : forall a c b,
             nth_error h a = Some c -> In (ChildLane b) (cell_children c) ->
             (a < b)%nat
             /\ exists cb lp lb,
                  nth_error h' b = Some cb
                  /\ level (cell_data c) = Some lp
                  /\ level (cell_data cb) = Some lb
                  /\ lb > lp
                  /\ parentId (cell_data cb) = Some (cell_id c)).
  { intros a c b Hc Hb.
    destruct (Hh a c b Hc Hb) as (Hab & cb & lp & lb & Hcb & R1 & R2 & R3 & R4).
    split; [exact Hab|].
    destruct (Hext b cb Hcb) as (cb' & Hcb' & _ & Hd').
    exists cb', lp, lb. rewrite Hd'. auto. }
  intros a c b Hc Hb. unfold h' in Hc. rewrite nth_error_updateCell in Hc.
  destruct (Nat.eqb_spec a p) as [-> | Hne].
  - rewrite nth_error_app1, Hp in Hc by exact Hpn. simpl in Hc. injection Hc as <-.
    simpl in Hb. apply in_app_or in Hb. destruct Hb as [Hb | [Hb | []]].
    + apply (Hold p cp b Hp Hb).
    + injection Hb as <-. split; [exact Hpn|].
      exists lane, pl, lvl. simpl. repeat split; auto. lia.
  - apply nth_error_snoc in Hc. destruct Hc as [[_ Hc] | [_ ->]].
    + apply (Hold a c b Hc Hb).
    + exfalso. exact (no_lane_among_items items b Hb).
Qed.

(** Reading a cell back succeeds once the fuel covers the cells after it, and
    the lane read back satisfies the hierarchy invariant. *)
Lemma reify_ok (h : list LaneCell) :
  heapOk h ->
  forall fuel a c,
    nth_error h a = Some c -> (length h <= a + fuel)%nat ->
    exists L, reify fuel h a = Ok L
              /\ lane_id L = cell_id c /\ lane_data L = cell_data c /\ hierarchyOk L.
Proof.
  intros Hh. induction fuel as [|f IH]; intros a c Hc Hfuel.
  - apply nth_error_bound in Hc. lia.
  - cbn [reify]. rewrite Hc.
    set (F := fun x : Child nat =>
                match x with
                | ChildItem i => Ok (ChildItem i)
                | ChildLane b => l <- reify f h b ;; Ok (ChildLane l)
                end).
    assert (Hch : forall l,
               (forall x, In x l -> In x (cell_children c)) ->
               exists ch, mapM F l = Ok ch
                 /\ forall L, In (ChildLane L) ch ->
                      exists b cb, In (ChildLane b) (cell_children c)
                        /\ nth_error h b = Some cb
                        /\ lane_id L = cell_id cb /\ lane_data L = cell_data cb
                        /\ hierarchyOk L).
    { induction l as [|x l IHl]; intros Hsub.
      - exists []. split; [reflexivity | intros L []].
      - destruct IHl as (ch & Hmap & Hprop); [intros; apply Hsub; right; assumption|].
        destruct x as [it | b].
        + cbn [mapM F]. cbn [bind]. rewrite Hmap. cbn [bind].
          eexists; split; [reflexivity|].
          intros L [HL | HL]; [discriminate | auto].
        + destruct (Hh a c b Hc (Hsub _ (or_introl eq_refl)))
            as (Hab & cb & lp & lb & Hcb & _).
          destruct (IH b cb Hcb) as (Lb & Hr & Hid & Hdata & HokL); [lia|].
          cbn [mapM F]. rewrite Hr. cbn [bind]. rewrite Hmap. cbn [bind].
          eexists; split; [reflexivity|].
          intros L [HL | HL]; [|auto].
          injection HL as <-. exists b, cb.
          split; [apply Hsub; left; reflexivity | auto]. }
    destruct (Hch (cell_children c)) as (ch & Hmap & Hprop); [auto|].
    rewrite Hmap. cbn [bind]. eexists; split; [reflexivity|]. cbn.
    split; [reflexivity|]. split; [reflexivity|].
    constructor. cbn. intros L HL.
    destruct (Hprop L HL) as (b & cb & Hb & Hcb & Hid & Hdata & HokL).
    split; [|exact HokL].
    destruct (Hh a c b Hc Hb) as (_ & cb' & lp & lb & Hcb' & Hlp & Hlb & Hgt & Hpar).
    assert (cb' = cb) by congruence. subst cb'.
    unfold nestedUnder. cbn. rewrite Hdata. split; [|exact Hpar].
    exists lp, lb. auto.
Qed.

Lemma Forall2_Forall_r {A B : Type} (R : A -> B -> Prop) (Q : B -> Prop)
    (xs : list A) (ys : list B) :
  Forall2 R xs ys ->
  (forall x y, In x xs -> R x y -> Q y) ->
  Forall Q ys.
Proof.
  induction 1 as [|x y xs ys HR _ IH]; intros HQ; constructor.
  - apply (HQ x y); [left; reflexivity | exact HR].
  - apply IH. intros x' y' Hin. apply HQ. right. exact Hin.
Qed.

Lemma scanNextOfType_In {S : Type} (rest : list Node) (ty : string)
    (k : Node -> S -> bool * S) (s : S) (l : Node) :
  fst (scanNextOfType rest ty k s) = Some l -> In l rest /\ isType l ty = true.
Proof.
  revert s. induction rest as [|child rest IH]; simpl; intros s H; [discriminate|].
  destruct (isType child ty) eqn:Hty.
  - injection H as <-. auto.
  - destruct (k child s) as [go s']. destruct go; [|discriminate].
    destruct (IH s' H). auto.
Qed.

Lemma skipn_In {A : Type} (n : nat) (l : list A) (x : A) : In x (skipn n l) -> In x l.
Proof.
  revert l. induction n as [|n IH]; intros [|y l]; simpl; auto.
Qed.

Lemma getNextOfType_In {S : Type} (siblings : list Node) (index : nat) (ty : string)
    (k : Node -> S -> bool * S) (s : S) (l : Node) :
  fst (getNextOfType siblings index ty k s) = Some l ->
  In l siblings /\ isType l ty = true.
Proof.
  unfold getNextOfType. intros H. apply scanNextOfType_In in H.
  destruct H as [Hin Hty]. split; [|exact Hty].
  exact (skipn_In _ _ _ Hin).
Qed.

Section AssembleFacts.
Variable E : Env.

Lemma linkLane_keeps_invariant (st st' : Assembly) (laneId : string) (data : LaneData)
    (lvl : Z) (r : list Item * nat) :
  assemblyOk st ->
  level data = Some lvl -> parentId data = None ->
  linkLane st laneId data lvl r = Ok st' ->
  assemblyOk st'.
Proof.
  intros (Hh & Hl & Hs) Hlvl Hpar. unfold linkLane.
  destruct (popWhile lvl (laneStack st)) as [|[p pl] below] eqn:Hpop.
  - (* a new top-level lane *)
    intros H. injection H as <-. unfold assemblyOk. cbn.
    split; [apply heapOk_snoc; exact Hh|]. split.
    + intros a Ha. apply in_app_or in Ha. destruct Ha as [Ha | [<- | []]].
      * destruct (Hl a Ha) as (c & Hc & Hp). exists c.
        rewrite nth_error_app1 by (eapply nth_error_bound; eauto). auto.
      * eexists. rewrite nth_error_app2, Nat.sub_diag by lia. simpl. auto.
    + intros a l [Hin | []]. injection Hin as <- <-.
      eexists. rewrite nth_error_app2, Nat.sub_diag by lia. simpl. auto.
  - (* a lane nested under the top of the stack *)
    assert (Hptop : In (p, pl) (laneStack st)).
    { apply (popWhile_incl lvl). rewrite Hpop. left. reflexivity. }
    destruct (Hs p pl Hptop) as (cp & Hcp & Hcpl). rewrite Hcp.
    intros H. injection H as <-. unfold assemblyOk. cbn.
    match goal with
    | |- heapOk ?h' /\ _ => assert (Hext : extends (heap st) h')
    end.
    { eapply extends_trans; [apply extends_snoc | apply extends_pushChild]. }
    split.
    { eapply heapOk_attach; eauto. apply (popWhile_top _ _ _ _ _ Hpop). }
    split.
    + intros a Ha. destruct (Hl a Ha) as (c & Hc & Hp).
      destruct (Hext a c Hc) as (c' & Hc' & _ & Hd'). exists c'. rewrite Hd'. auto.
    + intros a l [Hin | Hin].
      * injection Hin as <- <-. eexists. split.
        { rewrite nth_error_updateCell.
          destruct (Nat.eqb_spec (length (heap st)) p) as [Heq | _].
          - apply nth_error_bound in Hcp. lia.
          - rewrite nth_error_app2, Nat.sub_diag by lia. reflexivity. }
        exact Hlvl.
      * assert (Hin' : In (a, l) (laneStack st)).
        { apply (popWhile_incl lvl). rewrite Hpop. exact Hin. }
        destruct (Hs a l Hin') as (c & Hc & Hlv).
        destruct (Hext a c Hc) as (c' & Hc' & _ & Hd'). exists c'. rewrite Hd'. auto.
Qed.

Lemma headingStep_keeps_invariant (siblings : list Node) (md : string)
    (st st' : Assembly) (index : nat) (child : Node) :
  assemblyOk st ->
  headingStep E siblings md st index child = Ok st' ->
  assemblyOk st'.
Proof.
  intros Hok. unfold headingStep.
  destruct (negb (isType child "heading")); [intros H; injection H as <-; exact Hok|].
  destruct (getNextOfType siblings index "list" (listScanContinue E) false)
    as [list_ shouldMark].
  destruct (isArchiveLane E child siblings index); destruct list_ as [l|];
    intros H; bind_inv H.
  - injection H as <-. destruct Hok as (Hh & Hl & Hs).
    split; [exact Hh|]. split; [exact Hl | exact Hs].
  - eapply linkLane_keeps_invariant; eauto; reflexivity.
  - eapply linkLane_keeps_invariant; eauto; reflexivity.
  - eapply linkLane_keeps_invariant; eauto; reflexivity.
Qed.

Lemma forEachFrom_keeps_invariant (siblings : list Node) (md : string) (rest : list Node) :
  forall index st st',
    assemblyOk st ->
    forEachFrom E siblings md index rest st = Ok st' ->
    assemblyOk st'.
Proof.
  induction rest as [|child rest IH]; simpl; intros index st st' Hok H.
  - injection H as <-. exact Hok.
  - bind_inv H. eapply IH; [|exact H].
    eapply headingStep_keeps_invariant; eauto.
Qed.

Lemma emptyAssembly_ok : assemblyOk emptyAssembly.
Proof.
  unfold assemblyOk, heapOk, emptyAssembly. cbn. repeat split.
  - destruct a; discriminate.
  - destruct a; discriminate.
  - contradiction.
  - contradiction.
Qed.

Lemma assemble_ok (root : Node) (md : string) (st : Assembly) :
  assemble E root md = Ok st -> assemblyOk st.
Proof.
  apply forEachFrom_keeps_invariant, emptyAssembly_ok.
Qed.

Lemma makeItems_total (md : string) (listItems : list Node) :
  (forall li, In li listItems -> exists d, listItemToItemData E md li = Ok d) ->
  forall drawn, exists r, makeItems E md drawn listItems = Ok r.
Proof.
  induction listItems as [|li rest IH]; simpl; intros Hall drawn; [eauto|].
  destruct (Hall li (or_introl eq_refl)) as [d ->]. cbn [bind].
  destruct (IH (fun x Hx => Hall x (or_intror Hx)) (S drawn)) as [r ->].
  cbn [bind]. eauto.
Qed.

Lemma linkLane_returns (st : Assembly) (laneId : string) (data : LaneData) (lvl : Z)
    (r : list Item * nat) :
  assemblyOk st -> exists st', linkLane st laneId data lvl r = Ok st'.
Proof.
  intros (_ & _ & Hs). unfold linkLane.
  destruct (popWhile lvl (laneStack st)) as [|[p pl] below] eqn:Hpop; [eauto|].
  assert (Hptop : In (p, pl) (laneStack st)).
  { apply (popWhile_incl lvl). rewrite Hpop. left. reflexivity. }
  destruct (Hs p pl Hptop) as (cp & -> & _). eauto.
Qed.

Lemma headingStep_returns (siblings : list Node) (md : string) (st : Assembly)
    (index : nat) (child : Node) :
  assemblyOk st -> itemsDecompose E md siblings ->
  exists st', headingStep E siblings md st index child = Ok st'.
Proof.
  intros Hok Hitems. unfold headingStep.
  destruct (negb (isType child "heading")); [eauto|].
  destruct (getNextOfType siblings index "list" (listScanContinue E) false)
    as [list_ shouldMark] eqn:Hscan.
  assert (Hmake : forall l drawn, list_ = Some l ->
                    exists r, makeItems E md drawn (children l) = Ok r).
  { intros l drawn ->. apply makeItems_total. intros li Hli.
    destruct (getNextOfType_In siblings index "list" (listScanContinue E) false l)
      as (Hin & Hty); [rewrite Hscan; reflexivity|].
    apply (Hitems l li Hin Hty Hli). }
  destruct (isArchiveLane E child siblings index); destruct list_ as [l|].
  - destruct (Hmake l (idsDrawn st) eq_refl) as [r ->]. cbn [bind]. eauto.
  - cbn [bind]. apply linkLane_returns, Hok.
  - destruct (Hmake l (S (idsDrawn st)) eq_refl) as [r ->]. cbn [bind].
    apply linkLane_returns, Hok.
  - cbn [bind]. apply linkLane_returns, Hok.
Qed.

Lemma forEachFrom_returns (siblings : list Node) (md : string) (rest : list Node) :
  itemsDecompose E md siblings ->
  forall index st, assemblyOk st ->
    exists st', forEachFrom E siblings md index rest st = Ok st'.
Proof.
  intros Hitems. induction rest as [|child rest IH]; simpl; intros index st Hok; [eauto|].
  destruct (headingStep_returns siblings md st index child Hok Hitems) as [st1 H1].
  rewrite H1. cbn [bind]. apply IH.
  eapply headingStep_keeps_invariant; eauto.
Qed.

Lemma reify_lanes_return (st : Assembly) :
  assemblyOk st ->
  exists top, mapM (reify (length (heap st)) (heap st)) (lanes st) = Ok top.
Proof.
  intros (Hh & Hl & _). apply mapM_total. intros a Ha.
  destruct (Hl a Ha) as (c & Hc & _).
  destruct (reify_ok (heap st) Hh (length (heap st)) a c Hc) as (L & HL & _); [lia|].
  eauto.
Qed.

(** The assembler returns a board whenever the items of the document
    decompose: no reference it follows dangles. *)
Lemma astToUnhydratedBoard_returns (settings_ : KanbanSettings) (frontmatter_ : Frontmatter)
    (root : Node) (md : string) :
  itemsDecompose E md (children root) ->
  exists b, astToUnhydratedBoard E settings_ frontmatter_ root md = Ok b.
Proof.
  intros Hitems. unfold astToUnhydratedBoard, assemble.
  destruct (forEachFrom_returns (children root) md (children root) Hitems 0
              emptyAssembly emptyAssembly_ok) as [st Hst].
  rewrite Hst. cbn [bind].
  destruct (reify_lanes_return st) as [top ->].
  { eapply forEachFrom_keeps_invariant; [apply emptyAssembly_ok | exact Hst]. }
  cbn [bind]. eauto.
Qed.

End AssembleFacts.

(** C4: in every board the assembler produces, each top-level lane has no
    [parentId], and throughout the lane tree a lane that is a child of
    another has a strictly greater level than its owner and a [parentId]
    equal to the owner's id. *)
Theorem parsed_board_hierarchy (E : Env) (settings_ : KanbanSettings)
    (frontmatter_ : Frontmatter) (root : Node) (md : string) (b : Board) :
  astToUnhydratedBoard E settings_ frontmatter_ root md = Ok b ->
  Forall (fun L => parentId (lane_data L) = None /\ hierarchyOk L) (board_children b).
Proof.
  unfold astToUnhydratedBoard. intros H. bind_inv H. bind_inv H. injection H as <-.
  cbn [board_children]. rename a into st, a0 into top.
  destruct (assemble_ok E root md st Ha) as (Hh & Hl & _).
  apply mapM_Forall2 in Ha0.
  apply (Forall2_Forall_r _ _ _ _ Ha0). intros a L Hin HL.
  destruct (Hl a Hin) as (c & Hc & Hpar).
  destruct (reify_ok (heap st) Hh (length (heap st)) a c Hc) as (L' & HL' & _ & Hdata & HokL);
    [lia|].
  assert (L' = L) by congruence. subst L'. rewrite Hdata. auto.
Qed.

Lemma parsed_board_hierarchy_witness :
  Forall (fun L => parentId (lane_data L) = None /\ hierarchyOk L)
    (board_children
       (Demo.get (Demo.boardOf []) (Demo.parseBoard Demo.nestedDoc))).
Proof.
  apply (parsed_board_hierarchy Demo.env [] [] (Demo.parseDocument Demo.nestedDoc)
           Demo.nestedDoc).
  vm_compute. reflexivity.
Defined.

(** ** The assembler: the archive section *)

Section ArchiveFacts.
Variable E : Env.

Lemma length_updateCell (h : list LaneCell) (a : nat) (f : LaneCell -> LaneCell) :
  length (updateCell h a f) = length h.
Proof.
  revert a. induction h as [|c h IH]; intros [|a]; simpl; auto.
Qed.

Lemma makeItems_spec (md : string) (listItems : list Node) :
  forall drawn r,
    makeItems E md drawn listItems = Ok r ->
    Forall2 (fun li it => listItemToItemData E md li = Ok (item_data it))
      listItems (fst r).
Proof.
  induction listItems as [|li rest IH]; simpl; intros drawn r H.
  - injection H as <-. constructor.
  - bind_inv H. bind_inv H. injection H as <-. simpl.
    constructor; [exact Ha | eapply IH; eauto].
Qed.

(** What linking a new lane changes: one more lane object, holding the given
    data but for its [parentId], referred to from [lanes] or from a parent. *)
Lemma linkLane_spec (st st' : Assembly) (laneId : string) (data : LaneData) (lvl : Z)
    (r : list Item * nat) :
  linkLane st laneId data lvl r = Ok st' ->
  archiveItems st' = archiveItems st
  /\ length (heap st') = S (length (heap st))
  /\ exists cell,
       nth_error (heap st') (length (heap st)) = Some cell
       /\ cell_id cell = laneId
       /\ l_title (cell_data cell) = l_title data
       /\ level (cell_data cell) = level data
       /\ (In (length (heap st)) (lanes st')
           \/ exists p cp, nth_error (heap st') p = Some cp
                           /\ In (ChildLane (length (heap st))) (cell_children cp)).
Proof.
  unfold linkLane.
  destruct (popWhile lvl (laneStack st)) as [|[p pl] below].
  - intros H. injection H as <-. cbn. split; [reflexivity|].
    split; [rewrite length_app; simpl; lia|].
    eexists. split; [rewrite nth_error_app2, Nat.sub_diag by lia; reflexivity|].
    cbn. repeat split. left. apply in_or_app. right. left. reflexivity.
  - destruct (nth_error (heap st) p) as [cp|] eqn:Hcp; [|discriminate].
    intros H. injection H as <-. cbn. split; [reflexivity|].
    pose proof (nth_error_bound _ _ _ Hcp) as Hp.
    split; [rewrite length_updateCell, length_app; simpl; lia|].
    eexists. split.
    { rewrite nth_error_updateCell.
      destruct (Nat.eqb_spec (length (heap st)) p); [lia|].
      rewrite nth_error_app2, Nat.sub_diag by lia. reflexivity. }
    cbn. repeat split. right. exists p. eexists. split.
    { rewrite nth_error_updateCell, Nat.eqb_refl, nth_error_app1, Hcp by exact Hp.
      reflexivity. }
    cbn. apply in_or_app. right. left. reflexivity.
Qed.

Lemma isArchiveLane_iff (child : Node) (siblings : list Node) (index : nat) :
  isArchiveLane E child siblings index = true <->
  isType child "heading" = true
  /\ toString false child = t_Archive E
  /\ exists prev, getPrevSibling siblings index = Some prev
                  /\ isType prev "thematicBreak" = true.
Proof.
  unfold isArchiveLane.
  destruct (isType child "heading"); simpl.
  - destruct (String.eqb_spec (toString false child) (t_Archive E)) as [Heq | Hne]; simpl.
    + destruct (getPrevSibling siblings index) as [prev|].
      * split; [intros H; eauto | intros (_ & _ & prev' & Hp & Ht); congruence].
      * split; [discriminate | intros (_ & _ & prev' & Hp & _); discriminate].
    + split; [discriminate | intros (_ & Heq & _); contradiction].
  - split; [discriminate | intros (H & _); discriminate].
Qed.

End ArchiveFacts.

(** *** Reading the tree back and the lane objects *)

Lemma Forall2_In_l {A B : Type} (R : A -> B -> Prop) (xs : list A) (ys : list B) (x : A) :
  Forall2 R xs ys -> In x xs -> exists y, In y ys /\ R x y.
Proof.
  induction 1 as [|x0 y0 xs ys HR _ IH]; intros Hin; [contradiction|].
  destruct Hin as [<- | Hin].
  - exists y0. split; [left; reflexivity | exact HR].
  - destruct (IH Hin) as (y & Hy & HRy). exists y. split; [right; exact Hy | exact HRy].
Qed.

Lemma Forall2_In_r {A B : Type} (R : A -> B -> Prop) (xs : list A) (ys : list B) (y : B) :
  Forall2 R xs ys -> In y ys -> exists x, In x xs /\ R x y.
Proof.
  induction 1 as [|x0 y0 xs ys HR _ IH]; intros Hin; [contradiction|].
  destruct Hin as [<- | Hin].
  - exists x0. split; [left; reflexivity | exact HR].
  - destruct (IH Hin) as (x & Hx & HRx). exists x. split; [right; exact Hx | exact HRx].
Qed.

Lemma lanesIn_unfold (l : Lane) :
  lanesIn l = l :: flat_map childLanes (lane_children l).
Proof.
  destruct l as [i d ch]. cbn [lanesIn lane_children]. f_equal.
  induction ch as [|c ch IH]; [reflexivity|].
  destruct c as [it | sub]; cbn [flat_map childLanes]; rewrite <- IH; reflexivity.
Qed.

Lemma lanesIn_self (l : Lane) : In l (lanesIn l).
Proof.
  rewrite lanesIn_unfold. left. reflexivity.
Qed.

Lemma lanesIn_child (T : Lane) :
  forall P L, In P (lanesIn T) -> In (ChildLane L) (lane_children P) -> In L (lanesIn T).
Proof.
  induction T as [T IH] using Lane_induction. intros P L HP HL.
  rewrite lanesIn_unfold in HP |- *. destruct HP as [<- | HP].
  - right. apply in_flat_map. exists (ChildLane L). split; [exact HL|].
    apply lanesIn_self.
  - right. apply in_flat_map in HP. destruct HP as (c & Hc & HPc).
    destruct c as [it | sub]; [contradiction|].
    apply in_flat_map. exists (ChildLane sub). split; [exact Hc|].
    cbn [childLanes] in *. apply (IH sub Hc P L HPc HL).
Qed.

(** What a successful read of one cell consists of. *)
Lemma reify_inv (fuel : nat) (h : list LaneCell) (a : nat) (L : Lane) :
  reify fuel h a = Ok L ->
  exists f c,
    fuel = S f /\ nth_error h a = Some c
    /\ lane_id L = cell_id c /\ lane_data L = cell_data c
    /\ Forall2
         (fun x y =>
            match x with
            | ChildItem i => y = ChildItem i
            | ChildLane b => exists Lb, y = ChildLane Lb /\ reify f h b = Ok Lb
            end)
         (cell_children c) (lane_children L).
Proof.
  destruct fuel as [|f]; cbn [reify]; [discriminate|].
  destruct (nth_error h a) as [c|]; [|discriminate].
  intros H. bind_inv H. injection H as <-. exists f, c. cbn.
  repeat split. apply mapM_Forall2 in Ha.
  induction Ha as [|x y xs ys Hxy _ IH]; constructor; [|exact IH].
  destruct x as [it | b].
  - injection Hxy as <-. reflexivity.
  - bind_inv Hxy. injection Hxy as <-. eauto.
Qed.

(** Every lane of a tree read back is the reading of some cell. *)
Lemma lanesIn_reify (h : list LaneCell) :
  forall fuel a T,
    reify fuel h a = Ok T ->
    forall L, In L (lanesIn T) ->
      exists b c, nth_error h b = Some c /\ lane_data L = cell_data c.
Proof.
  induction fuel as [|f IH]; intros a T HT L HL; [discriminate|].
  apply reify_inv in HT.
  destruct HT as (f' & c & Hf & Hc & _ & Hdata & Hch). injection Hf as <-.
  rewrite lanesIn_unfold in HL. destruct HL as [<- | HL]; [eauto|].
  apply in_flat_map in HL. destruct HL as (y & Hy & HLy).
  destruct y as [it | sub]; [contradiction|]. cbn [childLanes] in HLy.
  destruct (Forall2_In_r _ _ _ _ Hch Hy) as (x & _ & Hx).
  destruct x as [it | b]; [discriminate|].
  destruct Hx as (Lb & Heq & Hr). injection Heq as <-.
  apply (IH b sub Hr L HLy).
Qed.

(** Every cell is read back somewhere in the forest of the board. *)
Lemma every_cell_in_forest (h : list LaneCell) (top_ : list nat) (top : list Lane) :
  heapOk h -> linked h top_ ->
  mapM (reify (length h) h) top_ = Ok top ->
  forall a c, nth_error h a = Some c ->
    exists L, In L (flat_map lanesIn top)
              /\ lane_data L = cell_data c
              /\ exists fuel, reify fuel h a = Ok L.
Proof.
  intros Hh Hlinked Htop. apply mapM_Forall2 in Htop.
  induction a as [a IH] using (well_founded_induction Wf_nat.lt_wf). intros c Hc.
  destruct (Hlinked a (nth_error_bound _ _ _ Hc)) as [Ha | (p & cp & Hp & Hchild)].
  - destruct (Forall2_In_l _ _ _ _ Htop Ha) as (L & HL & Hr).
    exists L. split; [apply in_flat_map; exists L; split; [exact HL | apply lanesIn_self]|].
    apply reify_inv in Hr as Hinv. destruct Hinv as (f & c' & _ & Hc' & _ & Hdata & _).
    split; [congruence | eauto].
  - destruct (Hh p cp a Hp Hchild) as (Hpa & _).
    destruct (IH p Hpa cp Hp) as (P & HP & _ & fuel & Hr).
    apply reify_inv in Hr. destruct Hr as (f & cp' & _ & Hcp' & _ & _ & Hch).
    assert (cp' = cp) by congruence. subst cp'.
    destruct (Forall2_In_l _ _ _ _ Hch Hchild) as (y & Hy & Lb & -> & Hrb).
    exists Lb. split.
    + apply in_flat_map in HP. destruct HP as (T & HT & HPT).
      apply in_flat_map. exists T. split; [exact HT|].
      apply (lanesIn_child T P Lb HPT Hy).
    + apply reify_inv in Hrb as Hinv. destruct Hinv as (f' & c' & _ & Hc' & _ & Hdata & _).
      split; [congruence | eauto].
Qed.

(** *** What each block does to the lane objects and the archive *)

Section TrackFacts.
Variable E : Env.

(** The three ways through the body of the [forEach]. *)
Lemma headingStep_cases (siblings : list Node) (md : string) (st st' : Assembly)
    (index : nat) (child : Node) :
  headingStep E siblings md st index child = Ok st' ->
  (isType child "heading" = false /\ st' = st)
  \/ (isType child "heading" = true
      /\ opensArchive E siblings index child = true
      /\ exists l r,
           listAfter E siblings index = Some l
           /\ makeItems E md (idsDrawn st) (children l) = Ok r
           /\ st' = mkAssembly (heap st) (lanes st) (archiveItems st ++ fst r)
                      (laneStack st) (snd r))
  \/ (isType child "heading" = true
      /\ opensArchive E siblings index child = false
      /\ exists shouldMark r,
           linkLane st (instanceId E (idsDrawn st)) (laneDataOf E md child shouldMark)
             (orOne (depth child)) r = Ok st').
Proof.
  unfold headingStep, opensArchive, listAfter.
  destruct (isType child "heading"); cbn [negb].
  2: { intros H. injection H as <-. left. auto. }
  destruct (getNextOfType siblings index "list" (listScanContinue E) false)
    as [list_ shouldMark].
  destruct (isArchiveLane E child siblings index); destruct list_ as [l|];
    cbn [fst isSome andb]; intros H; bind_inv H; right.
  - left. injection H as <-. repeat split. eauto.
  - right. repeat split. eauto.
  - right. repeat split. eauto.
  - right. repeat split. eauto.
Qed.

(** Linking a lane keeps what was there: the top-level lanes, every cell with
    its data, every reference a cell held. *)
Lemma linkLane_grows (st st' : Assembly) (laneId : string) (data : LaneData) (lvl : Z)
    (r : list Item * nat) :
  linkLane st laneId data lvl r = Ok st' ->
  (forall a, In a (lanes st) -> In a (lanes st'))
  /\ (forall a c, nth_error (heap st) a = Some c ->
        exists c', nth_error (heap st') a = Some c'
                   /\ cell_data c' = cell_data c
                   /\ incl (cell_children c) (cell_children c'))
  /\ (forall a c', nth_error (heap st') a = Some c' ->
        a = length (heap st)
        \/ exists c, nth_error (heap st) a = Some c /\ cell_data c' = cell_data c).
Proof.
  unfold linkLane.
  destruct (popWhile lvl (laneStack st)) as [|[p pl] below].
  - intros H. injection H as <-. cbn. split; [|split].
    + intros a Ha. apply in_or_app. left. exact Ha.
    + intros a c Hc. exists c.
      rewrite nth_error_app1 by (eapply nth_error_bound; eauto).
      split; [exact Hc|]. split; [reflexivity | apply incl_refl].
    + intros a c' Hc'. apply nth_error_snoc in Hc'.
      destruct Hc' as [[_ Hc'] | [Ha _]]; [right; eauto | left; exact Ha].
  - destruct (nth_error (heap st) p) as [cp|] eqn:Hcp; [|discriminate].
    intros H. injection H as <-. cbn. split; [|split].
    + auto.
    + intros a c Hc. rewrite nth_error_updateCell.
      rewrite nth_error_app1 by (eapply nth_error_bound; eauto). rewrite Hc.
      destruct (Nat.eqb a p); cbn.
      * eexists. split; [reflexivity|]. split; [reflexivity|].
        cbn. apply incl_appl, incl_refl.
      * exists c. split; [reflexivity|]. split; [reflexivity | apply incl_refl].
    + intros a c' Hc'. rewrite nth_error_updateCell in Hc'.
      destruct (Nat.lt_ge_cases a (length (heap st))) as [Hlt | Hge].
      * right. rewrite nth_error_app1 in Hc' by exact Hlt.
        destruct (nth_error (heap st) a) as [c|] eqn:Hc.
        2: { destruct (Nat.eqb a p); discriminate. }
        exists c. split; [reflexivity|].
        destruct (Nat.eqb a p); cbn in Hc'; injection Hc' as <-; reflexivity.
      * left. assert (Hsome : nth_error (heap st ++
                     [mkLaneCell laneId (setParentId data (Some (cell_id cp)))
                        (map (@ChildItem nat) (fst r))]) a <> None).
        { destruct (Nat.eqb a p); intros Hn; rewrite Hn in Hc'; discriminate. }
        apply nth_error_Some in Hsome. rewrite length_app in Hsome. cbn in Hsome. lia.
Qed.

Lemma nth_error_same {A : Type} (l : list A) (n : nat) (x y : A) :
  nth_error l n = Some x -> nth_error l n = Some y -> x = y.
Proof.
  congruence.
Qed.

(** One block on, the assembler still tracks the headings behind it. *)
Lemma tracks_step (siblings : list Node) (md : string) (st st' : Assembly)
    (index : nat) (child : Node) :
  nth_error siblings index = Some child ->
  tracks E siblings md index st ->
  headingStep E siblings md st index child = Ok st' ->
  tracks E siblings md (S index) st'.
Proof.
  intros Hnth (Hlinked & Hcells & Hlanes & Harch & Hitems) Hstep.
  assert (Hhere : forall i (P : Prop), (i < S index)%nat -> ((i < index)%nat -> P) ->
                                       (i = index -> P) -> P).
  { intros i P Hi Hold Hnew. destruct (Nat.eq_dec i index); [auto | apply Hold; lia]. }
  destruct (headingStep_cases siblings md st st' index child Hstep)
    as [(Hty & ->) | [(Hty & Hopen & l & r & Hl & Hmake & ->)
                     | (Hty & Hopen & shouldMark & r & Hlink)]].
  - (* not a heading *)
    split; [exact Hlinked|]. split; [|split; [|split]].
    + intros a c Hc. destruct (Hcells a c Hc) as (i & ch & Hi & R).
      exists i, ch. split; [lia | exact R].
    + intros i ch Hi Hh. apply (Hhere i); [exact Hi | intros; eauto |].
      intros ->. destruct Hh as (Hn & Hh & _).
      rewrite (nth_error_same _ _ _ _ Hn Hnth) in Hh. congruence.
    + intros i ch Hi Hh. apply (Hhere i); [exact Hi | intros; eauto |].
      intros ->. destruct Hh as (Hn & Hh & _).
      rewrite (nth_error_same _ _ _ _ Hn Hnth) in Hh. congruence.
    + intros it Hit. destruct (Hitems it Hit) as (i & ch & l & li & Hi & R).
      exists i, ch, l, li. split; [lia | exact R].
  - (* the archive section *)
    apply makeItems_spec in Hmake. cbn.
    split; [exact Hlinked|]. split; [|split; [|split]].
    + intros a c Hc. destruct (Hcells a c Hc) as (i & ch & Hi & R).
      exists i, ch. split; [lia | exact R].
    + intros i ch Hi Hh. apply (Hhere i); [exact Hi | intros; eauto |].
      intros ->. destruct Hh as (Hn & _ & Hh).
      rewrite (nth_error_same _ _ _ _ Hn Hnth) in Hh. congruence.
    + intros i ch Hi Hh. apply (Hhere i); [exact Hi | |].
      * intros Hlt. destruct (Harch i ch Hlt Hh) as (l0 & Hl0 & Hall).
        exists l0. split; [exact Hl0|]. intros li Hli.
        destruct (Hall li Hli) as (it & Hit & Hd).
        exists it. split; [apply in_or_app; left; exact Hit | exact Hd].
      * intros ->. exists l. split; [exact Hl|]. intros li Hli.
        destruct (Forall2_In_l _ _ _ _ Hmake Hli) as (it & Hit & Hd).
        exists it. split; [apply in_or_app; right; exact Hit | exact Hd].
    + intros it Hit. apply in_app_or in Hit. destruct Hit as [Hit | Hit].
      * destruct (Hitems it Hit) as (i & ch & l0 & li & Hi & R).
        exists i, ch, l0, li. split; [lia | exact R].
      * destruct (Forall2_In_r _ _ _ _ Hmake Hit) as (li & Hli & Hd).
        exists index, child, l, li. split; [lia|].
        split; [repeat split; assumption|]. auto.
  - (* a lane *)
    destruct (linkLane_grows _ _ _ _ _ _ Hlink) as (Gl & Gold & Gnew).
    destruct (linkLane_spec _ _ _ _ _ _ Hlink)
      as (Sarch & Slen & cell & Scell & _ & Stitle & Slevel & Slinked).
    assert (Hnewcell : laneOfHeading E md child (cell_data cell)).
    { split; [rewrite Stitle | rewrite Slevel]; reflexivity. }
    split; [|split; [|split; [|split]]].
    + intros a Ha. rewrite Slen in Ha.
      destruct (Nat.eq_dec a (length (heap st))) as [-> | Hne]; [exact Slinked|].
      destruct (Hlinked a) as [Htop | (p & cp & Hp & Hchild)]; [lia | left; auto |].
      destruct (Gold p cp Hp) as (cp' & Hp' & _ & Hincl).
      right. exists p, cp'. split; [exact Hp' | apply Hincl, Hchild].
    + intros a c' Hc'. destruct (Gnew a c' Hc') as [-> | (c & Hc & Hd)].
      * assert (c' = cell) by congruence. subst c'.
        exists index, child. split; [lia|]. split; [repeat split; assumption | exact Hnewcell].
      * destruct (Hcells a c Hc) as (i & ch & Hi & R1 & R2).
        exists i, ch. split; [lia|]. split; [exact R1|]. rewrite Hd. exact R2.
    + intros i ch Hi Hh. apply (Hhere i); [exact Hi | |].
      * intros Hlt. destruct (Hlanes i ch Hlt Hh) as (a & c & Hc & R).
        destruct (Gold a c Hc) as (c' & Hc' & Hd & _).
        exists a, c'. split; [exact Hc'|]. rewrite Hd. exact R.
      * intros ->. destruct Hh as (Hn & _).
        rewrite (nth_error_same _ _ _ _ Hn Hnth).
        exists (length (heap st)), cell. split; [exact Scell | exact Hnewcell].
    + intros i ch Hi Hh. apply (Hhere i); [exact Hi | |].
      * intros Hlt. destruct (Harch i ch Hlt Hh) as (l0 & Hl0 & Hall).
        exists l0. split; [exact Hl0|]. rewrite Sarch. exact Hall.
      * intros ->. destruct Hh as (Hn & _ & Hh).
        rewrite (nth_error_same _ _ _ _ Hn Hnth) in Hh. congruence.
    + intros it Hit. rewrite Sarch in Hit.
      destruct (Hitems it Hit) as (i & ch & l0 & li & Hi & R).
      exists i, ch, l0, li. split; [lia | exact R].
Qed.

Lemma skipn_cons_nth {A : Type} (l rest : list A) (n : nat) (x : A) :
  skipn n l = x :: rest -> nth_error l n = Some x /\ skipn (S n) l = rest.
Proof.
  revert l. induction n as [|n IH]; intros [|y l]; cbn; try discriminate.
  - intros H. injection H as <- <-. auto.
  - intros H. apply (IH l H).
Qed.

Lemma forEachFrom_tracks (siblings : list Node) (md : string) (rest : list Node) :
  forall index st st',
    skipn index siblings = rest ->
    tracks E siblings md index st ->
    forEachFrom E siblings md index rest st = Ok st' ->
    tracks E siblings md (length siblings) st'.
Proof.
  induction rest as [|child rest IH]; cbn; intros index st st' Hskip Htr H.
  - injection H as <-.
    assert (Hlen : (length siblings <= index)%nat).
    { destruct (Nat.le_gt_cases (length siblings) index) as [Hle | Hgt]; [exact Hle|].
      exfalso. assert (Hl : length (skipn index siblings) = 0%nat) by now rewrite Hskip.
      rewrite length_skipn in Hl. lia. }
    destruct Htr as (T1 & T2 & T3 & T4 & T5).
    split; [exact T1|]. split; [|split; [|split]].
    + intros a c Hc. destruct (T2 a c Hc) as (i & ch & _ & R1 & R2).
      exists i, ch. split; [|auto].
      destruct R1 as (Hn & _). eapply nth_error_Some. congruence.
    + intros i ch Hi. apply T3. lia.
    + intros i ch Hi. apply T4. lia.
    + intros it Hit. destruct (T5 it Hit) as (i & ch & l & li & _ & R1 & R2).
      exists i, ch, l, li. split; [|auto].
      destruct R1 as (Hn & _). eapply nth_error_Some. congruence.
  - bind_inv H. apply skipn_cons_nth in Hskip. destruct Hskip as (Hnth & Hskip).
    apply (IH (S index) a st' Hskip); [|exact H].
    eapply tracks_step; eauto.
Qed.

Lemma emptyAssembly_tracks (siblings : list Node) (md : string) :
  tracks E siblings md 0 emptyAssembly.
Proof.
  unfold tracks, linked, emptyAssembly. cbn. split; [intros a Ha; lia|].
  split; [intros [|a] c Hc; discriminate|].
  split; [intros i ch Hi; lia|]. split; [intros i ch Hi; lia | intros it []].
Qed.

Lemma opensArchive_iff (siblings : list Node) (index : nat) (child : Node) :
  isType child "heading" = true ->
  (opensArchive E siblings index child = true <->
   toString false child = t_Archive E
   /\ (exists prev, getPrevSibling siblings index = Some prev
                    /\ isType prev "thematicBreak" = true)
   /\ exists l, listAfter E siblings index = Some l).
Proof.
  intros Hty. unfold opensArchive. rewrite andb_true_iff, isArchiveLane_iff, Hty.
  destruct (listAfter E siblings index) as [l|]; cbn [isSome].
  - split; [intros ((_ & H1 & H2) & _); eauto | intros (H1 & H2 & _); auto].
  - split; [intros (_ & H); discriminate | intros (_ & _ & l & Hl); discriminate].
Qed.

End TrackFacts.

Section ArchiveOrder.
Variable E : Env.

Lemma headingStep_archive (siblings : list Node) (md : string) (st st' : Assembly)
    (index : nat) (child : Node) :
  headingStep E siblings md st index child = Ok st' ->
  exists items,
    archiveItems st' = archiveItems st ++ items
    /\ Forall2 (fun li it => listItemToItemData E md li = Ok (item_data it))
         (archiveSourceAt E siblings index child) items.
Proof.
  intros Hstep. unfold archiveSourceAt.
  destruct (headingStep_cases E siblings md st st' index child Hstep)
    as [(Hty & ->) | [(Hty & Hopen & l & r & Hl & Hmake & ->)
                     | (Hty & Hopen & shouldMark & r & Hlink)]].
  - rewrite Hty. exists []. rewrite app_nil_r. split; [reflexivity | constructor].
  - rewrite Hty, Hopen, Hl. cbn. exists (fst r).
    split; [reflexivity | eapply makeItems_spec; eauto].
  - rewrite Hty, Hopen. cbn. exists [].
    destruct (linkLane_spec _ _ _ _ _ _ Hlink) as (-> & _).
    rewrite app_nil_r. split; [reflexivity | constructor].
Qed.

Lemma forEachFrom_archive (siblings : list Node) (md : string) (rest : list Node) :
  forall index st st',
    forEachFrom E siblings md index rest st = Ok st' ->
    exists items,
      archiveItems st' = archiveItems st ++ items
      /\ Forall2 (fun li it => listItemToItemData E md li = Ok (item_data it))
           (archiveSourcesFrom E siblings index rest) items.
Proof.
  induction rest as [|child rest IH]; cbn; intros index st st' H.
  - injection H as <-. exists []. rewrite app_nil_r. split; [reflexivity | constructor].
  - bind_inv H.
    destruct (headingStep_archive siblings md st a index child Ha) as (i1 & E1 & F1).
    destruct (IH (S index) a st' H) as (i2 & E2 & F2).
    exists (i1 ++ i2). rewrite E2, E1, app_assoc. split; [reflexivity|].
    apply Forall2_app; assumption.
Qed.

End ArchiveOrder.

Lemma orOne_idem (n : option Z) : orOne (Some (orOne n)) = orOne n.
Proof.
  unfold orOne. destruct n as [v|]; [|reflexivity].
  destruct (Z.eqb_spec v 0) as [-> | Hne]; [reflexivity|].
  destruct (Z.eqb_spec v 0); [contradiction | reflexivity].
Qed.

Section BoardLanes.
Variable E : Env.

Lemma assemble_tracks (root : Node) (md : string) (st : Assembly) :
  assemble E root md = Ok st ->
  tracks E (children root) md (length (children root)) st.
Proof.
  intros Ha.
  apply (forEachFrom_tracks E (children root) md (children root) 0 emptyAssembly st);
    [reflexivity | apply emptyAssembly_tracks | exact Ha].
Qed.

(** Every lane heading of the document has its lane in the lane tree. *)
Lemma boardLanes_complete (settings_ : KanbanSettings) (frontmatter_ : Frontmatter)
    (root : Node) (md : string) (b : Board) :
  astToUnhydratedBoard E settings_ frontmatter_ root md = Ok b ->
  forall index child,
    laneHeading E (children root) index child ->
    exists L, In L (boardLanes b) /\ laneOfHeading E md child (lane_data L).
Proof.
  unfold astToUnhydratedBoard. intros H. bind_inv H. bind_inv H. injection H as <-.
  rename a into st, a0 into top. unfold boardLanes. cbn [board_children].
  destruct (assemble_ok E root md st Ha) as (Hh & _).
  destruct (assemble_tracks root md st Ha) as (Hlinked & _ & Hlanes & _).
  intros index child Hh'.
  destruct (Hlanes index child) as (a & c & Hc & Hof); [|exact Hh'|].
  { destruct Hh' as (Hn & _). apply nth_error_Some. congruence. }
  destruct (every_cell_in_forest (heap st) (lanes st) top Hh Hlinked Ha0 a c Hc)
    as (L & HL & Hdata & _).
  exists L. split; [exact HL|]. rewrite Hdata. exact Hof.
Qed.

(** Every lane of the lane tree is the lane of a lane heading. *)
Lemma boardLanes_origin (settings_ : KanbanSettings) (frontmatter_ : Frontmatter)
    (root : Node) (md : string) (b : Board) :
  astToUnhydratedBoard E settings_ frontmatter_ root md = Ok b ->
  forall L, In L (boardLanes b) ->
    exists index child,
      laneHeading E (children root) index child
      /\ laneOfHeading E md child (lane_data L).
Proof.
  unfold astToUnhydratedBoard. intros H. bind_inv H. bind_inv H. injection H as <-.
  rename a into st, a0 into top. unfold boardLanes. cbn [board_children].
  destruct (assemble_tracks root md st Ha) as (_ & Hcells & _).
  intros L HL. apply in_flat_map in HL. destruct HL as (T & HT & HLT).
  apply mapM_Forall2 in Ha0.
  destruct (Forall2_In_r _ _ _ _ Ha0 HT) as (a & _ & Hr).
  destruct (lanesIn_reify (heap st) _ a T Hr L HLT) as (b & c & Hc & Hdata).
  destruct (Hcells b c Hc) as (i & ch & _ & R1 & R2).
  exists i, ch. split; [exact R1|]. rewrite Hdata. exact R2.
Qed.

(** The archive of the board: the items of the lists of the archive
    headings, in document order. *)
Lemma board_archive (settings_ : KanbanSettings) (frontmatter_ : Frontmatter)
    (root : Node) (md : string) (b : Board) :
  astToUnhydratedBoard E settings_ frontmatter_ root md = Ok b ->
  Forall2 (fun li it => listItemToItemData E md li = Ok (item_data it))
    (archiveSources E (children root)) (archive (board_data b))
  /\ forall index child,
       archiveHeading E (children root) index child ->
       exists l, listAfter E (children root) index = Some l
         /\ forall li, In li (children l) ->
              exists it, In it (archive (board_data b))
                         /\ listItemToItemData E md li = Ok (item_data it).
Proof.
  unfold astToUnhydratedBoard. intros H. bind_inv H. bind_inv H. injection H as <-.
  rename a into st, a0 into top. cbn [board_data archive]. split.
  - destruct (forEachFrom_archive E (children root) md (children root) 0 emptyAssembly st Ha)
      as (items & Heq & HF).
    cbn in Heq. rewrite Heq. exact HF.
  - destruct (assemble_tracks root md st Ha) as (_ & _ & _ & Harch & _).
    intros index child Hh'. apply (Harch index child); [|exact Hh'].
    destruct Hh' as (Hn & _). apply nth_error_Some. congruence.
Qed.

(** A lane read from a heading of depth [d] is written with [d + 1] heading
    markers: one more than the heading it was read from. *)
Lemma parsed_lane_written_deeper (settings_ : KanbanSettings) (frontmatter_ : Frontmatter)
    (root : Node) (md : string) (b : Board) :
  astToUnhydratedBoard E settings_ frontmatter_ root md = Ok b ->
  forall L, In L (boardLanes b) ->
    exists index child n,
      laneHeading E (children root) index child
      /\ level (lane_data L) = Some (orOne (depth child))
      /\ Z.of_nat n = Z.max 1 (orOne (depth child) + 1)
      /\ headingLine E (lane_data L) =
           repeatNat "#" n +:+ " "
             +:+ replaceNewLines E
                   (laneTitleWithMaxItems E (l_title (lane_data L))
                      (maxItems (lane_data L))).
Proof.
  intros Hb L HL.
  destruct (boardLanes_origin _ _ _ _ _ Hb L HL) as (index & child & Hh & _ & Hlevel).
  exists index, child, (Z.to_nat (Z.max 1 (orOne (depth child) + 1))).
  split; [exact Hh|]. split; [exact Hlevel|]. split; [rewrite Z2Nat.id; lia|].
  unfold headingLine, headingPrefix, repeat. rewrite Hlevel, orOne_idem. reflexivity.
Qed.

End BoardLanes.

(** C5, as amended: a heading whose text is the localized "Archive", whose
    directly preceding sibling is a thematic break, and after which a list is
    found, is the archive section: the items of that list are appended to
    [board.data.archive] (which holds the items of such lists and nothing
    else, in document order) and the heading is not a lane. Every other
    heading, an archive heading with no list after it included, is an ordinary
    lane heading: the lanes of the lane tree, nested ones included, are the
    lanes of exactly those headings. *)
Theorem archive_section_needs_list (E : Env) (settings_ : KanbanSettings)
    (frontmatter_ : Frontmatter) (root : Node) (md : string) (b : Board) :
  astToUnhydratedBoard E settings_ frontmatter_ root md = Ok b ->
  (forall index child,
     archiveHeading E (children root) index child <->
     nth_error (children root) index = Some child
     /\ isType child "heading" = true
     /\ toString false child = t_Archive E
     /\ (exists prev, getPrevSibling (children root) index = Some prev
                      /\ isType prev "thematicBreak" = true)
     /\ exists l, listAfter E (children root) index = Some l)
  /\ (forall index child,
        archiveHeading E (children root) index child ->
        exists l, listAfter E (children root) index = Some l
          /\ forall li, In li (children l) ->
               exists it, In it (archive (board_data b))
                          /\ listItemToItemData E md li = Ok (item_data it))
  /\ Forall2 (fun li it => listItemToItemData E md li = Ok (item_data it))
       (archiveSources E (children root)) (archive (board_data b))
  /\ (forall index child,
        laneHeading E (children root) index child ->
        exists L, In L (boardLanes b) /\ laneOfHeading E md child (lane_data L))
  /\ (forall L, In L (boardLanes b) ->
        exists index child,
          laneHeading E (children root) index child
          /\ laneOfHeading E md child (lane_data L)).
Proof.
  intros Hb. split; [|split; [|split; [|split]]].
  - intros index child. unfold archiveHeading. split.
    + intros (Hn & Hty & Hopen). apply (opensArchive_iff E _ _ _ Hty) in Hopen. tauto.
    + intros (Hn & Hty & R). split; [exact Hn|]. split; [exact Hty|].
      apply (opensArchive_iff E _ _ _ Hty). tauto.
  - apply (board_archive E _ _ _ _ _ Hb).
  - apply (board_archive E _ _ _ _ _ Hb).
  - apply (boardLanes_complete E _ _ _ _ _ Hb).
  - apply (boardLanes_origin E _ _ _ _ _ Hb).
Qed.

Lemma archive_section_needs_list_witness :
  Forall2 (fun li it => listItemToItemData Demo.env Demo.archiveDoc li = Ok (item_data it))
    (archiveSources Demo.env (children Demo.archiveRoot))
    (archive (board_data (Demo.get (Demo.boardOf []) (Demo.parseBoard Demo.archiveDoc)))).
Proof.
  destruct (archive_section_needs_list Demo.env [] [] Demo.archiveRoot Demo.archiveDoc
              (Demo.get (Demo.boardOf []) (Demo.parseBoard Demo.archiveDoc)))
    as (_ & _ & Hitems & _).
  - vm_compute. reflexivity.
  - exact Hitems.
Defined.

(** C5, as stated, fails: an archive heading under a rule with no list after
    it becomes an ordinary lane of the board. *)
Lemma bare_archive_heading_becomes_lane :
  isArchiveLane Demo.env (Demo.nthNode 2 Demo.bareArchiveRoot)
    (children Demo.bareArchiveRoot) 2 = true
  /\ exists b,
       Demo.parseBoard Demo.bareArchiveDoc = Ok b
       /\ map (fun L => l_title (lane_data L)) (board_children b) = ["A"; "Archive"]%string
       /\ archive (board_data b) = [].
Proof.
  split; [vm_compute; reflexivity|].
  eexists. split; [vm_compute; reflexivity|].
  split; reflexivity.
Qed.

(** ** Bulk reparse *)

Section ReparseFacts.
Variable E : Env.


Lemma reparseChild_spec (c c' : Child Lane) :
  reparseChild E c = Ok c' ->
  match c with
  | ChildItem it =>
      exists it', c' = ChildItem it'
                  /\ updateItemContent E it (titleRaw (item_data it)) = Ok it'
  | ChildLane l => c' = ChildLane l
  end.
Proof.
  destruct c as [it | l]; cbn; intros H.
  - bind_inv H. injection H as <-. eauto.
  - injection H as <-. reflexivity.
Qed.

End ReparseFacts.




(** C3, as amended: in the board [reparseBoard] returns, every item that is a
    direct child of a top-level lane is replaced by the result of
    [updateItemContent] on its [titleRaw]; every nested lane is returned as it
    was, and so are the lanes' ids and data and the board's. *)
Theorem reparse_renormalizes_direct_items (E : Env) (board b' : Board) :
  returned (reparseBoard E board) = Ok b' ->
  board_id b' = board_id board
  /\ board_data b' = board_data board
  /\ Forall2
       (fun lane lane' =>
          lane_id lane' = lane_id lane
          /\ lane_data lane' = lane_data lane
          /\ Forall2
               (fun c c' =>
                  match c with
                  | ChildItem it =>
                      exists it', c' = ChildItem it'
                        /\ updateItemContent E it (titleRaw (item_data it)) = Ok it'
                  | ChildLane l => c' = ChildLane l
                  end)
               (lane_children lane) (lane_children lane'))
       (board_children board) (board_children b').
Proof.
  unfold reparseBoard.
  destruct (mapM (reparseLane E) (board_children board)) as [top | e] eqn:Htop;
    cbn; [|discriminate].
  intros H. injection H as <-. cbn. split; [reflexivity|]. split; [reflexivity|].
  apply mapM_Forall2 in Htop.
  induction Htop as [|lane lane' lanes_ top' Hl _ IH]; constructor; [|exact IH].
  unfold reparseLane in Hl. bind_inv Hl. injection Hl as <-. cbn.
  split; [reflexivity|]. split; [reflexivity|].
  apply mapM_Forall2 in Ha.
  induction Ha as [|c c' cs cs' Hc _ IHc]; constructor; [|exact IHc].
  apply reparseChild_spec, Hc.
Qed.

Lemma reparse_renormalizes_direct_items_witness :
  let b' := Demo.get Demo.mixedBoard (returned (reparseBoard Demo.env Demo.mixedBoard)) in
  board_id b' = board_id Demo.mixedBoard
  /\ board_data b' = board_data Demo.mixedBoard
  /\ Forall2
       (fun lane lane' =>
          lane_id lane' = lane_id lane
          /\ lane_data lane' = lane_data lane
          /\ Forall2
               (fun c c' =>
                  match c with
                  | ChildItem it =>
                      exists it', c' = ChildItem it'
                        /\ updateItemContent Demo.env it (titleRaw (item_data it)) = Ok it'
                  | ChildLane l => c' = ChildLane l
                  end)
               (lane_children lane) (lane_children lane'))
       (board_children Demo.mixedBoard) (board_children b').
Proof.
  apply (reparse_renormalizes_direct_items Demo.env Demo.mixedBoard).
  vm_compute. reflexivity.
Defined.

(** C3, as stated, fails: the item of a nested lane comes back as it was, not
    as [updateItemContent] would renormalize it. *)
Lemma nested_item_not_reparsed :
  exists b' it',
    returned (reparseBoard Demo.env Demo.nestedBoard) = Ok b'
    /\ flat_map itemsIn (board_children b') = [Demo.staleItem]
    /\ updateItemContent Demo.env Demo.staleItem (titleRaw (item_data Demo.staleItem))
        = Ok it'
    /\ title (item_data it') = "x"%string
    /\ title (item_data Demo.staleItem) = EmptyString.
Proof.
  eexists. eexists. split; [vm_compute; reflexivity|].
  split; [reflexivity|]. split; [vm_compute; reflexivity|].
  split; reflexivity.
Qed.

(** ** Round trip *)

(** C1 fails on the code: the assembler takes a lane's level from the depth of
    its heading, the serializer writes the heading with one marker more than
    the level, so each parse of a serialized board finds every lane one level
    deeper. Here the one-lane document [## A] is parsed (level 2), written
    back ([### A]) and parsed again (level 3). *)
Theorem roundtrip_deepens_levels :
  exists b b',
    Demo.parseBoard Demo.oneLaneDoc = Ok b
    /\ map (fun L => level (lane_data L)) (board_children b) = [Some 2]
    /\ boardToMd Demo.env b =
         Demo.lines ["---"; EmptyString; EmptyString; "---"; EmptyString;
                     "### A"; EmptyString; "- [ ] x"; EmptyString; EmptyString;
                     EmptyString]%string
    /\ Demo.parseBoard (boardToMd Demo.env b) = Ok b'
    /\ map (fun L => level (lane_data L)) (board_children b') = [Some 3]
    /\ map (fun L => l_title (lane_data L)) (board_children b')
        = map (fun L => l_title (lane_data L)) (board_children b)
    /\ map (fun i => titleRaw (item_data i)) (flat_map itemsIn (board_children b'))
        = map (fun i => titleRaw (item_data i)) (flat_map itemsIn (board_children b)).
Proof.
  eexists. eexists. split; [vm_compute; reflexivity|].
  split; [reflexivity|]. split; [vm_compute; reflexivity|].
  split; [vm_compute; reflexivity|].
  repeat split.
Qed.

(* ------------------------------------------------------------------ *)
(** * Further properties of the code *)

(** ** The item decomposer, part by part *)

Section DecomposeParts.
Variable E : Env.

Lemma metadataStep_split (start : Z) (d : ItemData) (t : string)
    (np : Node * option Node) :
  metadataStep E start (d, t) np =
  (d' <- dataStep d np ;;
   Ok (d', if marksTitle E np
           then markRangeForDeletion E t (relativeRange start (fst np)) else t)).
Proof.
  unfold metadataStep, dataStep, marksTitle, markIf. destruct np as [n p]. cbn [fst].
  unfold isType.
  destruct (String.eqb_spec (type n) "paragraph") as [e|_]; [rewrite e; reflexivity|].
  destruct (String.eqb_spec (type n) "blockid") as [e|_]; [rewrite e; reflexivity|].
  destruct (String.eqb (type n) "hashtag").
  { destruct (inFencedCode p) as [[|]|e]; cbn; destruct (moveTags E); reflexivity. }
  destruct (String.eqb (type n) "date"); cbn.
  { destruct (moveDates E); reflexivity. }
  destruct (String.eqb (type n) "dateLink"); cbn.
  { destruct (moveDates E); reflexivity. }
  destruct (String.eqb (type n) "time"); cbn.
  { destruct (moveDates E); reflexivity. }
  repeat match goal with
         | |- context [if ?c then _ else _] => destruct c
         end; reflexivity.
Qed.

Lemma metadataFold_split (start : Z) (xs : list (Node * option Node)) :
  forall d t,
    foldM (metadataStep E start) xs (d, t) =
    (d' <- foldM dataStep xs d ;;
     Ok (d', fold_left (markRangeForDeletion E)
               (map (fun np => relativeRange start (fst np)) (filter (marksTitle E) xs))
               t)).
Proof.
  induction xs as [|x xs IH]; intros d t; [reflexivity|].
  cbn [foldM filter]. rewrite metadataStep_split.
  destruct (dataStep d x) as [d1|e]; [|reflexivity]. cbn [bind]. rewrite IH.
  destruct (marksTitle E x); reflexivity.
Qed.

Lemma decomposeTitle_split (md : string) (item : Node) :
  decomposeTitle E md item =
  (d <- coreData E md item ;; Ok (setTitle d (markedTitle E md item))).
Proof.
  unfold decomposeTitle, coreData, markedTitle, markedRanges, itemContent, itemStart,
    itemEnd.
  destruct (children item) as [|startNode rest]; [reflexivity|].
  destruct (foldM searchStep (preorder None item) EmptyString) as [ts|e]; [|reflexivity].
  cbn [bind]. rewrite metadataFold_split.
  match goal with
  | |- (x <- (d' <- ?r ;; _) ;; _) = _ => destruct r as [d'|e]; reflexivity
  end.
Qed.

Lemma listItemToItemData_split (md : string) (item : Node) :
  listItemToItemData E md item =
  (d <- coreData E md item ;;
   Ok (sortTags E (applyInlineFields E (setTitle d (markedTitle E md item))))).
Proof.
  unfold listItemToItemData. rewrite decomposeTitle_split.
  destruct (coreData E md item); reflexivity.
Qed.

(** What one assignment of the second visitor changes. *)
Lemma dataStep_fields (d d' : ItemData) (np : Node * option Node) :
  dataStep d np = Ok d' ->
  blockId d' = (if isBlockIdNode (fst np) then value (fst np) else blockId d)
  /\ dateStr (metadata d') =
       (if isDateNode (fst np) then date (fst np) else dateStr (metadata d))
  /\ timeStr (metadata d') =
       (if isTimeNode (fst np) then time (fst np) else timeStr (metadata d)).
Proof.
  unfold dataStep, isBlockIdNode, isDateNode, isTimeNode. destruct np as [n p].
  cbn [fst]. unfold isType.
  destruct (String.eqb_spec (type n) "paragraph") as [e|_].
  { rewrite e. cbn. intros H. injection H as <-. auto. }
  destruct (String.eqb_spec (type n) "blockid") as [e|_].
  { rewrite e. cbn. intros H. injection H as <-. auto. }
  destruct (String.eqb_spec (type n) "hashtag") as [e|_].
  { rewrite e. cbn. destruct (inFencedCode p) as [[|]|e']; cbn; intros H;
      try discriminate; injection H as <-; auto. }
  destruct (String.eqb_spec (type n) "date") as [e|_]; cbn.
  { rewrite e. cbn. intros H. injection H as <-. auto. }
  destruct (String.eqb_spec (type n) "dateLink") as [e|_]; cbn.
  { rewrite e. cbn. intros H. injection H as <-. auto. }
  destruct (String.eqb (type n) "time"); cbn.
  { intros H. injection H as <-. auto. }
  repeat match goal with
         | |- context [if ?c then _ else _] => destruct c
         end; intros H; injection H as <-; auto.
Qed.

End DecomposeParts.

Lemma lastOpt_cons {A : Type} (x : A) (l : list A) :
  lastOpt (x :: l) = match lastOpt l with
                     | Some y => Some y
                     | None => Some x
                     end.
Proof.
  destruct l as [|y l]; [reflexivity|].
  change (lastOpt (x :: y :: l)) with (lastOpt (y :: l)).
  destruct (lastOpt (y :: l)) eqn:H; [reflexivity|].
  exfalso. revert y H. induction l as [|z l IH]; intros y H; [discriminate|].
  apply (IH z). exact H.
Qed.

Lemma lastOpt_filter_cons {A : Type} (p : A -> bool) (x : A) (l : list A) :
  lastOpt (filter p (x :: l)) =
  match lastOpt (filter p l) with
  | Some y => Some y
  | None => if p x then Some x else None
  end.
Proof.
  cbn [filter]. destruct (p x); [apply lastOpt_cons|].
  destruct (lastOpt (filter p l)); reflexivity.
Qed.

Lemma dataFold_last (xs : list (Node * option Node)) :
  forall d d',
    foldM dataStep xs d = Ok d' ->
    blockId d' = match lastOpt (filter isBlockIdNode (map fst xs)) with
                 | Some n => value n
                 | None => blockId d
                 end
    /\ dateStr (metadata d') = match lastOpt (filter isDateNode (map fst xs)) with
                               | Some n => date n
                               | None => dateStr (metadata d)
                               end
    /\ timeStr (metadata d') = match lastOpt (filter isTimeNode (map fst xs)) with
                               | Some n => time n
                               | None => timeStr (metadata d)
                               end.
Proof.
  induction xs as [|x xs IH]; intros d d' H.
  - injection H as <-. auto.
  - cbn [foldM] in H. bind_inv H. apply dataStep_fields in Ha.
    destruct Ha as (A1 & A2 & A3). destruct (IH a d' H) as (B1 & B2 & B3).
    cbn [map]. rewrite !lastOpt_filter_cons, B1, B2, B3, A1, A2, A3.
    repeat split.
    + destruct (lastOpt (filter isBlockIdNode (map fst xs))); [reflexivity|].
      destruct (isBlockIdNode (fst x)); reflexivity.
    + destruct (lastOpt (filter isDateNode (map fst xs))); [reflexivity|].
      destruct (isDateNode (fst x)); reflexivity.
    + destruct (lastOpt (filter isTimeNode (map fst xs))); [reflexivity|].
      destruct (isTimeNode (fst x)); reflexivity.
Qed.

(** What the inline-field pass and the sort leave of the item data they are
    given. *)
Lemma finished_fields (E : Env) (d : ItemData) (t : string) :
  let r := sortTags E (applyInlineFields E (setTitle d t)) in
  blockId r = blockId d
  /\ d_checked r = d_checked d
  /\ d_checkChar r = d_checkChar d
  /\ titleRaw r = titleRaw d
  /\ titleSearch r = titleSearch d
  /\ titleSearchRaw r = titleSearchRaw d
  /\ forceEditMode r = forceEditMode d
  /\ dateStr (metadata r) = dateStr (metadata d)
  /\ timeStr (metadata r) = timeStr (metadata d)
  /\ tags (metadata r) = sortBy (defaultSort E) (tags (metadata d))
  /\ md_fileAccessor (metadata r) = md_fileAccessor (metadata d)
  /\ md_fileMetadata (metadata r) = md_fileMetadata (metadata d)
  /\ md_fileMetadataOrder (metadata r) = md_fileMetadataOrder (metadata d).
Proof.
  unfold sortTags, applyInlineFields. cbn [title setTitle].
  destruct (extractInlineFields E t true); [cbn; repeat split|].
  destruct (moveTaskData E || _); cbn; repeat split.
Qed.

Lemma coreData_initial (E : Env) (md : string) (item : Node) (d : ItemData) :
  coreData E md item = Ok d ->
  blockId d = match lastNode isBlockIdNode item with
              | Some n => value n
              | None => None
              end
  /\ dateStr (metadata d) = match lastNode isDateNode item with
                            | Some n => date n
                            | None => None
                            end
  /\ timeStr (metadata d) = match lastNode isTimeNode item with
                            | Some n => time n
                            | None => None
                            end.
Proof.
  unfold coreData, lastNode. destruct (children item) as [|s rest]; [discriminate|].
  intros H. bind_inv H. apply dataFold_last in H. exact H.
Qed.

(** X1: a list item of the syntax tree fails to decompose in exactly one
    case: it has no children; the exception is then the TypeError of reading
    the type of its missing first child. With at least one child it always
    decomposes, whatever nodes it contains. *)
Theorem decomposer_throws_iff (E : Env) (md : string) (item : Node) :
  type item = "listItem"%string ->
  forall e,
    listItemToItemData E md item = Throw e <->
    children item = [] /\ e = TypeError "startNode is undefined".
Proof.
  intros Hty e. split.
  - intros H. destruct (children item) as [|c rest] eqn:Hch.
    + unfold listItemToItemData, decomposeTitle in H. rewrite Hch in H.
      cbn in H. injection H as <-. auto.
    + destruct (decomposeTitle_returns E md item Hty) as [d Hd]; [congruence|].
      unfold listItemToItemData in H. rewrite Hd in H. discriminate.
  - intros (Hch & ->). unfold listItemToItemData, decomposeTitle. rewrite Hch.
    reflexivity.
Qed.

Lemma decomposer_throws_iff_witness :
  listItemToItemData Demo.env Demo.blankMd Demo.blankNode
    = Throw (TypeError "startNode is undefined") <->
  children Demo.blankNode = []
  /\ TypeError "startNode is undefined" = TypeError "startNode is undefined".
Proof.
  apply (decomposer_throws_iff Demo.env Demo.blankMd Demo.blankNode).
  reflexivity.
Defined.

(** X2: when a list item holds several block ids, dates (or date links) or
    times, the one that comes last in document order is the one kept in
    [blockId], [metadata.dateStr] and [metadata.timeStr]; without such a node
    the field is [undefined]. *)
Theorem later_metadata_wins (E : Env) (md : string) (item : Node) (d : ItemData) :
  listItemToItemData E md item = Ok d ->
  blockId d = match lastNode isBlockIdNode item with
              | Some n => value n
              | None => None
              end
  /\ dateStr (metadata d) = match lastNode isDateNode item with
                            | Some n => date n
                            | None => None
                            end
  /\ timeStr (metadata d) = match lastNode isTimeNode item with
                            | Some n => time n
                            | None => None
                            end.
Proof.
  rewrite listItemToItemData_split. intros H. bind_inv H. injection H as <-.
  destruct (finished_fields E a (markedTitle E md item))
    as (F1 & _ & _ & _ & _ & _ & _ & F2 & F3 & _).
  cbv zeta in F1, F2, F3. rewrite F1, F2, F3.
  apply (coreData_initial E md item a Ha).
Qed.

Lemma later_metadata_wins_witness :
  let d := Demo.get Demo.emptyData
             (listItemToItemData Demo.env Demo.twoDatesMd Demo.twoDatesItem) in
  blockId d = None
  /\ dateStr (metadata d) = Some "2024-02-02"%string
  /\ timeStr (metadata d) = None.
Proof.
  apply (later_metadata_wins Demo.env Demo.twoDatesMd Demo.twoDatesItem).
  vm_compute. reflexivity.
Defined.

(** X3: with inline metadata left in the body (move-task-metadata off,
    inline-metadata-position 'body'), the display title is the item's content
    with these ranges, and no others, marked for deletion, in document order:
    each hashtag outside fenced code when move-tags is on, each date, date
    link and time when move-dates is on; the marked text then goes through
    [executeDeletion], [dedentNewLines] and [preprocessTitle]. *)
Theorem display_title_marks (E : Env) (md : string) (item : Node) (d : ItemData) :
  moveTaskData E = false ->
  inlineMetadataPosition E = "body"%string ->
  listItemToItemData E md item = Ok d ->
  title d =
  preprocessTitle E
    (dedentNewLines E
       (executeDeletion E
          (fold_left (markRangeForDeletion E) (markedRanges E item)
             (itemContent E md item)))).
Proof.
  intros Htask Hpos. rewrite listItemToItemData_split. intros H. bind_inv H.
  injection H as <-. unfold sortTags, applyInlineFields. cbn [title setTitle].
  rewrite Htask, Hpos. cbn.
  destruct (extractInlineFields E (markedTitle E md item) true); reflexivity.
Qed.

Lemma display_title_marks_witness :
  title (Demo.get Demo.emptyData
           (listItemToItemData Demo.env Demo.twoDatesMd Demo.twoDatesItem))
  = itemContent Demo.env Demo.twoDatesMd Demo.twoDatesItem.
Proof.
  apply (display_title_marks Demo.env Demo.twoDatesMd Demo.twoDatesItem).
  - reflexivity.
  - reflexivity.
  - vm_compute. reflexivity.
Defined.

(** X4: the four settings the decomposer reads (move-tags, move-dates,
    move-task-metadata, inline-metadata-position) bear on nothing but the
    display title and the inline fields read from it: under any other values
    of them the same item fails with the same exception or yields the same
    raw title, search text, block id, checked state, check character, tags,
    date and time strings and file fields. *)
Theorem move_settings_only_touch_title (E : Env) (tags_ dates_ taskData_ : bool)
    (position_ : string) (md : string) (item : Node) :
  match listItemToItemData E md item,
        listItemToItemData (withMoveSettings E tags_ dates_ taskData_ position_) md item
  with
  | Ok d1, Ok d2 => sameButTitle d1 d2
  | Throw e1, Throw e2 => e1 = e2
  | _, _ => False
  end.
Proof.
  rewrite !listItemToItemData_split.
  change (coreData (withMoveSettings E tags_ dates_ taskData_ position_) md item)
    with (coreData E md item).
  destruct (coreData E md item) as [d|e]; cbn [bind]; [|reflexivity].
  set (E' := withMoveSettings E tags_ dates_ taskData_ position_).
  pose proof (finished_fields E d (markedTitle E md item)) as F1.
  pose proof (finished_fields E' d (markedTitle E' md item)) as F2.
  cbv zeta in F1, F2. unfold sameButTitle.
  destruct F1 as (A1 & A2 & A3 & A4 & A5 & A6 & A7 & A8 & A9 & A10 & A11 & A12 & A13).
  destruct F2 as (B1 & B2 & B3 & B4 & B5 & B6 & B7 & B8 & B9 & B10 & B11 & B12 & B13).
  rewrite A1, A2, A3, A4, A5, A6, A7, A8, A9, A10, A11, A12, A13.
  rewrite B1, B2, B3, B4, B5, B6, B7, B8, B9, B10, B11, B12, B13.
  repeat split.
Qed.

(** ** The assembler: the order of the children of a lane *)

Lemma itemsFirst_snoc_lane {L : Type} (cs : list (Child L)) (l : L) :
  itemsFirst (cs ++ [ChildLane l]) = itemsFirst cs.
Proof.
  induction cs as [|[i|c] cs IH]; cbn; [reflexivity | exact IH |].
  rewrite forallb_app. cbn. now rewrite andb_true_r.
Qed.

Lemma itemsFirst_items {L : Type} (items : list Item) :
  itemsFirst (map (@ChildItem L) items) = true.
Proof.
  induction items as [|i items IH]; [reflexivity | exact IH].
Qed.

Lemma laneRefs_snoc (cs : list (Child nat)) (n : nat) :
  laneRefs (cs ++ [ChildLane n]) = laneRefs cs ++ [n].
Proof.
  induction cs as [|[i|c] cs IH]; cbn; [reflexivity | exact IH | now rewrite IH].
Qed.

Lemma laneRefs_items (items : list Item) : laneRefs (map (@ChildItem nat) items) = [].
Proof.
  induction items as [|i items IH]; [reflexivity | exact IH].
Qed.

Lemma laneRefs_In (cs : list (Child nat)) (b : nat) :
  In b (laneRefs cs) -> In (ChildLane b) cs.
Proof.
  induction cs as [|[i|c] cs IH]; cbn; [auto | auto |].
  intros [-> | H]; auto.
Qed.

Lemma lastOpt_In {A : Type} (l : list A) (x : A) : lastOpt l = Some x -> In x l.
Proof.
  induction l as [|y l IH]; [discriminate|]. rewrite lastOpt_cons.
  destruct (lastOpt l) as [z|].
  - intros H. injection H as ->. right. apply IH. reflexivity.
  - intros H. injection H as ->. left. reflexivity.
Qed.

Lemma lastOpt_snoc {A : Type} (l : list A) (x : A) : lastOpt (l ++ [x]) = Some x.
Proof.
  induction l as [|y l IH]; [reflexivity|].
  cbn [app]. rewrite lastOpt_cons, IH. reflexivity.
Qed.

Lemma lastOpt_app_cons {A : Type} (l1 l2 : list A) (x : A) :
  lastOpt (l1 ++ x :: l2) = lastOpt (x :: l2).
Proof.
  induction l1 as [|y l1 IH]; [reflexivity|].
  cbn [app]. rewrite lastOpt_cons, IH.
  destruct (lastOpt (x :: l2)) eqn:H; [reflexivity|].
  rewrite lastOpt_cons in H. destruct (lastOpt l2); discriminate.
Qed.

Lemma Sorted_snoc {A : Type} (R : A -> A -> Prop) (l : list A) (x : A) :
  Sorted R l ->
  match lastOpt l with
  | Some q => R q x
  | None => True
  end ->
  Sorted R (l ++ [x]).
Proof.
  induction l as [|a l IH]; intros Hs Hlast; [repeat constructor|].
  inversion Hs as [|? ? Hsl Hhd]; subst. rewrite lastOpt_cons in Hlast.
  cbn [app]. destruct l as [|b l].
  - cbn in *. repeat constructor. exact Hlast.
  - constructor.
    + apply IH; [exact Hsl|]. destruct (lastOpt (b :: l)); [exact Hlast | exact I].
    + inversion Hhd; subst. constructor. assumption.
Qed.

Lemma Sorted_weaken_in {A : Type} (R R' : A -> A -> Prop) (l : list A) :
  (forall x y, In x l -> In y l -> R x y -> R' x y) ->
  Sorted R l -> Sorted R' l.
Proof.
  induction l as [|a l IH]; intros Himp Hs; [constructor|].
  inversion Hs as [|? ? Hsl Hhd]; subst. constructor.
  - apply IH; [|exact Hsl]. intros x y Hx Hy. apply Himp; right; assumption.
  - destruct l as [|b l]; constructor. inversion Hhd; subst.
    apply Himp; [left; reflexivity | right; left; reflexivity | assumption].
Qed.

Lemma levelAt_extends (h h' : list LaneCell) (a : nat) :
  extends h h' -> (a < length h)%nat -> levelAt h' a = levelAt h a.
Proof.
  intros Hext Ha. unfold levelAt.
  destruct (nth_error h a) as [c|] eqn:Hc.
  - destruct (Hext a c Hc) as (c' & -> & _ & ->). reflexivity.
  - apply nth_error_None in Hc. lia.
Qed.

Lemma refsDescend_extends (h h' : list LaneCell) (refs : list nat) :
  extends h h' ->
  (forall x, In x refs -> (x < length h)%nat) ->
  refsDescend h refs -> refsDescend h' refs.
Proof.
  intros Hext Hvalid. apply Sorted_weaken_in. intros x y Hx Hy.
  rewrite !(levelAt_extends h h') by auto. auto.
Qed.

Lemma popWhile_split (lvl : Z) (stack : list (nat * Z)) :
  exists popped,
    stack = popped ++ popWhile lvl stack
    /\ forall x, In x popped -> lvl <= snd x.
Proof.
  induction stack as [|[a l] stack IH].
  - exists []. split; [reflexivity | intros x []].
  - cbn [popWhile]. destruct (Z.geb_spec l lvl) as [Hge | Hlt].
    + destruct IH as (popped & Heq & Hall). exists ((a, l) :: popped). split.
      * cbn [app]. now rewrite <- Heq.
      * intros x [<- | Hx]; [cbn; lia | auto].
    + exists []. split; [reflexivity | intros x []].
Qed.

Lemma chainOk_suffix (h : list LaneCell) (l1 l2 : list (nat * Z)) :
  chainOk h (l1 ++ l2) -> chainOk h l2.
Proof.
  induction l1 as [|[q ql] l1 IH]; [auto|]. cbn [app]. intros H. apply IH.
  destruct (l1 ++ l2) as [|[p pl] rest]; [exact I|]. destruct H as (_ & H). exact H.
Qed.

Lemma chainOk_junction (h : list LaneCell) (l1 rest : list (nat * Z)) (p : nat) (pl : Z) :
  chainOk h (l1 ++ (p, pl) :: rest) ->
  match lastOpt l1 with
  | Some (q, _) => lastLaneRef h p = Some q
  | None => True
  end.
Proof.
  induction l1 as [|[q ql] l1 IH]; [intros; exact I|].
  cbn [app]. intros H. rewrite lastOpt_cons. destruct l1 as [|[q' ql'] l1].
  - cbn in *. destruct H as (H & _). exact H.
  - assert (Hrest : chainOk h (((q', ql') :: l1) ++ (p, pl) :: rest)).
    { cbn [app] in *. destruct H as (_ & H). exact H. }
    specialize (IH Hrest).
    destruct (lastOpt ((q', ql') :: l1)) as [[z zl]|] eqn:Hlast; [exact IH|].
    rewrite lastOpt_cons in Hlast. destruct (lastOpt l1); discriminate.
Qed.

Lemma lastLaneRef_child (h : list LaneCell) (p q : nat) :
  heapOk h -> lastLaneRef h p = Some q -> (p < q)%nat.
Proof.
  intros Hh. unfold lastLaneRef.
  destruct (nth_error h p) as [c|] eqn:Hc; [|discriminate].
  intros H. apply lastOpt_In, laneRefs_In in H.
  destruct (Hh p c q Hc H) as (Hlt & _). exact Hlt.
Qed.

Lemma chain_below_smaller (h : list LaneCell) :
  heapOk h ->
  forall below p pl,
    chainOk h ((p, pl) :: below) ->
    forall x xl, In (x, xl) below -> (x < p)%nat.
Proof.
  intros Hh. induction below as [|[p1 l1] below IH]; intros p pl Hc x xl Hin;
    [contradiction|].
  destruct Hc as (Hlast & Hc). apply (lastLaneRef_child h p1 p Hh) in Hlast.
  destruct Hin as [Heq | Hin].
  - injection Heq as <- <-. exact Hlast.
  - specialize (IH p1 l1 Hc x xl Hin). lia.
Qed.

Lemma chainOk_transfer (h h' : list LaneCell) (stack : list (nat * Z)) :
  chainOk h stack ->
  (forall x xl, In (x, xl) (tl stack) -> lastLaneRef h' x = lastLaneRef h x) ->
  chainOk h' stack.
Proof.
  induction stack as [|[q ql] stack IH]; [auto|]. intros Hc Hsame.
  destruct stack as [|[p pl] rest]; [exact I|].
  destruct Hc as (Hlast & Hc). split.
  - rewrite (Hsame p pl); [exact Hlast | left; reflexivity].
  - apply IH; [exact Hc|]. intros x xl Hin. apply (Hsame x xl). right. exact Hin.
Qed.

(** The cells of the heap after a lane is attached to its parent. *)
Lemma attach_cells (h : list LaneCell) (lane : LaneCell) (p : nat)
    (f : LaneCell -> LaneCell) :
  (p < length h)%nat ->
  let h' := updateCell (h ++ [lane]) p f in
  nth_error h' (length h) = Some lane
  /\ (forall cp, nth_error h p = Some cp -> nth_error h' p = Some (f cp))
  /\ (forall x, x <> p -> (x < length h)%nat -> nth_error h' x = nth_error h x).
Proof.
  intros Hp h'. unfold h'. split; [|split].
  - rewrite nth_error_updateCell. destruct (Nat.eqb_spec (length h) p); [lia|].
    rewrite nth_error_app2, Nat.sub_diag by lia. reflexivity.
  - intros cp Hcp. rewrite nth_error_updateCell, Nat.eqb_refl, nth_error_app1, Hcp by lia.
    reflexivity.
  - intros x Hne Hx. rewrite nth_error_updateCell.
    destruct (Nat.eqb_spec x p); [contradiction|].
    rewrite nth_error_app1 by lia. reflexivity.
Qed.

Lemma refs_valid (h : list LaneCell) (a : nat) (c : LaneCell) :
  heapOk h -> nth_error h a = Some c ->
  forall x, In x (laneRefs (cell_children c)) -> (x < length h)%nat.
Proof.
  intros Hh Hc x Hx. apply laneRefs_In in Hx.
  destruct (Hh a c x Hc Hx) as (_ & cb & _ & _ & Hcb & _).
  eapply nth_error_bound; eauto.
Qed.

Lemma linkLane_keeps_order (st st' : Assembly) (laneId : string) (data : LaneData)
    (lvl : Z) (r : list Item * nat) :
  assemblyOk st -> orderOk st ->
  level data = Some lvl ->
  linkLane st laneId data lvl r = Ok st' ->
  orderOk st'.
Proof.
  intros (Hh & Hl & Hs) (O1 & O3 & O4 & O5 & O6) Hlvl. unfold linkLane.
  destruct (popWhile_split lvl (laneStack st)) as (popped & Hsplit & Hpopped).
  assert (Hlanes_valid : forall x, In x (lanes st) -> (x < length (heap st))%nat).
  { intros x Hx. destruct (Hl x Hx) as (c & Hc & _). eapply nth_error_bound; eauto. }
  assert (Hpopped_level : forall q ql, In (q, ql) popped ->
            levelAt (heap st) q = Some ql /\ lvl <= ql /\ (q < length (heap st))%nat).
  { intros q ql Hq. assert (Hin : In (q, ql) (laneStack st)).
    { rewrite Hsplit. apply in_or_app. left. exact Hq. }
    destruct (Hs q ql Hin) as (c & Hc & Hcl). unfold levelAt. rewrite Hc.
    split; [exact Hcl|]. split; [apply (Hpopped (q, ql) Hq)|].
    eapply nth_error_bound; eauto. }
  destruct (popWhile lvl (laneStack st)) as [|[p pl] below] eqn:Hpop.
  - (* a new top-level lane *)
    rewrite app_nil_r in Hsplit. intros H. injection H as <-.
    set (lane := mkLaneCell laneId data (map (@ChildItem nat) (fst r))).
    assert (Hext : extends (heap st) (heap st ++ [lane])) by apply extends_snoc.
    assert (Hnew : levelAt (heap st ++ [lane]) (length (heap st)) = Some lvl).
    { unfold levelAt. rewrite nth_error_app2, Nat.sub_diag by lia. exact Hlvl. }
    unfold orderOk. cbn [heap lanes laneStack]. split; [|split; [|split; [|split]]].
    + intros a c Hc. apply nth_error_snoc in Hc. destruct Hc as [[_ Hc] | [_ ->]].
      * destruct (O1 a c Hc) as (I1 & I2). split; [exact I1|].
        apply (refsDescend_extends (heap st)); [exact Hext | | exact I2].
        apply (refs_valid (heap st) a c Hh Hc).
      * cbn. rewrite itemsFirst_items, laneRefs_items. split; [reflexivity | constructor].
    + apply Sorted_snoc.
      * apply (refsDescend_extends (heap st)); assumption.
      * rewrite <- O6. destruct (lastOpt (laneStack st)) as [[q ql]|] eqn:Hlast; [|exact I].
        cbn. apply lastOpt_In in Hlast. rewrite Hsplit in Hlast.
        destruct (Hpopped_level q ql Hlast) as (Hq & Hle & Hqv).
        exists ql, lvl. rewrite (levelAt_extends _ _ _ Hext Hqv). auto.
    + exact I.
    + unfold lastLaneRef. rewrite nth_error_app2, Nat.sub_diag by lia. cbn.
      now rewrite laneRefs_items.
    + cbn. now rewrite lastOpt_snoc.
  - (* a lane nested under the top of the stack *)
    assert (Hptop : In (p, pl) (laneStack st)).
    { rewrite Hsplit. apply in_or_app. right. left. reflexivity. }
    destruct (Hs p pl Hptop) as (cp & Hcp & Hcpl). rewrite Hcp.
    intros H. injection H as <-.
    set (lane := mkLaneCell laneId (setParentId data (Some (cell_id cp)))
                   (map (@ChildItem nat) (fst r))).
    set (push := fun c : LaneCell => pushChild c (ChildLane (length (heap st)))).
    set (h' := updateCell (heap st ++ [lane]) p push).
    pose proof (nth_error_bound _ _ _ Hcp) as Hp.
    destruct (attach_cells (heap st) lane p push Hp) as (Hn & Hpn & Hother).
    fold h' in Hn, Hpn, Hother.
    assert (Hext : extends (heap st) h').
    { eapply extends_trans; [apply extends_snoc | apply extends_pushChild]. }
    assert (Hnew : levelAt h' (length (heap st)) = Some lvl).
    { unfold levelAt. rewrite Hn. exact Hlvl. }
    assert (Hchain : chainOk (heap st) ((p, pl) :: below)).
    { apply (chainOk_suffix (heap st) popped). rewrite <- Hsplit. exact O4. }
    unfold orderOk. cbn [heap lanes laneStack]. fold h'.
    split; [|split; [|split; [|split]]].
    + intros a c Hc. destruct (Nat.eq_dec a p) as [-> | Hne].
      * rewrite (Hpn cp Hcp) in Hc. injection Hc as <-. unfold push. cbn.
        destruct (O1 p cp Hcp) as (I1 & I2).
        rewrite itemsFirst_snoc_lane, laneRefs_snoc. split; [exact I1|].
        apply Sorted_snoc.
        { apply (refsDescend_extends (heap st)); [exact Hext | | exact I2].
          apply (refs_valid (heap st) p cp Hh Hcp). }
        assert (Hj := chainOk_junction (heap st) popped below p pl).
        rewrite <- Hsplit in Hj. specialize (Hj O4).
        destruct (lastOpt (laneRefs (cell_children cp))) as [q|] eqn:Hlast; [|exact I].
        assert (Hplast : lastLaneRef (heap st) p = Some q).
        { unfold lastLaneRef. rewrite Hcp. exact Hlast. }
        destruct (lastOpt popped) as [[q' ql']|] eqn:Hpl.
        { rewrite Hplast in Hj. injection Hj as <-.
          apply lastOpt_In in Hpl.
          destruct (Hpopped_level q ql' Hpl) as (Hq & Hle & Hqv).
          exists ql', lvl. rewrite (levelAt_extends _ _ _ Hext Hqv). auto. }
        { destruct popped as [|x popped].
          - cbn [app] in Hsplit. rewrite Hsplit in O5. congruence.
          - rewrite lastOpt_cons in Hpl. destruct (lastOpt popped); discriminate. }
      * destruct (Nat.lt_ge_cases a (length (heap st))) as [Hlt | Hge].
        { rewrite (Hother a Hne Hlt) in Hc. destruct (O1 a c Hc) as (I1 & I2).
          split; [exact I1|].
          apply (refsDescend_extends (heap st)); [exact Hext | | exact I2].
          apply (refs_valid (heap st) a c Hh Hc). }
        { assert (a = length (heap st)).
          { apply nth_error_bound in Hc. unfold h' in Hc.
            rewrite length_updateCell, length_app in Hc. cbn in Hc. lia. }
          subst a. rewrite Hn in Hc. injection Hc as <-. cbn.
          rewrite itemsFirst_items, laneRefs_items. split; [reflexivity | constructor]. }
    + apply (refsDescend_extends (heap st)); assumption.
    + change (lastLaneRef h' p = Some (length (heap st))
              /\ chainOk h' ((p, pl) :: below)).
      split.
      * unfold lastLaneRef. rewrite (Hpn cp Hcp). unfold push. cbn.
        now rewrite laneRefs_snoc, lastOpt_snoc.
      * apply (chainOk_transfer (heap st)); [exact Hchain|].
        intros x xl Hin. cbn [tl] in Hin.
        pose proof (chain_below_smaller (heap st) Hh below p pl Hchain x xl Hin) as Hx.
        unfold lastLaneRef. rewrite Hother by lia. reflexivity.
    + unfold lastLaneRef. rewrite Hn. cbn. now rewrite laneRefs_items.
    + rewrite <- O6, Hsplit, lastOpt_app_cons.
      change ((length (heap st), lvl) :: (p, pl) :: below)
        with ([(length (heap st), lvl)] ++ (p, pl) :: below).
      now rewrite lastOpt_app_cons.
Qed.

Section OrderFacts.
Variable E : Env.

Lemma headingStep_keeps_order (siblings : list Node) (md : string) (st st' : Assembly)
    (index : nat) (child : Node) :
  assemblyOk st -> orderOk st ->
  headingStep E siblings md st index child = Ok st' ->
  orderOk st'.
Proof.
  intros Hok Hord Hstep.
  destruct (headingStep_cases E siblings md st st' index child Hstep)
    as [(_ & ->) | [(_ & _ & l & r & _ & _ & ->) | (_ & _ & shouldMark & r & Hlink)]].
  - exact Hord.
  - exact Hord.
  - eapply linkLane_keeps_order; eauto. reflexivity.
Qed.

Lemma forEachFrom_keeps_order (siblings : list Node) (md : string) (rest : list Node) :
  forall index st st',
    assemblyOk st -> orderOk st ->
    forEachFrom E siblings md index rest st = Ok st' ->
    orderOk st'.
Proof.
  induction rest as [|child rest IH]; cbn; intros index st st' Hok Hord H.
  - injection H as <-. exact Hord.
  - bind_inv H. eapply IH; [| |exact H].
    + eapply headingStep_keeps_invariant; eauto.
    + eapply headingStep_keeps_order; eauto.
Qed.

Lemma emptyAssembly_order : orderOk emptyAssembly.
Proof.
  unfold orderOk, emptyAssembly, refsDescend. cbn.
  split; [intros [|a] c Hc; discriminate|]. repeat split; constructor.
Qed.

Lemma assemble_order (root : Node) (md : string) (st : Assembly) :
  assemble E root md = Ok st -> orderOk st.
Proof.
  apply forEachFrom_keeps_order; [apply emptyAssembly_ok | apply emptyAssembly_order].
Qed.

End OrderFacts.

(** *** From the lane objects to the lane tree *)

Lemma lanesIn_reified (h : list LaneCell) :
  forall fuel a T,
    reify fuel h a = Ok T ->
    forall L, In L (lanesIn T) -> exists f b, reify f h b = Ok L.
Proof.
  induction fuel as [|f IH]; intros a T HT L HL; [discriminate|].
  apply reify_inv in HT as Hinv.
  destruct Hinv as (f' & c & Hf & _ & _ & _ & Hch). injection Hf as <-.
  rewrite lanesIn_unfold in HL. destruct HL as [<- | HL]; [eauto|].
  apply in_flat_map in HL. destruct HL as (y & Hy & HLy).
  destruct y as [it | sub]; [contradiction|]. cbn [childLanes] in HLy.
  destruct (Forall2_In_r _ _ _ _ Hch Hy) as (x & _ & Hx).
  destruct x as [it | b]; [discriminate|].
  destruct Hx as (Lb & Heq & Hr). injection Heq as <-.
  apply (IH b sub Hr L HLy).
Qed.

Lemma boardLanes_reified (E : Env) (settings_ : KanbanSettings)
    (frontmatter_ : Frontmatter) (root : Node) (md : string) (b : Board) :
  astToUnhydratedBoard E settings_ frontmatter_ root md = Ok b ->
  exists st,
    assemble E root md = Ok st
    /\ archive (board_data b) = archiveItems st
    /\ Forall2 (fun a L => reify (length (heap st)) (heap st) a = Ok L)
         (lanes st) (board_children b)
    /\ forall L, In L (boardLanes b) -> exists f a, reify f (heap st) a = Ok L.
Proof.
  unfold astToUnhydratedBoard. intros H. bind_inv H. bind_inv H. injection H as <-.
  exists a. cbn. apply mapM_Forall2 in Ha0. split; [exact Ha|]. split; [reflexivity|].
  split; [exact Ha0|].
  intros L HL. unfold boardLanes in HL. cbn in HL. apply in_flat_map in HL.
  destruct HL as (T & HT & HLT).
  destruct (Forall2_In_r _ _ _ _ Ha0 HT) as (a1 & _ & Hr).
  apply (lanesIn_reified (heap a) _ a1 T Hr L HLT).
Qed.

(** The children of a lane read back, against those of its lane object. *)
Lemma reified_children (f : nat) (h : list LaneCell) (cs : list (Child nat))
    (ys : list (Child Lane)) :
  Forall2
    (fun x y =>
       match x with
       | ChildItem i => y = ChildItem i
       | ChildLane b => exists Lb, y = ChildLane Lb /\ reify f h b = Ok Lb
       end) cs ys ->
  itemsFirst ys = itemsFirst cs
  /\ forallb isLane ys = forallb isLane cs
  /\ itemsAmong ys = childItems cs
  /\ Forall2 (fun b Lb => reify f h b = Ok Lb) (laneRefs cs) (lanesAmong ys).
Proof.
  induction 1 as [|x y cs ys Hxy _ IH]; [cbn; auto|].
  destruct IH as (I1 & I2 & I3 & I4). destruct x as [i | b].
  - subst y. cbn. rewrite I3. auto.
  - destruct Hxy as (Lb & -> & Hr). cbn. rewrite I2. auto.
Qed.

Lemma lanesOnly_split (cs : list (Child Lane)) :
  forallb isLane cs = true ->
  itemsAmong cs = [] /\ cs = map ChildLane (lanesAmong cs).
Proof.
  induction cs as [|[i|l] cs IH]; cbn; [auto | discriminate |].
  intros H. destruct (IH H) as (I1 & I2). split; [exact I1 | now rewrite <- I2].
Qed.

Lemma itemsFirst_split (cs : list (Child Lane)) :
  itemsFirst cs = true ->
  cs = map ChildItem (itemsAmong cs) ++ map ChildLane (lanesAmong cs).
Proof.
  induction cs as [|[i|l] cs IH]; cbn; [auto | |].
  - intros H. now rewrite <- (IH H).
  - intros H. destruct (lanesOnly_split cs H) as (-> & <-). reflexivity.
Qed.

Lemma Sorted_Forall2 {A B : Type} (Q : A -> B -> Prop) (R : A -> A -> Prop)
    (R' : B -> B -> Prop) (xs : list A) (ys : list B) :
  Forall2 Q xs ys ->
  (forall x x' y y', Q x y -> Q x' y' -> R x x' -> R' y y') ->
  Sorted R xs -> Sorted R' ys.
Proof.
  intros HF Himp. induction HF as [|x y xs ys Hxy HF IH]; intros Hs; [constructor|].
  inversion Hs as [|? ? Hsl Hhd]; subst. constructor; [apply IH; exact Hsl|].
  destruct HF as [|x' y' xs ys Hxy' _]; constructor.
  inversion Hhd; subst. eapply Himp; eauto.
Qed.

Lemma reified_level (f : nat) (h : list LaneCell) (a : nat) (L : Lane) :
  reify f h a = Ok L -> level (lane_data L) = levelAt h a.
Proof.
  intros H. apply reify_inv in H. destruct H as (_ & c & _ & Hc & _ & Hdata & _).
  unfold levelAt. rewrite Hc, Hdata. reflexivity.
Qed.

Lemma levelsDescend_reified (h : list LaneCell) (refs : list nat) (ls : list Lane)
    (f : nat) :
  Forall2 (fun a L => reify f h a = Ok L) refs ls ->
  refsDescend h refs -> levelsDescend ls.
Proof.
  intros HF. apply (Sorted_Forall2 _ _ _ _ _ HF).
  intros x x' y y' Hx Hx'. rewrite (reified_level _ _ _ _ Hx), (reified_level _ _ _ _ Hx').
  auto.
Qed.

(** X5: in every lane of a board the assembler produces, nested lanes
    included, the items come before the nested lanes: the children are the
    lane's items ([getNestedItems]) followed by its nested lanes
    ([getNestedLanes]), so showing items first and nested lanes after them, as
    the lane component does, shows the children in their own order. *)
Theorem parsed_lane_items_first (E : Env) (settings_ : KanbanSettings)
    (frontmatter_ : Frontmatter) (root : Node) (md : string) (b : Board) :
  astToUnhydratedBoard E settings_ frontmatter_ root md = Ok b ->
  forall L, In L (boardLanes b) ->
    lane_children L =
    map ChildItem (getNestedItems L) ++ map ChildLane (getNestedLanes L).
Proof.
  intros Hb L HL.
  destruct (boardLanes_reified E _ _ _ _ _ Hb) as (st & Hst & _ & _ & Hall).
  destruct (Hall L HL) as (f & a & Hr).
  destruct (assemble_order E root md st Hst) as (O1 & _).
  apply reify_inv in Hr. destruct Hr as (f' & c & _ & Hc & _ & _ & Hch).
  destruct (reified_children f' (heap st) _ _ Hch) as (I1 & _).
  destruct (O1 a c Hc) as (Hfirst & _).
  apply itemsFirst_split. congruence.
Qed.

Lemma parsed_lane_items_first_witness :
  Forall
    (fun L => lane_children L =
              map ChildItem (getNestedItems L) ++ map ChildLane (getNestedLanes L))
    (boardLanes (Demo.get (Demo.boardOf []) (Demo.parseBoard Demo.nestedDoc))).
Proof.
  apply Forall_forall.
  apply (parsed_lane_items_first Demo.env [] [] (Demo.parseDocument Demo.nestedDoc)
           Demo.nestedDoc).
  vm_compute. reflexivity.
Defined.

(** X6: in a board the assembler produces, the levels of the top-level lanes
    never grow from one lane to the next in document order, and neither do
    the levels of the lanes nested directly in the same lane: a heading
    deeper than the lane before it is nested in that lane, never put beside
    it. *)
Theorem parsed_sibling_levels_descend (E : Env) (settings_ : KanbanSettings)
    (frontmatter_ : Frontmatter) (root : Node) (md : string) (b : Board) :
  astToUnhydratedBoard E settings_ frontmatter_ root md = Ok b ->
  levelsDescend (board_children b)
  /\ forall L, In L (boardLanes b) -> levelsDescend (getNestedLanes L).
Proof.
  intros Hb.
  destruct (boardLanes_reified E _ _ _ _ _ Hb) as (st & Hst & _ & Htop & Hall).
  destruct (assemble_order E root md st Hst) as (O1 & O3 & _).
  split.
  - apply (levelsDescend_reified (heap st) (lanes st) _ _ Htop O3).
  - intros L HL. destruct (Hall L HL) as (f & a & Hr).
    apply reify_inv in Hr. destruct Hr as (f' & c & _ & Hc & _ & _ & Hch).
    destruct (reified_children f' (heap st) _ _ Hch) as (_ & _ & _ & I4).
    destruct (O1 a c Hc) as (_ & Hdesc).
    apply (levelsDescend_reified (heap st) _ _ _ I4 Hdesc).
Qed.

Lemma parsed_sibling_levels_descend_witness :
  levelsDescend
    (board_children (Demo.get (Demo.boardOf []) (Demo.parseBoard Demo.nestedDoc))).
Proof.
  apply (parsed_sibling_levels_descend Demo.env [] [] (Demo.parseDocument Demo.nestedDoc)
           Demo.nestedDoc).
  vm_compute. reflexivity.
Defined.

(** *** Where the contents of a lane come from *)

Lemma childItems_items {L : Type} (items : list Item) :
  childItems (map (@ChildItem L) items) = items.
Proof.
  induction items as [|i items IH]; cbn; [reflexivity | now rewrite IH].
Qed.

Lemma childItems_snoc_lane {L : Type} (cs : list (Child L)) (l : L) :
  childItems (cs ++ [ChildLane l]) = childItems cs.
Proof.
  induction cs as [|[i|l'] cs IH]; cbn; [reflexivity | now rewrite IH | exact IH].
Qed.

Section SourceFacts.
Variable E : Env.

(** The way through the body of the [forEach] that opens a lane. *)
Lemma headingStep_lane (siblings : list Node) (md : string) (st st' : Assembly)
    (index : nat) (child : Node) :
  headingStep E siblings md st index child = Ok st' ->
  isType child "heading" = true ->
  opensArchive E siblings index child = false ->
  exists r,
    makeItems E md (S (idsDrawn st)) (listItemsAfter E siblings index) = Ok r
    /\ linkLane st (instanceId E (idsDrawn st))
         (laneDataOf E md child (completeAfter E siblings index))
         (orOne (depth child)) r = Ok st'.
Proof.
  unfold headingStep, opensArchive, listItemsAfter, listAfter, completeAfter.
  intros H Hty. rewrite Hty in H. cbn [negb] in H. revert H.
  destruct (getNextOfType siblings index "list" (listScanContinue E) false)
    as [list_ shouldMark].
  destruct (isArchiveLane E child siblings index); destruct list_ as [l|];
    cbn [fst snd isSome andb]; intros H Hopen; try discriminate;
    bind_inv H; exists a; split; try assumption; reflexivity.
Qed.

(** The flag a scan for a list leaves. *)
Lemma scan_flag (rest : list Node) :
  forall s,
    snd (scanNextOfType rest "list" (listScanContinue E) s) = true <->
    s = true
    \/ exists pre p post,
         rest = pre ++ p :: post
         /\ forallb (steppedOver E) pre = true
         /\ completeMarker E p = true.
Proof.
  induction rest as [|child rest IH]; intros s.
  - cbn. split; [auto|]. intros [H | (pre & p & post & H & _)]; [exact H|].
    destruct pre; discriminate.
  - assert (Hhead : forall (P : Prop),
              (completeMarker E child = true -> P) ->
              (steppedOver E child = true ->
               (exists pre p post, rest = pre ++ p :: post
                  /\ forallb (steppedOver E) pre = true
                  /\ completeMarker E p = true) -> P) ->
              (exists pre p post, child :: rest = pre ++ p :: post
                  /\ forallb (steppedOver E) pre = true
                  /\ completeMarker E p = true) -> P).
    { intros P H1 H2 (pre & p & post & Heq & Hpre & Hp).
      destruct pre as [|x pre]; cbn in Heq; injection Heq as <- ->.
      - apply H1. exact Hp.
      - cbn in Hpre. apply andb_true_iff in Hpre. destruct Hpre as (Hx & Hpre).
        apply H2; [exact Hx|]. exists pre, p, post. auto. }
    cbn [scanNextOfType]. unfold listScanContinue, completeMarker, steppedOver in *.
    destruct (isType child "list") eqn:Hlist; cbn [negb andb snd] in *.
    { split; [auto|]. intros [H | H]; [exact H|].
      revert H. apply Hhead; discriminate. }
    destruct (isType child "heading") eqn:Hhd; cbn [negb andb snd] in *.
    { split; [auto|]. intros [H | H]; [exact H|].
      revert H. apply Hhead; discriminate. }
    destruct (isType child "paragraph") eqn:Hpar; cbn [negb andb snd] in *.
    + destruct (startsWith (toString true child) "%% kanban:settings") eqn:Hset;
        cbn [negb andb snd] in *.
      { split; [auto|]. intros [H | H]; [exact H|].
        revert H. apply Hhead; discriminate. }
      destruct (String.eqb (toString true child) (t_Complete E)) eqn:Hc.
      * rewrite IH. split; [|auto]. intros _. right.
        exists [], child, rest. rewrite Hlist, Hhd, Hpar, Hset, Hc. auto.
      * rewrite IH. split.
        { intros [H | (pre & p & post & -> & Hpre & Hp)]; [auto|].
          right. exists (child :: pre), p, post. cbn. rewrite Hlist, Hhd, Hpar, Hset.
          auto. }
        { intros [H | H]; [auto|].
          revert H. apply Hhead; [discriminate | intros _ H'; auto]. }
    + rewrite IH. split.
      { intros [H | (pre & p & post & -> & Hpre & Hp)]; [auto|].
        right. exists (child :: pre), p, post. cbn. rewrite Hlist, Hhd, Hpar. auto. }
      { intros [H | H]; [auto|].
        revert H. apply Hhead; [discriminate | intros _ H'; auto]. }
Qed.

End SourceFacts.

(** X7: the scan for the list after a heading leaves the completion flag set
    exactly when, among the blocks after the heading, a paragraph whose text
    is the localized "Complete" marker comes before any list, any heading
    and any paragraph that opens the settings block; whether a list is found
    afterwards plays no part. *)
Theorem complete_flag_set_iff (E : Env) (siblings : list Node) (index : nat) :
  completeAfter E siblings index = true <->
  exists pre p post,
    skipn (S index) siblings = pre ++ p :: post
    /\ forallb (steppedOver E) pre = true
    /\ completeMarker E p = true.
Proof.
  unfold completeAfter, getNextOfType. rewrite scan_flag.
  split; [intros [H | H]; [discriminate | exact H] | auto].
Qed.

(** *** When the assembler fails *)

Section FailureFacts.
Variable E : Env.

Lemma makeItems_Throw (md : string) (listItems : list Node) (e : Error) :
  forall drawn,
    makeItems E md drawn listItems = Throw e ->
    exists li, In li listItems /\ listItemToItemData E md li = Throw e.
Proof.
  induction listItems as [|li rest IH]; cbn; intros drawn H; [discriminate|].
  destruct (listItemToItemData E md li) as [d|e'] eqn:Hd; cbn in H.
  - destruct (makeItems E md (S drawn) rest) as [r|e'] eqn:Hr; cbn in H; [discriminate|].
    injection H as ->. destruct (IH (S drawn) Hr) as (li' & Hin & Hli'). eauto.
  - injection H as ->. eauto.
Qed.

Lemma headingStep_Throw (siblings : list Node) (md : string) (st : Assembly)
    (index : nat) (child : Node) (e : Error) :
  assemblyOk st ->
  headingStep E siblings md st index child = Throw e ->
  isType child "heading" = true
  /\ exists li, In li (listItemsAfter E siblings index)
                /\ listItemToItemData E md li = Throw e.
Proof.
  intros Hok. unfold headingStep, listItemsAfter, listAfter.
  destruct (isType child "heading"); cbn [negb]; [|discriminate].
  destruct (getNextOfType siblings index "list" (listScanContinue E) false)
    as [list_ shouldMark].
  assert (Hlink : forall r e', linkLane st (instanceId E (idsDrawn st))
                                 (laneDataOf E md child shouldMark)
                                 (orOne (depth child)) r <> Throw e').
  { intros r e' H. destruct (linkLane_returns st (instanceId E (idsDrawn st))
                               (laneDataOf E md child shouldMark)
                               (orOne (depth child)) r Hok) as [st' Hst'].
    congruence. }
  intros H. split; [reflexivity|]. cbn [fst].
  destruct (isArchiveLane E child siblings index); destruct list_ as [l|].
  - destruct (makeItems E md (idsDrawn st) (children l)) as [r|e'] eqn:Hr; cbn in H;
      [discriminate|].
    injection H as ->. eapply makeItems_Throw; eauto.
  - cbn in H. exfalso. eapply Hlink; eauto.
  - destruct (makeItems E md (S (idsDrawn st)) (children l)) as [r|e'] eqn:Hr; cbn in H.
    + exfalso. eapply Hlink; eauto.
    + injection H as ->. eapply makeItems_Throw; eauto.
  - cbn in H. exfalso. eapply Hlink; eauto.
Qed.

Lemma forEachFrom_Throw (siblings : list Node) (md : string) (rest : list Node)
    (e : Error) :
  forall index st,
    skipn index siblings = rest ->
    assemblyOk st ->
    forEachFrom E siblings md index rest st = Throw e ->
    exists i child li,
      nth_error siblings i = Some child
      /\ isType child "heading" = true
      /\ In li (listItemsAfter E siblings i)
      /\ listItemToItemData E md li = Throw e.
Proof.
  induction rest as [|child rest IH]; cbn; intros index st Hskip Hok H; [discriminate|].
  apply skipn_cons_nth in Hskip. destruct Hskip as (Hnth & Hskip).
  destruct (headingStep E siblings md st index child) as [st1|e'] eqn:Hstep; cbn in H.
  - apply (IH (S index) st1 Hskip); [|exact H].
    eapply headingStep_keeps_invariant; eauto.
  - injection H as ->.
    destruct (headingStep_Throw siblings md st index child e Hok Hstep) as (Hty & li & R).
    exists index, child, li. auto.
Qed.

End FailureFacts.

(** X8: the assembler fails only on a list item it cannot decompose. When
    every item of every list of the document decomposes it returns a board;
    when it throws, the exception is the one the item decomposer threw on an
    item of the list found after some heading. No reference between lanes is
    ever left dangling. *)
Theorem assembler_fails_only_on_items (E : Env) (settings_ : KanbanSettings)
    (frontmatter_ : Frontmatter) (root : Node) (md : string) :
  (itemsDecompose E md (children root) ->
   exists b, astToUnhydratedBoard E settings_ frontmatter_ root md = Ok b)
  /\ forall e,
       astToUnhydratedBoard E settings_ frontmatter_ root md = Throw e ->
       exists i child li,
         nth_error (children root) i = Some child
         /\ isType child "heading" = true
         /\ In li (listItemsAfter E (children root) i)
         /\ listItemToItemData E md li = Throw e.
Proof.
  split; [apply astToUnhydratedBoard_returns|].
  intros e. unfold astToUnhydratedBoard.
  destruct (assemble E root md) as [st|e'] eqn:Hst; cbn [bind].
  - destruct (reify_lanes_return st (assemble_ok E root md st Hst)) as [top ->].
    discriminate.
  - intros H. injection H as ->.
    apply (forEachFrom_Throw E (children root) md (children root) e 0 emptyAssembly);
      [reflexivity | apply emptyAssembly_ok | exact Hst].
Qed.

Lemma nestedDoc_items_decompose :
  itemsDecompose Demo.env Demo.nestedDoc (children (Demo.parseDocument Demo.nestedDoc)).
Proof.
  intros l li Hl Hty Hli. vm_compute in Hl.
  repeat match goal with
         | H : _ \/ _ |- _ => destruct H as [<- | H]
         end;
    try contradiction; try (vm_compute in Hty; discriminate);
    vm_compute in Hli;
    repeat match goal with
           | H : _ \/ _ |- _ => destruct H as [<- | H]
           end;
    try contradiction; eexists; vm_compute; reflexivity.
Qed.

Lemma assembler_fails_only_on_items_witness :
  (exists b, Demo.parseBoard Demo.nestedDoc = Ok b)
  /\ exists i child li,
       nth_error (children (Demo.parseDocument Demo.blankItemDoc)) i = Some child
       /\ isType child "heading" = true
       /\ In li (listItemsAfter Demo.env (children (Demo.parseDocument Demo.blankItemDoc)) i)
       /\ listItemToItemData Demo.env Demo.blankItemDoc li
          = Throw (TypeError "startNode is undefined").
Proof.
  split.
  - apply (assembler_fails_only_on_items Demo.env [] [] (Demo.parseDocument Demo.nestedDoc)
             Demo.nestedDoc).
    exact nestedDoc_items_decompose.
  - apply (assembler_fails_only_on_items Demo.env [] [] (Demo.parseDocument Demo.blankItemDoc)
             Demo.blankItemDoc).
    vm_compute. reflexivity.
Defined.

(** ** The assembler: the lanes in document order *)

Lemma NoDup_app_disjoint {A : Type} (l1 l2 : list A) (a : A) :
  NoDup (l1 ++ l2) -> In a l1 -> ~ In a l2.
Proof.
  induction l1 as [|x l1 IH]; cbn; intros H Hin; [contradiction|].
  inversion H as [|? ? Hx Hnd]; subst. destruct Hin as [-> | Hin].
  - intros Hc. apply Hx. apply in_or_app. right. exact Hc.
  - apply IH; assumption.
Qed.

Lemma flat_map_same {A B : Type} (f g : A -> list B) (l : list A) :
  (forall a, In a l -> f a = g a) -> flat_map f l = flat_map g l.
Proof.
  induction l as [|x l IH]; cbn; intros H; [reflexivity|].
  rewrite (H x (or_introl eq_refl)), IH; [reflexivity|].
  intros a Ha. apply H. right. exact Ha.
Qed.

Lemma lastOpt_split {A : Type} (l : list A) (x : A) :
  lastOpt l = Some x -> exists init, l = init ++ [x].
Proof.
  induction l as [|y l IH]; [discriminate|]. rewrite lastOpt_cons.
  destruct (lastOpt l) as [z|] eqn:Hl.
  - intros H. injection H as ->. destruct (IH eq_refl) as [init ->].
    exists (y :: init). reflexivity.
  - intros H. injection H as ->. destruct l as [|z l].
    + exists []. reflexivity.
    + rewrite lastOpt_cons in Hl. destruct (lastOpt l); discriminate.
Qed.

Lemma lastOpt_nonempty {A : Type} (x : A) (l : list A) : exists y, lastOpt (x :: l) = Some y.
Proof.
  rewrite lastOpt_cons. destruct (lastOpt l); eauto.
Qed.

Lemma flatten_valid (h : list LaneCell) :
  forall f b x, In x (flatten f h b) -> (x < length h)%nat.
Proof.
  induction f as [|f IH]; intros b x; cbn [flatten]; [contradiction|].
  destruct (nth_error h b) as [c|] eqn:Hc; [|contradiction].
  intros [<- | Hin]; [eapply nth_error_bound; eauto|].
  apply in_flat_map in Hin. destruct Hin as (y & _ & Hy). apply (IH y x Hy).
Qed.

Lemma flatten_leaf (f : nat) (h : list LaneCell) (a : nat) (c : LaneCell) :
  nth_error h a = Some c -> laneRefs (cell_children c) = [] ->
  flatten (S f) h a = [a].
Proof.
  intros Hc Hrefs. cbn [flatten]. rewrite Hc, Hrefs. reflexivity.
Qed.

(** A walk that does not meet the lane object that changed is as before. *)
Lemma flatten_untouched (h h' : list LaneCell) (p : nat) :
  heapOk h ->
  (forall x, x <> p -> (x < length h)%nat -> nth_error h' x = nth_error h x) ->
  forall f b, (b < length h)%nat -> ~ In p (flatten f h b) ->
              flatten f h' b = flatten f h b.
Proof.
  intros Hh Hother. induction f as [|f IH]; intros b Hb Hnot; [reflexivity|].
  cbn [flatten] in *. destruct (nth_error h b) as [c|] eqn:Hc.
  2: { apply nth_error_None in Hc. lia. }
  assert (Hne : b <> p). { intros ->. apply Hnot. left. reflexivity. }
  rewrite (Hother b Hne Hb), Hc. f_equal. apply flat_map_same. intros x Hx.
  apply IH.
  - eapply refs_valid; eauto.
  - intros Hin. apply Hnot. right. apply in_flat_map. exists x. auto.
Qed.

Lemma flatten_S (f : nat) (h : list LaneCell) (a : nat) :
  flatten (S f) h a =
  match nth_error h a with
  | Some c => a :: flat_map (flatten f h) (laneRefs (cell_children c))
  | None => []
  end.
Proof.
  reflexivity.
Qed.

(** The walk from the parent of the new lane meets the new lane last. *)
Lemma attach_flatten_parent (h h' : list LaneCell) (lane cp : LaneCell) (p : nat) :
  heapOk h ->
  nth_error h p = Some cp ->
  nth_error h' (length h) = Some lane ->
  laneRefs (cell_children lane) = [] ->
  nth_error h' p = Some (pushChild cp (ChildLane (length h))) ->
  (forall x, x <> p -> (x < length h)%nat -> nth_error h' x = nth_error h x) ->
  forall f, (S (length h) <= p + f)%nat ->
    flatten f h p = seq p (length h - p) ->
    flatten f h' p = flatten f h p ++ [length h].
Proof.
  intros Hh Hcp Hn Hleaf Hpn Hother f Hf Hseq.
  pose proof (nth_error_bound _ _ _ Hcp) as Hp.
  destruct f as [|f1]; [lia|].
  assert (Hnd : NoDup (flatten (S f1) h p)) by (rewrite Hseq; apply seq_NoDup).
  rewrite flatten_S, Hcp in Hnd. rewrite !flatten_S, Hcp, Hpn.
  cbn [pushChild cell_children]. rewrite laneRefs_snoc, flat_map_app.
  cbn [flat_map]. rewrite app_nil_r.
  assert (Hnew : flatten f1 h' (length h) = [length h]).
  { destruct f1 as [|f2]; [lia|]. apply (flatten_leaf f2 h' (length h) lane Hn Hleaf). }
  rewrite Hnew, app_comm_cons. f_equal. f_equal.
  apply flat_map_same. intros b Hb.
  apply (flatten_untouched h h' p Hh Hother).
  - eapply refs_valid; eauto.
  - intros Hin. apply NoDup_cons_iff in Hnd. destruct Hnd as (Hnot & _).
    apply Hnot. apply in_flat_map. exists b. auto.
Qed.

(** So does the walk from every lane below it on the stack. *)
Lemma attach_flatten_chain (h h' : list LaneCell) (p : nat) :
  heapOk h ->
  (forall x, x <> p -> (x < length h)%nat -> nth_error h' x = nth_error h x) ->
  (p < length h)%nat ->
  forall rest x xl,
    chainOk h ((x, xl) :: rest) ->
    (x <= p)%nat ->
    (forall q ql f, In (q, ql) ((x, xl) :: rest) -> (length h <= q + f)%nat ->
       flatten f h q = seq q (length h - q)) ->
    (forall f, (S (length h) <= x + f)%nat ->
       flatten f h' x = flatten f h x ++ [length h]) ->
    forall q ql f, In (q, ql) ((x, xl) :: rest) -> (S (length h) <= q + f)%nat ->
      flatten f h' q = flatten f h q ++ [length h].
Proof.
  intros Hh Hother Hp.
  induction rest as [|[y yl] rest IH]; intros x xl Hc Hxp Hspine Ex q ql f Hin Hf.
  - destruct Hin as [Heq | []]. injection Heq as <- <-. apply Ex. exact Hf.
  - destruct Hin as [Heq | Hin]; [injection Heq as <- <-; apply Ex; exact Hf|].
    destruct Hc as (Hlast & Hc).
    pose proof (lastLaneRef_child h y x Hh Hlast) as Hyx.
    apply (IH y yl Hc) with (ql := ql); [lia | | | exact Hin | exact Hf].
    { intros q' ql' f' Hq'. apply (Hspine q' ql' f'). right. exact Hq'. }
    intros f0 Hf0. unfold lastLaneRef in Hlast.
    destruct (nth_error h y) as [cy|] eqn:Hcy; [|discriminate].
    apply lastOpt_split in Hlast. destruct Hlast as [init Hinit].
    pose proof (nth_error_bound _ _ _ Hcy) as Hy.
    destruct f0 as [|f1]; [lia|].
    assert (Hsp : flatten (S f1) h y = seq y (length h - y)).
    { apply (Hspine y yl); [right; left; reflexivity | lia]. }
    assert (Hnd : NoDup (flatten (S f1) h y)) by (rewrite Hsp; apply seq_NoDup).
    assert (Hpx : In p (flatten f1 h x)).
    { rewrite (Hspine x xl f1); [|left; reflexivity | lia]. apply in_seq. lia. }
    rewrite flatten_S, Hcy, Hinit, flat_map_app in Hnd.
    cbn [flat_map] in Hnd. rewrite app_nil_r in Hnd.
    rewrite !flatten_S, (Hother y), Hcy, Hinit, !flat_map_app by lia.
    cbn [flat_map]. rewrite !app_nil_r.
    rewrite (Ex f1) by lia.
    rewrite <- app_comm_cons, <- app_assoc. f_equal. f_equal.
    apply flat_map_same. intros b Hb.
    apply (flatten_untouched h h' p Hh Hother).
    + apply (refs_valid h y cy Hh Hcy). rewrite Hinit. apply in_or_app. left. exact Hb.
    + intros Hin'. apply NoDup_cons_iff in Hnd. destruct Hnd as (_ & Hnd).
      apply (NoDup_app_disjoint _ _ p Hnd); [|exact Hpx].
      apply in_flat_map. exists b. auto.
Qed.

Lemma linkLane_keeps_spine (st st' : Assembly) (laneId : string) (data : LaneData)
    (lvl : Z) (r : list Item * nat) :
  assemblyOk st -> orderOk st -> spineOk st ->
  linkLane st laneId data lvl r = Ok st' ->
  spineOk st'.
Proof.
  intros (Hh & Hl & Hs) (_ & _ & O4 & _ & O6) (S2 & S3). unfold linkLane.
  destruct (popWhile_split lvl (laneStack st)) as (popped & Hsplit & _).
  assert (Hlanes_valid : forall x, In x (lanes st) -> (x < length (heap st))%nat).
  { intros x Hx. destruct (Hl x Hx) as (c & Hc & _). eapply nth_error_bound; eauto. }
  destruct (popWhile lvl (laneStack st)) as [|[p pl] below] eqn:Hpop.
  - (* a new top-level lane *)
    intros H. injection H as <-.
    set (lane := mkLaneCell laneId data (map (@ChildItem nat) (fst r))).
    assert (Hn : nth_error (heap st ++ [lane]) (length (heap st)) = Some lane).
    { rewrite nth_error_app2, Nat.sub_diag by lia. reflexivity. }
    assert (Hleaf : laneRefs (cell_children lane) = []) by apply laneRefs_items.
    assert (Hother : forall x, x <> length (heap st) -> (x < length (heap st))%nat ->
                       nth_error (heap st ++ [lane]) x = nth_error (heap st) x).
    { intros x _ Hx. apply nth_error_app1. exact Hx. }
    unfold spineOk. cbn [heap lanes laneStack]. rewrite length_app. cbn [length].
    split.
    + intros q ql f [Heq | []] Hf. injection Heq as <- <-.
      destruct f as [|f]; [lia|].
      rewrite (flatten_leaf f _ _ lane Hn Hleaf).
      replace (length (heap st) + 1 - length (heap st))%nat with 1%nat by lia.
      reflexivity.
    + intros f Hf. rewrite flat_map_app. cbn [flat_map]. rewrite app_nil_r.
      destruct f as [|f]; [lia|].
      rewrite (flatten_leaf f _ _ lane Hn Hleaf).
      replace (length (heap st) + 1)%nat with (S (length (heap st))) by lia.
      rewrite seq_S. cbn [Nat.add]. f_equal.
      rewrite <- (S3 (S f)) by lia. apply flat_map_same. intros b Hb.
      apply (flatten_untouched (heap st) _ (length (heap st)) Hh Hother).
      * apply Hlanes_valid. exact Hb.
      * intros Hin. apply flatten_valid in Hin. lia.
  - (* a lane nested under the top of the stack *)
    assert (Hsub : forall q ql, In (q, ql) ((p, pl) :: below) -> In (q, ql) (laneStack st)).
    { intros q ql Hq. rewrite Hsplit. apply in_or_app. right. exact Hq. }
    destruct (Hs p pl (Hsub p pl (or_introl eq_refl))) as (cp & Hcp & _). rewrite Hcp.
    intros H. injection H as <-.
    set (lane := mkLaneCell laneId (setParentId data (Some (cell_id cp)))
                   (map (@ChildItem nat) (fst r))).
    set (push := fun c : LaneCell => pushChild c (ChildLane (length (heap st)))).
    set (h' := updateCell (heap st ++ [lane]) p push).
    pose proof (nth_error_bound _ _ _ Hcp) as Hp.
    destruct (attach_cells (heap st) lane p push Hp) as (Hn & Hpn & Hother).
    fold h' in Hn, Hpn, Hother. specialize (Hpn cp Hcp).
    assert (Hleaf : laneRefs (cell_children lane) = []) by apply laneRefs_items.
    assert (Hlen : length h' = S (length (heap st))).
    { unfold h'. rewrite length_updateCell, length_app. cbn. lia. }
    assert (Hchain : chainOk (heap st) ((p, pl) :: below)).
    { apply (chainOk_suffix (heap st) popped). rewrite <- Hsplit. exact O4. }
    assert (Hold : forall q ql f, In (q, ql) ((p, pl) :: below) ->
                     (length (heap st) <= q + f)%nat ->
                     flatten f (heap st) q = seq q (length (heap st) - q)).
    { intros q ql f Hq. apply (S2 q ql f). apply Hsub. exact Hq. }
    assert (Hother' : forall x, x <> p -> (x < length (heap st))%nat ->
                        nth_error h' x = nth_error (heap st) x).
    { intros x Hx Hlt. apply Hother; assumption. }
    assert (Ep : forall f, (S (length (heap st)) <= p + f)%nat ->
                   flatten f h' p = flatten f (heap st) p ++ [length (heap st)]).
    { intros f Hf.
      apply (attach_flatten_parent (heap st) h' lane cp p Hh Hcp Hn Hleaf Hpn Hother' f Hf).
      apply (Hold p pl); [left; reflexivity | lia]. }
    pose proof (attach_flatten_chain (heap st) h' p Hh Hother' Hp below p pl Hchain
                  (Nat.le_refl p) Hold Ep) as Eall.
    assert (Hq_valid : forall q ql, In (q, ql) ((p, pl) :: below) ->
                         (q < length (heap st))%nat).
    { intros q ql Hq. destruct (Hs q ql (Hsub q ql Hq)) as (c & Hc & _).
      eapply nth_error_bound; eauto. }
    unfold spineOk. cbn [heap lanes laneStack]. fold h'. rewrite Hlen. split.
    + intros q ql f [Heq | Hq] Hf.
      * injection Heq as <- <-. destruct f as [|f]; [lia|].
        rewrite (flatten_leaf f h' _ lane Hn Hleaf).
        replace (S (length (heap st)) - length (heap st))%nat with 1%nat by lia.
        reflexivity.
      * pose proof (Hq_valid q ql Hq) as Hqv.
        rewrite (Eall q ql f Hq Hf), (Hold q ql f Hq) by lia.
        replace (S (length (heap st)) - q)%nat with (S (length (heap st) - q)) by lia.
        rewrite seq_S. f_equal. f_equal. lia.
    + intros f Hf.
      destruct (lastOpt_nonempty (p, pl) below) as [[t tl] Ht].
      assert (Hlast : lastOpt (lanes st) = Some t).
      { rewrite <- O6, Hsplit, lastOpt_app_cons, Ht. reflexivity. }
      apply lastOpt_In in Ht.
      apply lastOpt_split in Hlast. destruct Hlast as [initL HinitL].
      assert (Htp : (t <= p)%nat).
      { destruct Ht as [Heq | Ht]; [injection Heq as <- <-; lia|].
        pose proof (chain_below_smaller (heap st) Hh below p pl Hchain t tl Ht). lia. }
      pose proof (Hq_valid t tl Ht) as Htv.
      assert (Hall : flat_map (flatten f (heap st)) initL ++ flatten f (heap st) t
                     = seq 0 (length (heap st))).
      { rewrite <- (S3 f) by lia. rewrite HinitL, flat_map_app. cbn [flat_map].
        now rewrite app_nil_r. }
      rewrite HinitL, flat_map_app. cbn [flat_map]. rewrite app_nil_r.
      rewrite (Eall t tl f Ht) by lia. rewrite seq_S, <- Hall, <- app_assoc.
      cbn [Nat.add]. f_equal.
      apply flat_map_same. intros b Hb.
      apply (flatten_untouched (heap st) h' p Hh Hother').
      * apply Hlanes_valid. rewrite HinitL. apply in_or_app. left. exact Hb.
      * intros Hin.
        assert (Hnd : NoDup (flat_map (flatten f (heap st)) initL
                             ++ flatten f (heap st) t)).
        { rewrite Hall. apply seq_NoDup. }
        apply (NoDup_app_disjoint _ _ p Hnd).
        { apply in_flat_map. exists b. auto. }
        rewrite (Hold t tl f Ht) by lia. apply in_seq. lia.
Qed.

Section SpineFacts.
Variable E : Env.

Lemma headingStep_keeps_spine (siblings : list Node) (md : string) (st st' : Assembly)
    (index : nat) (child : Node) :
  assemblyOk st -> orderOk st -> spineOk st ->
  headingStep E siblings md st index child = Ok st' ->
  spineOk st'.
Proof.
  intros Hok Hord Hsp Hstep.
  destruct (headingStep_cases E siblings md st st' index child Hstep)
    as [(_ & ->) | [(_ & _ & l & r & _ & _ & ->) | (_ & _ & shouldMark & r & Hlink)]].
  - exact Hsp.
  - exact Hsp.
  - eapply linkLane_keeps_spine; eauto.
Qed.

Lemma forEachFrom_keeps_spine (siblings : list Node) (md : string) (rest : list Node) :
  forall index st st',
    assemblyOk st -> orderOk st -> spineOk st ->
    forEachFrom E siblings md index rest st = Ok st' ->
    spineOk st'.
Proof.
  induction rest as [|child rest IH]; cbn; intros index st st' Hok Hord Hsp H.
  - injection H as <-. exact Hsp.
  - bind_inv H. eapply IH; [| | |exact H].
    + eapply headingStep_keeps_invariant; eauto.
    + eapply headingStep_keeps_order; eauto.
    + eapply headingStep_keeps_spine; eauto.
Qed.

Lemma assemble_spine (root : Node) (md : string) (st : Assembly) :
  assemble E root md = Ok st -> spineOk st.
Proof.
  apply forEachFrom_keeps_spine;
    [apply emptyAssembly_ok | apply emptyAssembly_order |].
  split; [intros q ql f [] | intros f _; reflexivity].
Qed.

End SpineFacts.

(** *** From the walk through the lane objects to the lane tree *)

Lemma childLanes_lanesAmong (ys : list (Child Lane)) :
  flat_map childLanes ys = flat_map lanesIn (lanesAmong ys).
Proof.
  induction ys as [|[i|l] ys IH]; cbn [flat_map childLanes lanesAmong];
    [reflexivity | exact IH | now rewrite IH].
Qed.

(** The lanes of a lane read back are the lane objects its walk meets, in
    the same order. *)
Lemma reify_views (h : list LaneCell) :
  forall f a L,
    reify f h a = Ok L ->
    map (fun L' => Some (laneView L')) (lanesIn L) = map (viewAt h) (flatten f h a).
Proof.
  induction f as [|f IH]; intros a L HL; [discriminate|].
  apply reify_inv in HL. destruct HL as (f' & c & Hf & Hc & Hid & Hdata & Hch).
  injection Hf as <-.
  destruct (reified_children f h _ _ Hch) as (_ & _ & Hitems & Hlanes).
  rewrite lanesIn_unfold, flatten_S, Hc. cbn [map]. f_equal.
  - unfold viewAt, laneView, cellView, getNestedItems. rewrite Hc, Hid, Hdata, Hitems.
    reflexivity.
  - rewrite childLanes_lanesAmong.
    induction Hlanes as [|b Lb refs ls Hb _ IHl]; [reflexivity|].
    cbn [flat_map]. rewrite !map_app, IHl, (IH b Lb Hb). reflexivity.
Qed.

Lemma map_viewAt_seq (pre l : list LaneCell) :
  map (viewAt (pre ++ l)) (seq (length pre) (length l))
  = map (fun c => Some (cellView c)) l.
Proof.
  revert pre. induction l as [|c l IH]; intros pre; [reflexivity|].
  cbn [length seq map]. f_equal.
  - unfold viewAt. rewrite nth_error_app2, Nat.sub_diag by lia. reflexivity.
  - specialize (IH (pre ++ [c])). rewrite <- app_assoc, length_app in IH.
    cbn [length app] in IH. rewrite Nat.add_1_r in IH. exact IH.
Qed.

Lemma map_Some_inj {A : Type} (l1 l2 : list A) :
  map Some l1 = map Some l2 -> l1 = l2.
Proof.
  revert l2. induction l1 as [|x l1 IH]; intros [|y l2] H; try discriminate;
    [reflexivity|].
  cbn in H. injection H as -> H. f_equal. apply IH. exact H.
Qed.

(** The lanes of the tree, in the order of a depth-first walk, are the lane
    objects in the order of their allocation. *)
Lemma forest_views (st : Assembly) (top : list Lane) :
  spineOk st ->
  mapM (reify (length (heap st)) (heap st)) (lanes st) = Ok top ->
  map laneView (flat_map lanesIn top) = map cellView (heap st).
Proof.
  intros (_ & S3) Htop. apply mapM_Forall2 in Htop. apply map_Some_inj.
  rewrite !map_map. rewrite <- (map_viewAt_seq [] (heap st)). cbn [app length].
  rewrite <- (S3 (length (heap st)) (Nat.le_refl _)). clear S3.
  induction Htop as [|a L refs ls Ha _ IH]; [reflexivity|].
  cbn [flat_map]. rewrite !map_app, IH.
  rewrite <- (reify_views (heap st) _ a L Ha). reflexivity.
Qed.

(** *** The lane objects, in the order of their allocation *)

Lemma map_updateCell_view (h : list LaneCell) (a : nat) (f : LaneCell -> LaneCell) :
  (forall c, cellView (f c) = cellView c) ->
  map cellView (updateCell h a f) = map cellView h.
Proof.
  intros Hf. revert a. induction h as [|c h IH]; intros [|a]; cbn; [reflexivity.. | |].
  - now rewrite Hf.
  - now rewrite IH.
Qed.

Lemma linkLane_views (st st' : Assembly) (laneId : string) (data : LaneData) (lvl : Z)
    (r : list Item * nat) :
  linkLane st laneId data lvl r = Ok st' ->
  archiveItems st' = archiveItems st
  /\ idsDrawn st' = snd r
  /\ exists d', setParentId d' None = setParentId data None
                /\ map cellView (heap st')
                   = map cellView (heap st) ++ [(laneId, d', fst r)].
Proof.
  unfold linkLane.
  destruct (popWhile lvl (laneStack st)) as [|[p pl] below].
  - intros H. injection H as <-. cbn. split; [reflexivity|]. split; [reflexivity|].
    exists data. split; [reflexivity|].
    rewrite map_app. cbn. unfold cellView at 2. cbn. now rewrite childItems_items.
  - destruct (nth_error (heap st) p) as [cp|]; [|discriminate].
    intros H. injection H as <-. cbn. split; [reflexivity|]. split; [reflexivity|].
    eexists. split; [|rewrite map_updateCell_view, map_app].
    2: { cbn. unfold cellView at 2. cbn. rewrite childItems_items. reflexivity. }
    + reflexivity.
    + intros c. unfold cellView, pushChild. cbn. now rewrite childItems_snoc_lane.
Qed.

Section ViewFacts.
Variable E : Env.

Lemma headingStep_views (siblings : list Node) (md : string) (st st' : Assembly)
    (index : nat) (child : Node) :
  headingStep E siblings md st index child = Ok st' ->
  exists vs,
    map cellView (heap st') = map cellView (heap st) ++ vs
    /\ Forall2 (viewOfHeading E siblings md) (laneHeadingAt E siblings index child) vs.
Proof.
  intros Hstep. unfold laneHeadingAt.
  destruct (headingStep_cases E siblings md st st' index child Hstep)
    as [(Hty & ->) | [(Hty & Hopen & l & r & _ & _ & ->) | (Hty & Hopen & _)]].
  - rewrite Hty. exists []. rewrite app_nil_r. split; [reflexivity | constructor].
  - rewrite Hty, Hopen. exists []. rewrite app_nil_r. split; [reflexivity | constructor].
  - rewrite Hty, Hopen. cbn [andb negb].
    destruct (headingStep_lane E siblings md st st' index child Hstep Hty Hopen)
      as (r & Hmake & Hlink).
    destruct (linkLane_views _ _ _ _ _ _ Hlink) as (_ & _ & d' & Hd' & Hviews).
    eexists. split; [exact Hviews|]. constructor; [|constructor].
    split; cbn [fst snd].
    + rewrite Hd'. reflexivity.
    + eapply makeItems_spec; eauto.
Qed.

Lemma forEachFrom_views (siblings : list Node) (md : string) (rest : list Node) :
  forall index st st',
    forEachFrom E siblings md index rest st = Ok st' ->
    exists vs,
      map cellView (heap st') = map cellView (heap st) ++ vs
      /\ Forall2 (viewOfHeading E siblings md) (laneHeadingsFrom E siblings index rest) vs.
Proof.
  induction rest as [|child rest IH]; cbn; intros index st st' H.
  - injection H as <-. exists []. rewrite app_nil_r. split; [reflexivity | constructor].
  - bind_inv H.
    destruct (headingStep_views siblings md st a index child Ha) as (v1 & E1 & F1).
    destruct (IH (S index) a st' H) as (v2 & E2 & F2).
    exists (v1 ++ v2). rewrite E2, E1, app_assoc. split; [reflexivity|].
    apply Forall2_app; assumption.
Qed.

End ViewFacts.

Lemma Forall2_map_r {A B C : Type} (R : A -> C -> Prop) (f : B -> C) (xs : list A)
    (ys : list B) :
  Forall2 R xs (map f ys) -> Forall2 (fun x y => R x (f y)) xs ys.
Proof.
  revert xs. induction ys as [|y ys IH]; intros xs H; inversion H; subst;
    constructor; auto.
Qed.

Lemma laneHeadingsFrom_In (E : Env) (siblings : list Node) (rest : list Node) :
  forall index i child,
    In (i, child) (laneHeadingsFrom E siblings index rest) <->
    exists k, i = (index + k)%nat
              /\ nth_error rest k = Some child
              /\ isType child "heading" = true
              /\ opensArchive E siblings i child = false.
Proof.
  induction rest as [|c rest IH]; intros index i child; cbn [laneHeadingsFrom].
  - split; [intros [] | intros ([|k] & _ & H & _); discriminate].
  - rewrite in_app_iff, IH. unfold laneHeadingAt. split.
    + intros [Hin | (k & -> & Hk & Hty & Hopen)].
      * destruct (isType c "heading") eqn:Hty; [|contradiction].
        destruct (opensArchive E siblings index c) eqn:Hopen; [contradiction|].
        destruct Hin as [Heq | []]. injection Heq as <- <-.
        exists 0%nat. rewrite Nat.add_0_r. auto.
      * exists (S k). rewrite Nat.add_succ_r. auto.
    + intros ([|k] & -> & Hk & Hty & Hopen).
      * left. cbn in Hk. injection Hk as ->. rewrite Nat.add_0_r in Hopen |- *.
        rewrite Hty, Hopen. left. reflexivity.
      * right. exists k. rewrite Nat.add_succ_r in Hopen |- *. auto.
Qed.

Lemma laneHeadingsFrom_sorted (E : Env) (siblings : list Node) (rest : list Node) :
  forall index,
    Sorted lt (map fst (laneHeadingsFrom E siblings index rest))
    /\ forall x, In x (map fst (laneHeadingsFrom E siblings index rest)) ->
                 (index <= x)%nat.
Proof.
  induction rest as [|c rest IH]; intros index; cbn [laneHeadingsFrom].
  - split; [constructor | intros x []].
  - destruct (IH (S index)) as (Hs & Hb). unfold laneHeadingAt.
    destruct (isType c "heading" && negb (opensArchive E siblings index c)); cbn [app map fst].
    + split.
      * constructor; [exact Hs|].
        destruct (map fst (laneHeadingsFrom E siblings (S index) rest)) as [|y l];
          constructor.
        specialize (Hb y (or_introl eq_refl)). lia.
      * intros x [<- | Hx]; [lia|]. specialize (Hb x Hx). lia.
    + split; [exact Hs|]. intros x Hx. specialize (Hb x Hx). lia.
Qed.

(** X9: the lanes of a board the assembler produces, taken in the order of a
    depth-first walk through the lane tree (each lane before its nested
    lanes, the order in which the serializer writes them), are the lanes of
    the lane headings of the document in document order, one lane for each
    heading: no heading is left out, none yields two lanes, and none changes
    place. A lane heading is any heading that does not open the archive.
    Each lane holds the data read from its own heading (the title and the item
    limit parsed from the heading text, the heading's depth as level, never
    collapsed, the completion flag the scan for the list left) but for
    [parentId], and the decomposed items of the list found after that
    heading, one per list item and in the order of the list; a lane whose
    heading has no list has no items. *)
Theorem lanes_in_document_order (E : Env) (settings_ : KanbanSettings)
    (frontmatter_ : Frontmatter) (root : Node) (md : string) (b : Board) :
  astToUnhydratedBoard E settings_ frontmatter_ root md = Ok b ->
  (forall i child,
     In (i, child) (laneHeadings E (children root)) <->
     laneHeading E (children root) i child)
  /\ Sorted lt (map fst (laneHeadings E (children root)))
  /\ Forall2
       (fun hd L =>
          laneFromHeading E (children root) md (fst hd) (snd hd)
            (lane_data L) (getNestedItems L))
       (laneHeadings E (children root)) (boardLanes b).
Proof.
  intros H. split; [|split].
  - intros i child. unfold laneHeadings, laneHeading. rewrite laneHeadingsFrom_In.
    split; [intros (k & -> & R); exact R | intros R; exists i; auto].
  - apply laneHeadingsFrom_sorted.
  - unfold astToUnhydratedBoard in H. bind_inv H. bind_inv H. injection H as <-.
    rename a into st, a0 into top. unfold boardLanes. cbn [board_children].
    pose proof (forest_views st top (assemble_spine E root md st Ha) Ha0) as Hviews.
    destruct (forEachFrom_views E (children root) md (children root) 0 emptyAssembly st Ha)
      as (vs & Hvs & HF).
    cbn in Hvs. rewrite <- Hviews in Hvs. subst vs.
    apply Forall2_map_r in HF. exact HF.
Qed.

Lemma lanes_in_document_order_witness :
  Forall2
    (fun hd L =>
       laneFromHeading Demo.env (children (Demo.parseDocument Demo.nestedDoc))
         Demo.nestedDoc (fst hd) (snd hd) (lane_data L) (getNestedItems L))
    (laneHeadings Demo.env (children (Demo.parseDocument Demo.nestedDoc)))
    (boardLanes (Demo.get (Demo.boardOf []) (Demo.parseBoard Demo.nestedDoc))).
Proof.
  apply (lanes_in_document_order Demo.env [] [] (Demo.parseDocument Demo.nestedDoc)
           Demo.nestedDoc).
  vm_compute. reflexivity.
Defined.

(** ** The assembler: the ids it draws *)

Section IdFacts.
Variable E : Env.

Lemma makeItems_ids (md : string) (listItems : list Node) :
  forall drawn r,
    makeItems E md drawn listItems = Ok r ->
    map item_id (fst r) = map (instanceId E) (seq drawn (length listItems))
    /\ snd r = (drawn + length listItems)%nat.
Proof.
  induction listItems as [|li rest IH]; cbn; intros drawn r H.
  - injection H as <-. cbn. split; [reflexivity | lia].
  - bind_inv H. bind_inv H. injection H as <-. cbn.
    destruct (IH (S drawn) a0 Ha0) as (-> & ->). split; [reflexivity | lia].
Qed.

Lemma headingStep_ids (siblings : list Node) (md : string) (st st' : Assembly)
    (index : nat) (child : Node) :
  headingStep E siblings md st index child = Ok st' ->
  exists k,
    idsDrawn st' = (idsDrawn st + k)%nat
    /\ Permutation (assemblyIds st')
         (assemblyIds st ++ map (instanceId E) (seq (idsDrawn st) k)).
Proof.
  intros Hstep.
  destruct (headingStep_cases E siblings md st st' index child Hstep)
    as [(Hty & ->) | [(Hty & Hopen & l & r & _ & Hmake & ->) | (Hty & Hopen & _)]].
  - exists 0%nat. cbn. rewrite app_nil_r. split; [lia | apply Permutation_refl].
  - destruct (makeItems_ids md _ _ _ Hmake) as (Hids & Hdrawn).
    exists (length (children l)). cbn [idsDrawn]. split; [exact Hdrawn|].
    unfold assemblyIds. cbn [heap archiveItems].
    rewrite map_app, Hids, app_assoc. apply Permutation_refl.
  - destruct (headingStep_lane E siblings md st st' index child Hstep Hty Hopen)
      as (r & Hmake & Hlink).
    destruct (makeItems_ids md _ _ _ Hmake) as (Hids & Hdrawn).
    destruct (linkLane_views _ _ _ _ _ _ Hlink) as (Harch & Hd & d' & _ & Hviews).
    exists (S (length (listItemsAfter E siblings index))).
    split; [rewrite Hd, Hdrawn; lia|].
    unfold assemblyIds. rewrite Hviews, Harch, flat_map_app. cbn [flat_map].
    rewrite app_nil_r. unfold viewIds at 2. cbn [fst snd]. rewrite Hids.
    change (instanceId E (idsDrawn st)
            :: map (instanceId E)
                 (seq (S (idsDrawn st)) (length (listItemsAfter E siblings index))))
      with (map (instanceId E)
              (seq (idsDrawn st) (S (length (listItemsAfter E siblings index))))).
    rewrite <- !app_assoc. apply Permutation_app_head. apply Permutation_app_comm.
Qed.

Lemma forEachFrom_ids (siblings : list Node) (md : string) (rest : list Node) :
  forall index st st',
    forEachFrom E siblings md index rest st = Ok st' ->
    exists k,
      idsDrawn st' = (idsDrawn st + k)%nat
      /\ Permutation (assemblyIds st')
           (assemblyIds st ++ map (instanceId E) (seq (idsDrawn st) k)).
Proof.
  induction rest as [|child rest IH]; cbn; intros index st st' H.
  - injection H as <-. exists 0%nat. cbn. rewrite app_nil_r.
    split; [lia | apply Permutation_refl].
  - bind_inv H.
    destruct (headingStep_ids siblings md st a index child Ha) as (k1 & D1 & P1).
    destruct (IH (S index) a st' H) as (k2 & D2 & P2).
    exists (k1 + k2)%nat. split; [lia|].
    rewrite seq_app, map_app, app_assoc, <- D1.
    eapply Permutation_trans; [exact P2|]. apply Permutation_app_tail. exact P1.
Qed.

End IdFacts.

Lemma NoDup_map_injective {A B : Type} (f : A -> B) (l : list A) :
  (forall x y, f x = f y -> x = y) -> NoDup l -> NoDup (map f l).
Proof.
  intros Hinj. induction 1 as [|x l Hx _ IH]; cbn; constructor; [|exact IH].
  intros Hin. apply in_map_iff in Hin. destruct Hin as (y & Hy & Hin).
  apply Hinj in Hy. subst y. contradiction.
Qed.

(** X10: the ids of a board the assembler produces (of its lanes, nested ones
    included, of their items and of the archived items) are the ids drawn
    from [generateInstanceId] during the run, each drawn id given to exactly
    one lane or item; so when the generator never returns the same id twice,
    no two lanes or items of the board share an id. *)
Theorem parsed_ids_distinct (E : Env) (settings_ : KanbanSettings)
    (frontmatter_ : Frontmatter) (root : Node) (md : string) (b : Board) :
  (forall i j, instanceId E i = instanceId E j -> i = j) ->
  astToUnhydratedBoard E settings_ frontmatter_ root md = Ok b ->
  (exists n, Permutation (boardIds b) (map (instanceId E) (seq 0 n)))
  /\ NoDup (boardIds b).
Proof.
  intros Hinj. unfold astToUnhydratedBoard. intros H. bind_inv H. bind_inv H.
  injection H as <-. rename a into st, a0 into top.
  assert (Hperm : Permutation
                    (boardIds
                       {| board_id := filePath E;
                          board_children := top;
                          board_data :=
                            {| settings := settings_;
                               frontmatter := frontmatter_;
                               archive := archiveItems st;
                               isSearching := false;
                               errors := [] |} |})
                    (map (instanceId E) (seq 0 (idsDrawn st)))).
  { unfold boardIds, boardLanes. cbn [board_children board_data archive].
    rewrite (forest_views st top (assemble_spine E root md st Ha) Ha0).
    destruct (forEachFrom_ids E (children root) md (children root) 0 emptyAssembly st Ha)
      as (k & Hk & P).
    cbn in Hk, P. subst k. exact P. }
  split; [eauto|].
  apply (Permutation_NoDup (Permutation_sym Hperm)).
  apply NoDup_map_injective; [exact Hinj | apply seq_NoDup].
Qed.

Lemma demo_ids_injective (i j : nat) :
  instanceId Demo.env i = instanceId Demo.env j -> i = j.
Proof.
  cbn [instanceId Demo.env]. intros H.
  assert (Hrep : forall a b, repeatNat "i" a = repeatNat "i" b -> a = b).
  { induction a as [|a IH]; intros [|b] Hab; cbn in Hab; try discriminate;
      [reflexivity|].
    injection Hab as Hab. f_equal. apply IH. exact Hab. }
  apply Hrep in H. lia.
Qed.

Lemma parsed_ids_distinct_witness :
  NoDup (boardIds (Demo.get (Demo.boardOf []) (Demo.parseBoard Demo.archiveDoc))).
Proof.
  apply (parsed_ids_distinct Demo.env [] [] (Demo.parseDocument Demo.archiveDoc)
           Demo.archiveDoc).
  - exact demo_ids_injective.
  - vm_compute. reflexivity.
Defined.

(** ** Bulk reparse: when it fails *)

Lemma mapM_Throw_inv {A B : Type} (f : A -> result B) (xs : list A) (e : Error) :
  mapM f xs = Throw e -> exists x, In x xs /\ f x = Throw e.
Proof.
  induction xs as [|x xs IH]; cbn; intros H; [discriminate|].
  destruct (f x) as [y|e'] eqn:Hx; cbn in H.
  - destruct (mapM f xs) as [ys|e'] eqn:Hxs; cbn in H; [discriminate|].
    injection H as ->. destruct (IH eq_refl) as (x' & Hin & Hx'). eauto.
  - injection H as ->. eauto.
Qed.

(** X11: [reparseBoard] fails only on an item that is a direct child of a
    top-level lane: when it throws, the exception is the one
    [updateItemContent] threw on such an item, and it is the exception handed
    to [stateManager.setError]; when it returns, no error was set and every
    such item recomposed. *)
Theorem reparse_fails_only_on_direct_items (E : Env) (board : Board) :
  match returned (reparseBoard E board) with
  | Throw e =>
      errorSet (reparseBoard E board) = Some e
      /\ exists lane it,
           In lane (board_children board)
           /\ In (ChildItem it) (lane_children lane)
           /\ updateItemContent E it (titleRaw (item_data it)) = Throw e
  | Ok _ =>
      errorSet (reparseBoard E board) = None
      /\ forall lane it,
           In lane (board_children board) ->
           In (ChildItem it) (lane_children lane) ->
           exists it', updateItemContent E it (titleRaw (item_data it)) = Ok it'
  end.
Proof.
  unfold reparseBoard.
  destruct (mapM (reparseLane E) (board_children board)) as [top|e] eqn:Htop;
    cbn [returned errorSet]; (split; [reflexivity|]).
  - intros lane it Hlane Hit. apply mapM_Forall2 in Htop.
    destruct (Forall2_In_l _ _ _ _ Htop Hlane) as (lane' & _ & Hl).
    unfold reparseLane in Hl. bind_inv Hl. apply mapM_Forall2 in Ha.
    destruct (Forall2_In_l _ _ _ _ Ha Hit) as (c' & _ & Hc).
    apply reparseChild_spec in Hc. destruct Hc as (it' & _ & Hit'). eauto.
  - apply mapM_Throw_inv in Htop. destruct Htop as (lane & Hlane & Hl).
    unfold reparseLane in Hl.
    destruct (mapM (reparseChild E) (lane_children lane)) as [ch|e'] eqn:Hch;
      cbn in Hl; [discriminate|].
    injection Hl as ->. apply mapM_Throw_inv in Hch. destruct Hch as (c & Hc & Hthrow).
    destruct c as [it|l]; cbn in Hthrow; [|discriminate].
    destruct (updateItemContent E it (titleRaw (item_data it))) as [it'|e'] eqn:Hup;
      cbn in Hthrow; [discriminate|].
    injection Hthrow as ->. exists lane, it. auto.
Qed.

(** ** From the document to the text written back *)

Lemma laneFromHeading_line (E : Env) (siblings : list Node) (md : string) (index : nat)
    (child : Node) (d : LaneData) (items : list Item) :
  laneFromHeading E siblings md index child d items ->
  headingLine E d = writtenHeading E md child.
Proof.
  intros (Hdata & _).
  assert (Ht : l_title d = l_title (laneDataOf E md child (completeAfter E siblings index)))
    by (rewrite <- Hdata; reflexivity).
  assert (Hm : maxItems d = maxItems (laneDataOf E md child (completeAfter E siblings index)))
    by (rewrite <- Hdata; reflexivity).
  assert (Hl : level d = level (laneDataOf E md child (completeAfter E siblings index)))
    by (rewrite <- Hdata; reflexivity).
  unfold headingLine, writtenHeading, headingPrefix, repeat. rewrite Ht, Hm, Hl.
  cbn [laneDataOf l_title maxItems level]. rewrite orOne_idem. reflexivity.
Qed.

(** X12: the heading lines the serializer writes for the lanes of a parsed
    board, in the order it writes them, are those of the lane headings of the
    document in document order, each with one [#] more than the depth of the
    heading it was read from ([max(1, depth + 1)], a missing or zero depth
    counting as 1) and with the title the heading text gives through
    [parseLaneTitle], [laneTitleWithMaxItems] and [replaceNewLines]. *)
Theorem headings_written_one_deeper (E : Env) (settings_ : KanbanSettings)
    (frontmatter_ : Frontmatter) (root : Node) (md : string) (b : Board) :
  astToUnhydratedBoard E settings_ frontmatter_ root md = Ok b ->
  map (fun L => headingLine E (lane_data L)) (boardLanes b)
  = map (fun hd => writtenHeading E md (snd hd)) (laneHeadings E (children root)).
Proof.
  unfold astToUnhydratedBoard. intros H. bind_inv H. bind_inv H. injection H as <-.
  rename a into st, a0 into top. unfold boardLanes. cbn [board_children].
  pose proof (forest_views st top (assemble_spine E root md st Ha) Ha0) as Hviews.
  destruct (forEachFrom_views E (children root) md (children root) 0 emptyAssembly st Ha)
    as (vs & Hvs & HF).
  cbn in Hvs. rewrite <- Hviews in Hvs. subst vs. apply Forall2_map_r in HF.
  clear Hviews. unfold laneHeadings.
  induction HF as [|hd L hds Ls Hone _ IH]; [reflexivity|].
  cbn [map]. rewrite IH. f_equal.
  exact (laneFromHeading_line E _ md _ _ _ _ Hone).
Qed.

Lemma headings_written_one_deeper_witness :
  map (fun L => headingLine Demo.env (lane_data L))
    (boardLanes (Demo.get (Demo.boardOf []) (Demo.parseBoard Demo.nestedDoc)))
  = map (fun hd => writtenHeading Demo.env Demo.nestedDoc (snd hd))
      (laneHeadings Demo.env (children (Demo.parseDocument Demo.nestedDoc))).
Proof.
  apply (headings_written_one_deeper Demo.env [] [] (Demo.parseDocument Demo.nestedDoc)
           Demo.nestedDoc).
  vm_compute. reflexivity.
Defined.

(** ** Lane helpers *)

(** X13: the two filters split the children of a lane: every child is either
    one of its nested items or one of its nested lanes, the two lists together
    are as long as the children, and a lane is a parent lane exactly when it
    has a nested lane, so that the component's [isParent] and
    [hasNestedLanes] always agree. *)
Theorem nested_lanes_and_items_partition (lane : Lane) :
  (length (getNestedItems lane) + length (getNestedLanes lane)
   = length (lane_children lane))%nat
  /\ (forall c, In c (lane_children lane) <->
        (exists i, c = ChildItem i /\ In i (getNestedItems lane))
        \/ (exists l, c = ChildLane l /\ In l (getNestedLanes lane)))
  /\ (isParentLane lane = true <-> getNestedLanes lane <> []).
Proof.
  unfold getNestedItems, getNestedLanes, isParentLane.
  induction (lane_children lane) as [|[i|l] cs (IH1 & IH2 & IH3)].
  - cbn. split; [reflexivity|]. split.
    + intros c. split; [intros [] | intros [(i & _ & [])|(l & _ & [])]].
    + split; [discriminate | congruence].
  - cbn. split; [lia|]. split; [|exact IH3].
    intros c. rewrite IH2. split.
    + intros [<- | [(j & -> & Hj) | (l & -> & Hl)]]; [left | left | right]; eauto.
    + intros [(j & -> & [-> | Hj]) | (l & -> & Hl)]; [left | right; left | right; right];
        eauto.
  - cbn. split; [lia|]. split; [|split; [discriminate | reflexivity]].
    intros c. rewrite IH2. split.
    + intros [<- | [(j & -> & Hj) | (l' & -> & Hl)]]; [right | left | right]; eauto.
    + intros [(j & -> & Hj) | (l' & -> & [-> | Hl])]; [right; left | left | right; right];
        eauto.
Qed.

(** ** The collapse state of the lane component *)

Lemma arrayGet_nil (j : nat) : arrayGet [] j = None.
Proof.
  destruct j; reflexivity.
Qed.

(** Reading an array after one assignment, holes included. *)
Lemma arrayGet_arraySet (arr : list (option bool)) (i : nat) (v : option bool) :
  forall j, arrayGet (arraySet arr i v) j = if Nat.eqb j i then v else arrayGet arr j.
Proof.
  revert arr. induction i as [|i IH]; intros [|x arr] [|j]; cbn; try reflexivity.
  - apply arrayGet_nil.
  - change (arrayGet (None :: arraySet [] i v) (S j)) with (arrayGet (arraySet [] i v) j).
    rewrite IH, !arrayGet_nil. reflexivity.
  - change (arrayGet (x :: arraySet arr i v) (S j)) with (arrayGet (arraySet arr i v) j).
    rewrite IH. reflexivity.
Qed.

Lemma length_arraySet (arr : list (option bool)) (i : nat) (v : option bool) :
  length (arraySet arr i v) = Nat.max (length arr) (S i).
Proof.
  revert arr. induction i as [|i IH]; intros [|x arr]; cbn; try reflexivity.
  - destruct (length arr); reflexivity.
  - rewrite IH. reflexivity.
  - rewrite IH. reflexivity.
Qed.

(** Reading an object after one key is set. *)
Lemma objGet_objSet (obj : list (string * bool)) (key : string) (v : bool) :
  forall k, objGet (objSet obj key v) k = if String.eqb k key then Some v else objGet obj k.
Proof.
  intros k. induction obj as [|[k0 v0] obj IH]; cbn.
  - rewrite String.eqb_sym. reflexivity.
  - destruct (String.eqb_spec k0 key) as [-> | Hne]; cbn.
    + rewrite (String.eqb_sym k key). destruct (String.eqb key k); reflexivity.
    + rewrite IH. destruct (String.eqb_spec k0 k) as [-> | Hne']; [|reflexivity].
      destruct (String.eqb_spec k key); [contradiction | reflexivity].
Qed.

(** [toggleIsCollapsed] fails exactly on an absent 'list-collapse'. *)
Lemma toggleIsCollapsed_returns (vs : ViewState) (laneIndex : nat) (arr : list (option bool)) :
  listCollapse vs = Some arr ->
  exists t, toggleIsCollapsed vs laneIndex = Ok t.
Proof.
  unfold toggleIsCollapsed. intros ->. eauto.
Qed.

(** What a lane at position [j] reads after the lane at [laneIndex] was
    toggled. *)
Lemma toggle_reads (vs : ViewState) (laneIndex : nat) (t : Toggled) :
  toggleIsCollapsed vs laneIndex = Ok t ->
  forall j,
    truthy (arrayGet (listCollapseState (viewAfter t)) j)
    = if Nat.eqb j laneIndex
      then negb (truthy (arrayGet (listCollapseState vs) laneIndex))
      else truthy (arrayGet (listCollapseState vs) j).
Proof.
  unfold toggleIsCollapsed, listCollapseState.
  destruct (listCollapse vs) as [arr|]; [|discriminate].
  intros H. injection H as <-. cbn. intros j. rewrite arrayGet_arraySet.
  destruct (Nat.eqb j laneIndex); reflexivity.
Qed.

Lemma lanesIsCollapsed_reads (search : option Search) (vs vs' : ViewState) (lane : Lane)
    (j : nat) :
  truthy (arrayGet (listCollapseState vs') j) = truthy (arrayGet (listCollapseState vs) j) ->
  lanesIsCollapsed search vs' lane j = lanesIsCollapsed search vs lane j.
Proof.
  unfold lanesIsCollapsed. intros ->. reflexivity.
Qed.

(** A lane with nested lanes toggles its hierarchical collapse, and that
    never fails. *)
Lemma toggleHierarchicalCollapse_of_parent (vs : ViewState) (lane : Lane) (laneIndex : nat) :
  isParentLane lane = true ->
  toggleHierarchicalCollapse vs lane laneIndex = Ok (hierarchicalToggled vs lane).
Proof.
  intros Hp. unfold toggleHierarchicalCollapse. rewrite Hp. reflexivity.
Qed.

(** What the collapse object reads for a lane after a parent lane was
    toggled. *)
Lemma hierarchical_toggle_reads (vs : ViewState) (lane other : Lane) :
  truthy (objGet (hierarchicalState (viewAfter (hierarchicalToggled vs lane)))
            (lane_id other))
  = if String.eqb (lane_id other) (lane_id lane)
    then negb (truthy (objGet (hierarchicalState vs) (lane_id lane)))
    else truthy (objGet (hierarchicalState vs) (lane_id other)).
Proof.
  cbn. rewrite objGet_objSet.
  destruct (String.eqb (lane_id other) (lane_id lane)); reflexivity.
Qed.

Lemma hierarchical_toggle_flips (vs : ViewState) (lane : Lane) :
  isParentLane lane = true ->
  isHierarchicallyCollapsed (viewAfter (hierarchicalToggled vs lane)) lane
  = negb (isHierarchicallyCollapsed vs lane).
Proof.
  intros Hp. unfold isHierarchicallyCollapsed. rewrite Hp. cbn [negb].
  rewrite (hierarchical_toggle_reads vs lane lane), String.eqb_refl.
  reflexivity.
Qed.

Lemma hierarchical_toggle_others (vs : ViewState) (lane other : Lane) :
  lane_id other <> lane_id lane ->
  isHierarchicallyCollapsed (viewAfter (hierarchicalToggled vs lane)) other
  = isHierarchicallyCollapsed vs other.
Proof.
  intros Hne. unfold isHierarchicallyCollapsed.
  destruct (isParentLane other); cbn [negb]; [|reflexivity].
  rewrite (hierarchical_toggle_reads vs lane other).
  destruct (String.eqb_spec (lane_id other) (lane_id lane)); [contradiction | reflexivity].
Qed.

(** X14: [toggleIsCollapsed] throws exactly when the view state holds no
    'list-collapse' array (the spread has no fallback). Otherwise it flips
    what the lane rendered at position [laneIndex] reads from the array and
    leaves what is read at every other position as it was, also when
    [laneIndex] lies beyond the end of the array, which then grows to hold
    it; the entry is read by position only, so it is shared by whatever lane
    a [Lanes] list renders at that position. The object of hierarchical
    collapse is left alone, and the board's settings receive the array the
    view state received. *)
Theorem toggleIsCollapsed_flips_one_index (vs : ViewState) (laneIndex : nat) :
  match toggleIsCollapsed vs laneIndex with
  | Throw _ => listCollapse vs = None
  | Ok t =>
      (exists arr arr',
         listCollapse vs = Some arr
         /\ listCollapse (viewAfter t) = Some arr'
         /\ length arr' = Nat.max (length arr) (S laneIndex)
         /\ patch t = SetListCollapse arr')
      /\ (forall search lane j, j <> laneIndex ->
            lanesIsCollapsed search (viewAfter t) lane j
            = lanesIsCollapsed search vs lane j)
      /\ (forall lane, lanesIsCollapsed None (viewAfter t) lane laneIndex
                       = negb (lanesIsCollapsed None vs lane laneIndex))
      /\ hierarchicalCollapse (viewAfter t) = hierarchicalCollapse vs
  end.
Proof.
  destruct (toggleIsCollapsed vs laneIndex) as [t|e] eqn:Ht.
  - pose proof (toggle_reads vs laneIndex t Ht) as Hreads.
    split; [|split; [|split]].
    + unfold toggleIsCollapsed in Ht. destruct (listCollapse vs) as [arr|]; [|discriminate].
      injection Ht as <-. cbn. eexists. eexists. split; [reflexivity|].
      split; [reflexivity|]. split; [apply length_arraySet | reflexivity].
    + intros search lane j Hj. apply lanesIsCollapsed_reads. rewrite Hreads.
      destruct (Nat.eqb_spec j laneIndex); [contradiction | reflexivity].
    + intros lane. unfold lanesIsCollapsed. rewrite Hreads, Nat.eqb_refl. reflexivity.
    + unfold toggleIsCollapsed in Ht. destruct (listCollapse vs); [|discriminate].
      injection Ht as <-. reflexivity.
  - unfold toggleIsCollapsed in Ht. destruct (listCollapse vs); [discriminate | reflexivity].
Qed.

(** X15: after a toggle that went through, a second toggle of the same
    position goes through as well and restores what every lane reads from
    'list-collapse', with or without a search (the array itself may have
    grown, and a hole may have become [false]). *)
Theorem toggleIsCollapsed_twice (vs : ViewState) (laneIndex : nat) (t1 : Toggled) :
  toggleIsCollapsed vs laneIndex = Ok t1 ->
  exists t2,
    toggleIsCollapsed (viewAfter t1) laneIndex = Ok t2
    /\ forall search lane j,
         lanesIsCollapsed search (viewAfter t2) lane j = lanesIsCollapsed search vs lane j.
Proof.
  intros H1.
  assert (Harr : exists arr, listCollapse (viewAfter t1) = Some arr).
  { unfold toggleIsCollapsed in H1. destruct (listCollapse vs); [|discriminate].
    injection H1 as <-. cbn. eauto. }
  destruct Harr as [arr Harr].
  destruct (toggleIsCollapsed_returns (viewAfter t1) laneIndex arr Harr) as [t2 H2].
  exists t2. split; [exact H2|]. intros search lane j. apply lanesIsCollapsed_reads.
  rewrite (toggle_reads _ _ _ H2). destruct (Nat.eqb_spec j laneIndex) as [-> | Hne].
  - rewrite (toggle_reads _ _ _ H1), Nat.eqb_refl. apply negb_involutive.
  - rewrite (toggle_reads _ _ _ H1).
    destruct (Nat.eqb_spec j laneIndex); [contradiction | reflexivity].
Qed.

Lemma toggleIsCollapsed_twice_witness :
  exists t2,
    toggleIsCollapsed
      (viewAfter (Demo.get (mkToggled Demo.freshView (SetListCollapse []))
                    (toggleIsCollapsed Demo.freshView 2))) 2 = Ok t2
    /\ forall search lane j,
         lanesIsCollapsed search (viewAfter t2) lane j
         = lanesIsCollapsed search Demo.freshView lane j.
Proof.
  apply (toggleIsCollapsed_twice Demo.freshView 2).
  reflexivity.
Defined.

(** X16: on a lane with nested lanes, [toggleHierarchicalCollapse] never
    fails; it flips the hierarchical collapse of that lane, keeps that of
    every lane with another id, never touches 'list-collapse' (so the lane's
    own [isCollapsed] prop is as before), hands the settings the object the
    view state received, and a second toggle restores what every lane
    reads. *)
Theorem toggleHierarchicalCollapse_parent (vs : ViewState) (lane : Lane) (laneIndex : nat) :
  isParentLane lane = true ->
  exists t,
    toggleHierarchicalCollapse vs lane laneIndex = Ok t
    /\ isHierarchicallyCollapsed (viewAfter t) lane
       = negb (isHierarchicallyCollapsed vs lane)
    /\ (forall other, lane_id other <> lane_id lane ->
          isHierarchicallyCollapsed (viewAfter t) other
          = isHierarchicallyCollapsed vs other)
    /\ listCollapse (viewAfter t) = listCollapse vs
    /\ patch t = SetHierarchicalCollapse (hierarchicalState (viewAfter t))
    /\ exists t2,
         toggleHierarchicalCollapse (viewAfter t) lane laneIndex = Ok t2
         /\ forall other,
              isHierarchicallyCollapsed (viewAfter t2) other
              = isHierarchicallyCollapsed vs other.
Proof.
  intros Hp. exists (hierarchicalToggled vs lane).
  split; [apply toggleHierarchicalCollapse_of_parent; exact Hp|].
  split; [apply hierarchical_toggle_flips; exact Hp|].
  split; [intros other; apply hierarchical_toggle_others|].
  split; [reflexivity|]. split; [reflexivity|].
  exists (hierarchicalToggled (viewAfter (hierarchicalToggled vs lane)) lane).
  split; [apply toggleHierarchicalCollapse_of_parent; exact Hp|].
  intros other. unfold isHierarchicallyCollapsed.
  destruct (isParentLane other); cbn [negb]; [|reflexivity].
  rewrite (hierarchical_toggle_reads _ lane other).
  rewrite (hierarchical_toggle_reads vs lane lane), String.eqb_refl.
  rewrite (hierarchical_toggle_reads vs lane other).
  destruct (String.eqb_spec (lane_id other) (lane_id lane)) as [-> | Hne];
    [apply negb_involutive | reflexivity].
Qed.

Lemma toggleHierarchicalCollapse_parent_witness :
  exists t,
    toggleHierarchicalCollapse Demo.freshView Demo.parentLane 0 = Ok t
    /\ isHierarchicallyCollapsed (viewAfter t) Demo.parentLane
       = negb (isHierarchicallyCollapsed Demo.freshView Demo.parentLane).
Proof.
  destruct (toggleHierarchicalCollapse_parent Demo.freshView Demo.parentLane 0)
    as (t & Ht & Hflip & _).
  - reflexivity.
  - exists t. split; [exact Ht | exact Hflip].
Defined.

Lemma afterKey_cases (vs : ViewState) (lane : Lane) (laneIndex : nat) (key : string)
    (onElement : bool) :
  isParentLane lane = true ->
  (handleKeyDown vs lane laneIndex key onElement = Ok None
   /\ afterKey vs lane laneIndex key onElement = vs)
  \/ (handleKeyDown vs lane laneIndex key onElement = Ok (Some (hierarchicalToggled vs lane))
      /\ afterKey vs lane laneIndex key onElement
         = viewAfter (hierarchicalToggled vs lane)).
Proof.
  intros Hp. unfold afterKey, handleKeyDown.
  rewrite (toggleHierarchicalCollapse_of_parent vs lane laneIndex Hp), Hp. cbn [negb bind].
  destruct (String.eqb key "ArrowLeft" && negb (isHierarchicallyCollapsed vs lane));
    [right; auto|].
  destruct (String.eqb key "ArrowRight" && isHierarchicallyCollapsed vs lane);
    [right; auto|].
  destruct ((String.eqb key " " || String.eqb key "Enter") && onElement);
    [right; auto | left; auto].
Qed.

Lemma arrow_key_leaves (vs : ViewState) (lane : Lane) (laneIndex : nat) (onElement : bool) :
  isParentLane lane = true ->
  isHierarchicallyCollapsed (afterKey vs lane laneIndex "ArrowLeft" onElement) lane = true
  /\ isHierarchicallyCollapsed (afterKey vs lane laneIndex "ArrowRight" onElement) lane
     = false.
Proof.
  intros Hp. unfold afterKey, handleKeyDown.
  rewrite (toggleHierarchicalCollapse_of_parent vs lane laneIndex Hp), Hp.
  cbn [negb bind String.eqb Ascii.eqb Bool.eqb andb].
  pose proof (hierarchical_toggle_flips vs lane Hp) as Hflip.
  destruct (isHierarchicallyCollapsed vs lane) eqn:Hc; cbn [negb andb orb] in *; auto.
Qed.

(** X17: on a lane with nested lanes no key makes the handler fail. ArrowLeft
    leaves the lane collapsed and ArrowRight leaves it expanded, whatever it
    was before, and pressing the same arrow again is left alone; a key other
    than the arrows, Space and Enter is left alone, and so are Space and
    Enter when the event did not start on the lane element itself; no key
    ever changes 'list-collapse'. *)
Theorem arrow_keys_collapse_and_expand (vs : ViewState) (lane : Lane) (laneIndex : nat)
    (onElement : bool) :
  isParentLane lane = true ->
  (forall key, exists handled, handleKeyDown vs lane laneIndex key onElement = Ok handled)
  /\ isHierarchicallyCollapsed (afterKey vs lane laneIndex "ArrowLeft" onElement) lane
     = true
  /\ isHierarchicallyCollapsed (afterKey vs lane laneIndex "ArrowRight" onElement) lane
     = false
  /\ (forall again,
        handleKeyDown (afterKey vs lane laneIndex "ArrowLeft" onElement) lane laneIndex
          "ArrowLeft" again = Ok None
        /\ handleKeyDown (afterKey vs lane laneIndex "ArrowRight" onElement) lane laneIndex
             "ArrowRight" again = Ok None)
  /\ (forall key,
        key <> "ArrowLeft"%string -> key <> "ArrowRight"%string ->
        (key <> " "%string /\ key <> "Enter"%string) \/ onElement = false ->
        handleKeyDown vs lane laneIndex key onElement = Ok None)
  /\ (forall key,
        listCollapse (afterKey vs lane laneIndex key onElement) = listCollapse vs).
Proof.
  intros Hp.
  destruct (arrow_key_leaves vs lane laneIndex onElement Hp) as (Hleft & Hright).
  split; [|split; [exact Hleft | split; [exact Hright | split; [|split]]]].
  - intros key.
    destruct (afterKey_cases vs lane laneIndex key onElement Hp) as [(-> & _) | (-> & _)];
      eauto.
  - intros again. split.
    + unfold handleKeyDown at 1. rewrite Hp, Hleft. reflexivity.
    + unfold handleKeyDown at 1. rewrite Hp, Hright. reflexivity.
  - intros key Hl Hr Hother. unfold handleKeyDown. rewrite Hp. cbn [negb].
    destruct (String.eqb_spec key "ArrowLeft"); [contradiction|].
    destruct (String.eqb_spec key "ArrowRight"); [contradiction|]. cbn [andb].
    destruct Hother as [(Hs & He) | ->].
    + destruct (String.eqb_spec key " "); [contradiction|].
      destruct (String.eqb_spec key "Enter"); [contradiction | reflexivity].
    + rewrite andb_false_r. reflexivity.
  - intros key.
    destruct (afterKey_cases vs lane laneIndex key onElement Hp) as [(_ & ->) | (_ & ->)];
      reflexivity.
Qed.

Lemma arrow_keys_collapse_and_expand_witness :
  isHierarchicallyCollapsed
    (afterKey Demo.freshView Demo.parentLane 0 "ArrowLeft" true) Demo.parentLane = true.
Proof.
  apply (arrow_keys_collapse_and_expand Demo.freshView Demo.parentLane 0 true).
  reflexivity.
Defined.

(** X18: what [Lanes] renders below the header of a lane with nested lanes.
    When the lane is collapsed ([isCollapsed]: its 'list-collapse' entry is
    set, or a search is on that it does not match) it renders no content at
    all, neither items nor nested lanes. Otherwise [NestedContent] renders its
    items, and its nested lanes exactly when the lane is not hierarchically
    collapsed. Toggling the hierarchical collapse never changes [isCollapsed];
    on a lane that is not collapsed it switches the nested lanes between
    shown and hidden and keeps the items shown. *)
Theorem collapse_hides_only_nested_lanes (search : option Search) (vs : ViewState)
    (lane : Lane) (laneIndex : nat) :
  isParentLane lane = true ->
  exists t,
    toggleHierarchicalCollapse vs lane laneIndex = Ok t
    /\ lanesIsCollapsed search (viewAfter t) lane laneIndex
       = lanesIsCollapsed search vs lane laneIndex
    /\ if lanesIsCollapsed search vs lane laneIndex
       then renderedLane search vs lane laneIndex = None
            /\ renderedLane search (viewAfter t) lane laneIndex = None
       else exists shown shown',
              renderedLane search vs lane laneIndex = Some shown
              /\ renderedLane search (viewAfter t) lane laneIndex = Some shown'
              /\ shownItems shown = getNestedItems lane
              /\ shownItems shown' = getNestedItems lane
              /\ shownLanes shown =
                   (if isHierarchicallyCollapsed vs lane then None
                    else Some (getNestedLanes lane))
              /\ shownLanes shown' =
                   (if isHierarchicallyCollapsed vs lane then Some (getNestedLanes lane)
                    else None).
Proof.
  intros Hp. exists (hierarchicalToggled vs lane).
  split; [apply toggleHierarchicalCollapse_of_parent; exact Hp|].
  assert (Hsame : lanesIsCollapsed search (viewAfter (hierarchicalToggled vs lane)) lane
                    laneIndex
                  = lanesIsCollapsed search vs lane laneIndex) by reflexivity.
  split; [exact Hsame|].
  assert (Hsome : Nat.eqb (length (lanesAmong (lane_children lane))) 0 = false).
  { unfold isParentLane in Hp. induction (lane_children lane) as [|[i|l'] l IH]; cbn;
      [discriminate | exact (IH Hp) | reflexivity]. }
  unfold renderedLane, laneBody. rewrite Hsame.
  destruct (lanesIsCollapsed search vs lane laneIndex); [split; reflexivity|].
  eexists. eexists. split; [reflexivity|]. split; [reflexivity|].
  split; [reflexivity|]. split; [reflexivity|]. split.
  - unfold nestedContent. cbn [shownLanes]. rewrite Hsome.
    destruct (isHierarchicallyCollapsed vs lane); reflexivity.
  - unfold nestedContent. cbn [shownLanes]. rewrite Hsome.
    rewrite (hierarchical_toggle_flips vs lane Hp).
    destruct (isHierarchicallyCollapsed vs lane); reflexivity.
Qed.

Lemma collapse_hides_only_nested_lanes_witness :
  exists t shown shown',
    toggleHierarchicalCollapse Demo.freshView Demo.parentLane 0 = Ok t
    /\ renderedLane None Demo.freshView Demo.parentLane 0 = Some shown
    /\ renderedLane None (viewAfter t) Demo.parentLane 0 = Some shown'
    /\ shownItems shown' = getNestedItems Demo.parentLane
    /\ shownLanes shown = Some (getNestedLanes Demo.parentLane)
    /\ shownLanes shown' = None.
Proof.
  destruct (collapse_hides_only_nested_lanes None Demo.freshView Demo.parentLane 0)
    as (t & Ht & _ & Hr).
  - reflexivity.
  - change (lanesIsCollapsed None Demo.freshView Demo.parentLane 0) with false in Hr.
    destruct Hr as (shown & shown' & H1 & H2 & _ & H3 & H4 & H5).
    exists t, shown, shown'. split; [exact Ht|]. split; [exact H1|].
    split; [exact H2|]. split; [exact H3|]. split; [exact H4 | exact H5].
Defined.
